(** * Propositional logic engine of the Hunt-the-Wumpus agent

    A shallow embedding of [logic.py] (expressions, [pl_true], [tt_entails],
    [to_cnf] and its three stages, the associator, [PropKB]) and of the
    SAT-backed knowledge base [PropKB_SAT] of [wumpus_agent.py], followed by
    the properties established about them. *)

From Stdlib Require Import List String Ascii Bool Arith ZArith Lia Permutation.
Import ListNotations.
Open Scope string_scope.
Open Scope list_scope.
Set Warnings "-register-all".

(** ** Python exceptions and the result of a call *)

(** The exceptions the modelled functions can raise.  [RecursionError] is
    what the one function defined with a bound on its call depth returns
    when the bound is used up.  [ValueError] carries
    which of the two [ValueError]s of [pl_true] it is: the tuple unpacking
    [p, q = args] failing, or the explicit
    [raise ValueError('Illegal operator in logic expression' ...)]. *)
Inductive ValueErrorKind : Type :=
| Unpack
| IllegalOperator.

Inductive PyError : Type :=
| AttributeError
| IndexError
| AssertionError
| RecursionError
| ValueError (k : ValueErrorKind).

Inductive Result (A : Type) : Type :=
| Ok (a : A)
| Raise (e : PyError).

Arguments Ok {A} a.
Arguments Raise {A} e.

Definition bind {A B : Type} (r : Result A) (f : A -> Result B) : Result B :=
  match r with
  | Ok a => f a
  | Raise e => Raise e
  end.

Notation "x <- c ;; k" := (bind c (fun x => k))
  (at level 61, c at next level, right associativity).

(** [list(map(f, xs))] for an [f] that may raise: left to right, the first
    exception wins. *)
Fixpoint sequence {A : Type} (rs : list (Result A)) : Result (list A) :=
  match rs with
  | [] => Ok []
  | r :: rs' => a <- r ;; l <- sequence rs' ;; Ok (a :: l)
  end.

(** ** Expressions *)

(** Modelled from the spec: the class [Expr] lives in [utils.py], which is
    not among the sources.  An [Expr] is an operator string with an ordered
    argument tuple, compared structurally.  The boolean constants of
    [logic.py] are the Python values [True] and [False] themselves
    ([exp in (True, False)], [_op_identity], [return False]); they are not
    [Expr] objects and have neither [.op] nor [.args].  Numeric leaves are
    outside the propositional fragment and are not modelled; sentences are
    taken as already built, so [expr(s)] returns [s]. *)
Inductive Expression : Type :=
| PyBool (b : bool)
| Expr (op : string) (args : list Expression).

Section Expression_induction.
Variable P : Expression -> Prop.
Hypothesis P_bool : forall b, P (PyBool b).
Hypothesis P_expr : forall op args, Forall P args -> P (Expr op args).

Fixpoint Expression_nested_ind (e : Expression) : P e :=
  match e with
  | PyBool b => P_bool b
  | Expr op args =>
      P_expr op args
        ((fix all (l : list Expression) : Forall P l :=
            match l with
            | [] => Forall_nil P
            | x :: l' => Forall_cons x (Expression_nested_ind x) (all l')
            end) args)
  end.

End Expression_induction.

(** [Expr.__eq__]: same operator and the same arguments. *)
Fixpoint expr_eqb (a b : Expression) : bool :=
  match a, b with
  | PyBool x, PyBool y => Bool.eqb x y
  | Expr o1 l1, Expr o2 l2 =>
      String.eqb o1 o2 &&
      (fix args_eqb (l1 l2 : list Expression) : bool :=
         match l1, l2 with
         | [], [] => true
         | x :: l1', y :: l2' => expr_eqb x y && args_eqb l1' l2'
         | _, _ => false
         end) l1 l2
  | _, _ => false
  end.

(** [x.op] and [x.args]: an [AttributeError] on a Python boolean. *)
Definition get_op (x : Expression) : Result string :=
  match x with
  | PyBool _ => Raise AttributeError
  | Expr op _ => Ok op
  end.

Definition get_args (x : Expression) : Result (list Expression) :=
  match x with
  | PyBool _ => Raise AttributeError
  | Expr _ args => Ok args
  end.

(** The operators [~x], [x & y] and [x | y] on [Expr] operands. *)
Definition Not (x : Expression) : Expression := Expr "~" [x].
Definition And (x y : Expression) : Expression := Expr "&" [x; y].
Definition Or (x y : Expression) : Expression := Expr "|" [x; y].

(** ** Symbols *)

(** [str.isalpha] and [str.isupper] on one character, for the ASCII range in
    which operator names are written. *)
Definition isupper (c : ascii) : bool :=
  let n := nat_of_ascii c in ((65 <=? n) && (n <=? 90))%nat.

Definition islower (c : ascii) : bool :=
  let n := nat_of_ascii c in ((97 <=? n) && (n <=? 122))%nat.

Definition isalpha (c : ascii) : bool := isupper c || islower c.

(** [is_symbol(s)]: [s[:1].isalpha()]. *)
Definition is_symbol (s : string) : bool :=
  match s with
  | EmptyString => false
  | String c _ => isalpha c
  end.

(** [is_prop_symbol(s)]: [is_symbol(s) and s[0].isupper()]. *)
Definition is_prop_symbol (s : string) : bool :=
  is_symbol s &&
  match s with
  | EmptyString => false
  | String c _ => isupper c
  end.

(** [is_variable(x)]: [isinstance(x, Expr) and not x.args and
    x.op[0].islower()]; indexing an empty operator name raises. *)
Definition is_variable (x : Expression) : Result bool :=
  match x with
  | PyBool _ => Ok false
  | Expr op [] =>
      match op with
      | EmptyString => Raise IndexError
      | String c _ => Ok (islower c)
      end
  | Expr _ (_ :: _) => Ok false
  end.

(** Modelled from the spec: [subexpressions] is defined in [utils.py], which
    is not among the sources; it yields the expression and then, argument by
    argument, every expression below it. *)
Fixpoint subexpressions (x : Expression) : list Expression :=
  match x with
  | PyBool _ => [x]
  | Expr _ args => x :: flat_map subexpressions args
  end.

(** [variables(s)], as the list of the variable occurrences. *)
Definition variables (s : Expression) : Result (list Expression) :=
  flags <- sequence (map is_variable (subexpressions s)) ;;
  Ok (map fst (filter snd (combine (subexpressions s) flags))).

(** [prop_symbols(x)]: the set is kept as the list of the occurrences, left
    to right; see [dedup] for the set itself. *)
Fixpoint prop_symbols (x : Expression) : list Expression :=
  match x with
  | PyBool _ => []
  | Expr op args =>
      if is_prop_symbol op then [x] else flat_map prop_symbols args
  end.

Fixpoint mem (x : Expression) (l : list Expression) : bool :=
  match l with
  | [] => false
  | y :: l' => expr_eqb x y || mem x l'
  end.

Fixpoint dedup (l : list Expression) : list Expression :=
  match l with
  | [] => []
  | x :: l' => if mem x l' then dedup l' else x :: dedup l'
  end.

(** ** Models *)

(** A model is a [dict] from proposition symbols to booleans.  [extend]
    copies the dictionary and binds one more key, so the newest binding of a
    key is the one [get] finds. *)
Definition Model : Type := list (Expression * bool).

Fixpoint model_get (m : Model) (x : Expression) : option bool :=
  match m with
  | [] => None
  | (k, v) :: m' => if expr_eqb x k then Some v else model_get m' x
  end.

(** Modelled from the spec: [extend(s, var, val)] is defined in [utils.py];
    each branch of the enumeration owns its own extended copy. *)
Definition extend (m : Model) (var : Expression) (val : bool) : Model :=
  (var, val) :: m.

(** ** The evaluator [pl_true] *)

(** [True], [False] or [None]. *)
Definition Truth : Type := option bool.

(** The body of the [op == '~'] branch, given the value of [args[0]]. *)
Definition not_value (r : Result Truth) : Result Truth :=
  p <- r ;; Ok (option_map negb p).

(** The loop of the [op == '|'] branch over the values of the arguments: it
    returns at the first [True], so what a later argument would do, raising
    included, is never seen. *)
Fixpoint or_loop (result : Truth) (rs : list (Result Truth)) : Result Truth :=
  match rs with
  | [] => Ok result
  | r :: rs' =>
      p <- r ;;
      match p with
      | Some true => Ok (Some true)
      | None => or_loop None rs'
      | Some false => or_loop result rs'
      end
  end.

(** The loop of the [op == '&'] branch. *)
Fixpoint and_loop (result : Truth) (rs : list (Result Truth)) : Result Truth :=
  match rs with
  | [] => Ok result
  | r :: rs' =>
      p <- r ;;
      match p with
      | Some false => Ok (Some false)
      | None => and_loop None rs'
      | Some true => and_loop result rs'
      end
  end.

(** [pl_true(~p | q, model)] in terms of the values of [p] and [q].  When
    [p] is an [Expr], [~p | q] is [Expr('|', Expr('~', p), q)] and the
    disjunction loop runs over the negation of [p] and then [q].  When [p]
    is a Python boolean, [~p] is the integer [-2] or [-1]; it, or its
    bitwise disjunction with a boolean [q], is evaluated first and has no
    [.op]. *)
Definition forward_implication (p : Expression) (vp vq : Result Truth)
  : Result Truth :=
  match p with
  | PyBool _ => Raise AttributeError
  | Expr _ _ => or_loop (Some false) [not_value vp; vq]
  end.

(** [pl_true(p | ~q, model)] likewise: an integer [~q] is reached by the
    loop only after [p], and only if [p] is not true; two Python booleans
    combine to an integer before the call. *)
Definition backward_implication (p q : Expression) (vp vq : Result Truth)
  : Result Truth :=
  match q with
  | Expr _ _ => or_loop (Some false) [vp; not_value vq]
  | PyBool _ =>
      match p with
      | PyBool _ => Raise AttributeError
      | Expr _ _ => or_loop (Some false) [vp; Raise AttributeError]
      end
  end.

Fixpoint pl_true (exp : Expression) (model : Model) : Result Truth :=
  match exp with
  | PyBool b => Ok (Some b)
  | Expr op args =>
      if is_prop_symbol op then Ok (model_get model exp)
      else if op =? "~" then
        match args with
        | [] => Raise IndexError
        | a :: _ => not_value (pl_true a model)
        end
      else if op =? "|" then
        or_loop (Some false) (map (fun arg => pl_true arg model) args)
      else if op =? "&" then
        and_loop (Some true) (map (fun arg => pl_true arg model) args)
      else
        match args with
        | [p; q] =>
            if (op =? ">>") || (op =? "==>") then
              forward_implication p (pl_true p model) (pl_true q model)
            else if (op =? "<<") || (op =? "<==") then
              backward_implication p q (pl_true p model) (pl_true q model)
            else
              pt <- pl_true p model ;;
              match pt with
              | None => Ok None
              | Some pt =>
                  qt <- pl_true q model ;;
                  match qt with
                  | None => Ok None
                  | Some qt =>
                      if op =? "<=>" then Ok (Some (Bool.eqb pt qt))
                      else if op =? "^" then Ok (Some (xorb pt qt))
                      else Raise (ValueError IllegalOperator)
                  end
              end
        | _ => Raise (ValueError Unpack)
        end
  end.

(** A proposition symbol without arguments. *)
Definition sym (name : string) : Expression := Expr name [].

(** ** The associator *)

(** [dissociate(op, args)]: the nested function [collect] walks the
    arguments left to right and descends into those whose operator is [op];
    [arg.op] raises on a Python boolean. *)
Fixpoint collect_arg (op : string) (arg : Expression)
  : Result (list Expression) :=
  match arg with
  | PyBool _ => Raise AttributeError
  | Expr o subargs =>
      if o =? op then
        ls <- sequence (map (collect_arg op) subargs) ;; Ok (List.concat ls)
      else Ok [arg]
  end.

Definition dissociate (op : string) (args : list Expression)
  : Result (list Expression) :=
  ls <- sequence (map (collect_arg op) args) ;; Ok (List.concat ls).

(** The two associative operators [associate] is called with, and their
    entries in [_op_identity]. *)
Inductive AssocOp : Type :=
| AND
| OR.

Definition op_name (o : AssocOp) : string :=
  match o with
  | AND => "&"
  | OR => "|"
  end.

Definition _op_identity (o : AssocOp) : Expression :=
  match o with
  | AND => PyBool true
  | OR => PyBool false
  end.

Definition associate (o : AssocOp) (args : list Expression)
  : Result Expression :=
  args' <- dissociate (op_name o) args ;;
  match args' with
  | [] => Ok (_op_identity o)
  | [x] => Ok x
  | _ => Ok (Expr (op_name o) args')
  end.

(** [conjuncts(s)]: [dissociate('&', [s])]. *)
Definition conjuncts (s : Expression) : Result (list Expression) :=
  dissociate "&" [s].

(** ** The normaliser *)

Definition is_empty {A : Type} (l : list A) : bool :=
  match l with
  | [] => true
  | _ :: _ => false
  end.

(** [eliminate_implications(s)].  [p] and [q] are [args[0]] and [args[-1]]. *)
Fixpoint eliminate_implications (s : Expression) : Result Expression :=
  match s with
  | PyBool _ => Raise AttributeError
  | Expr op sargs =>
      if is_empty sargs || is_symbol op then Ok s
      else
        args <- sequence (map eliminate_implications sargs) ;;
        match args with
        | [] => Raise IndexError
        | p :: _ =>
            let q := last args p in
            if (op =? ">>") || (op =? "==>") then Ok (Or q (Not p))
            else if (op =? "<<") || (op =? "<==") then Ok (Or p (Not q))
            else if op =? "<=>" then Ok (And (Or p (Not q)) (Or q (Not p)))
            else if op =? "^" then
              if (List.length args =? 2)%nat then Ok (Or (And p (Not q)) (And (Not p) q))
              else Raise AssertionError
            else if (op =? "&") || (op =? "|") || (op =? "~")
                 then Ok (Expr op args)
            else Raise AssertionError
        end
  end.

(** [move_not_inwards].  The source recurses on the freshly built [~b]
    through its helper [NOT]; here the negation being pushed is carried as
    the first argument: [move_not None s] is [move_not_inwards(s)], and
    [move_not (Some s) a] is the body of the [s.op == '~'] branch for
    [a = s.args[0]]. *)
Fixpoint move_not (outer : option Expression) (x : Expression)
  : Result Expression :=
  match outer with
  | None =>
      match x with
      | PyBool _ => Raise AttributeError
      | Expr op args =>
          if op =? "~" then
            match args with
            | [] => Raise IndexError
            | a :: _ => move_not (Some x) a
            end
          else if is_symbol op || is_empty args then Ok x
          else
            args' <- sequence (map (move_not None) args) ;;
            Ok (Expr op args')
      end
  | Some s =>
      match x with
      | PyBool _ => Raise AttributeError
      | Expr aop aargs =>
          if aop =? "~" then
            match aargs with
            | [] => Raise IndexError
            | b :: _ => move_not None b
            end
          else if aop =? "&" then
            l <- sequence (map (fun b => move_not (Some (Not b)) b) aargs) ;;
            associate OR l
          else if aop =? "|" then
            l <- sequence (map (fun b => move_not (Some (Not b)) b) aargs) ;;
            associate AND l
          else Ok s
      end
  end.

Definition move_not_inwards (s : Expression) : Result Expression :=
  move_not None s.

(** The helper [NOT(b)] of the source: [move_not_inwards(~b)]. *)
Definition NOT (b : Expression) : Result Expression :=
  move_not_inwards (Not b).

Definition has_op (op : string) (x : Expression) : bool :=
  match x with
  | PyBool _ => false
  | Expr o _ => o =? op
  end.

(** [first(arg for arg in s.args if arg.op == '&')]; [None] when there is
    none.  The arguments come out of [dissociate], which has already read
    the [.op] of each. *)
Definition first_conj (args : list Expression) : option Expression :=
  find (has_op "&") args.

(** [[a for a in s.args if a is not conj]] on a tree of values, where
    every place holds an object of its own: exactly the place where [conj]
    was found is dropped.  The test is object identity, and a caller may
    hand in one object at several places; [others_than] below, on
    [Object]s, is the list with identity, and [distribute_obj] the function
    with it.  The two agree on every graph in which no conjunction object
    occurs twice ([distribute_obj_erase]).  That is the case of the
    sentence reaching this point from [to_cnf], whose two earlier stages
    build every conjunction with arguments anew (for a conjunction without
    arguments the result does not look at [others]). *)
Fixpoint others_than_first_conj (args : list Expression) : list Expression :=
  match args with
  | [] => []
  | a :: args' =>
      if has_op "&" a then args' else a :: others_than_first_conj args'
  end.

(** The product of a list of numbers. *)
Definition list_prod (l : list nat) : nat := fold_right Nat.mul 1 l.

(** What bounds the depth of the recursion of [distribute_and_over_or]: the
    number of nodes plus the number of clauses the distribution can make. *)
Fixpoint size (s : Expression) : nat :=
  match s with
  | PyBool _ => 1
  | Expr _ args => S (list_sum (map size args))
  end.

Fixpoint spread (s : Expression) : nat :=
  match s with
  | PyBool _ => 1
  | Expr op args =>
      if op =? "|" then list_prod (map spread args)
      else if op =? "&" then S (list_sum (map spread args))
      else 1
  end.

Definition weight (s : Expression) : nat := spread s + size s.

(** [distribute_and_over_or(s)] on a tree of values, by recursion on a
    bound of the depth of the calls; [RecursionError] when the bound is
    used up, which with the bound [weight s] never happens
    ([distribute_fuel_suffices]). *)
Fixpoint distribute (fuel : nat) (s : Expression) : Result Expression :=
  match fuel with
  | 0 => Raise RecursionError
  | S fuel' =>
      match s with
      | PyBool _ => Raise AttributeError
      | Expr op sargs =>
          if op =? "|" then
            s1 <- associate OR sargs ;;
            match s1 with
            | PyBool _ => Raise AttributeError
            | Expr op1 args1 =>
                if negb (op1 =? "|") then distribute fuel' s1
                else
                  match args1 with
                  | [] => Ok (PyBool false)
                  | [a] => distribute fuel' a
                  | _ =>
                      match first_conj args1 with
                      | None => Ok s1
                      | Some conj_ =>
                          rest <- associate OR (others_than_first_conj args1) ;;
                          cargs <- get_args conj_ ;;
                          ds <- sequence
                                  (map (fun c => distribute fuel' (Or c rest))
                                       cargs) ;;
                          associate AND ds
                      end
                  end
            end
          else if op =? "&" then
            ds <- sequence (map (distribute fuel') sargs) ;;
            associate AND ds
          else Ok s
      end
  end.

Definition distribute_and_over_or (s : Expression) : Result Expression :=
  distribute (weight s) s.

(** [to_cnf(s)]. *)
Definition to_cnf (s : Expression) : Result Expression :=
  s1 <- eliminate_implications s ;;
  s2 <- move_not_inwards s1 ;;
  distribute_and_over_or s2.

Definition P := sym "P".
Definition Q := sym "Q".
Definition A := sym "A".
Definition B := sym "B".
Definition C := sym "C".

(** ** The entailment checker *)

(** [tt_check_all(kb, alpha, symbols, model)].  A [None] from
    [pl_true(kb, model)] is falsy; [and] does not evaluate its right operand
    when the left one is [False]. *)
Fixpoint tt_check_all (kb alpha : Expression) (symbols : list Expression)
    (model : Model) : Result bool :=
  match symbols with
  | [] =>
      t <- pl_true kb model ;;
      match t with
      | Some true =>
          result <- pl_true alpha model ;;
          match result with
          | Some b => Ok b
          | None => Raise AssertionError
          end
      | _ => Ok true
      end
  | P :: rest =>
      r <- tt_check_all kb alpha rest (extend model P true) ;;
      if r then tt_check_all kb alpha rest (extend model P false)
      else Ok false
  end.

(** [tt_entails(kb, alpha)].  [list(prop_symbols(kb & alpha))] lists a set;
    here in the order of first occurrence (the properties below are proved
    for every order). *)
Definition tt_entails (kb alpha : Expression) : Result bool :=
  vs <- variables alpha ;;
  if is_empty vs
  then tt_check_all kb alpha (dedup (prop_symbols (And kb alpha))) []
  else Raise AssertionError.

(** ** Knowledge bases *)

(** An instance of [PropKB] (or of a subclass): its attribute [clauses],
    [None] as long as nothing has been assigned to it. *)
Definition Instance : Type := option (list Expression).

(** Truthiness of a sentence: a Python boolean is its own truth value, an
    [Expr] object, whose class defines no truth test, is true. *)
Definition truthy (sentence : Expression) : bool :=
  match sentence with
  | PyBool b => b
  | Expr _ _ => true
  end.

(** [PropKB.tell]: [self.clauses.extend(conjuncts(to_cnf(sentence)))]; the
    attribute is looked up before the argument is computed. *)
Definition PropKB_tell (sentence : Expression) (self : Instance)
  : Result Instance :=
  match self with
  | None => Raise AttributeError
  | Some clauses =>
      s <- to_cnf sentence ;;
      cs <- conjuncts s ;;
      Ok (Some (clauses ++ cs))
  end.

(** [list.remove(c)] after the test [c in list]: the first element equal to
    [c] goes. *)
Fixpoint remove_first (c : Expression) (l : list Expression)
  : list Expression :=
  match l with
  | [] => []
  | x :: l' => if expr_eqb c x then l' else x :: remove_first c l'
  end.

(** [PropKB.retract]. *)
Definition PropKB_retract (sentence : Expression) (self : Instance)
  : Result Instance :=
  s <- to_cnf sentence ;;
  cs <- conjuncts s ;;
  fold_left
    (fun acc c =>
       self' <- acc ;;
       match self' with
       | None => Raise AttributeError
       | Some clauses =>
           if mem c clauses then Ok (Some (remove_first c clauses))
           else Ok (Some clauses)
       end)
    cs (Ok self).

(** [KB.__init__(self, sentence=None)], with the method [self.tell]
    resolves to. *)
Definition KB_init (tell : Expression -> Instance -> Result Instance)
    (sentence : option Expression) (self : Instance) : Result Instance :=
  match sentence with
  | None => Ok self
  | Some s => if truthy s then tell s self else Ok self
  end.

(** [PropKB.__init__]: [super().__init__(sentence)], then
    [self.clauses = []]. *)
Definition PropKB_init (tell : Expression -> Instance -> Result Instance)
    (sentence : option Expression) (self : Instance) : Result Instance :=
  _ <- KB_init tell sentence self ;;
  Ok (Some []).

(** [PropKB_SAT.tell]: [if sentence: super().tell(sentence)]. *)
Definition PropKB_SAT_tell (sentence : Expression) (self : Instance)
  : Result Instance :=
  if truthy sentence then PropKB_tell sentence self else Ok self.

(** [PropKB(sentence)] and [PropKB_SAT(sentence)] on a new object;
    [PropKB_SAT] defines no [__init__] of its own and no [retract]. *)
Definition new_PropKB (sentence : option Expression) : Result Instance :=
  PropKB_init PropKB_tell sentence None.

Definition new_PropKB_SAT (sentence : option Expression) : Result Instance :=
  PropKB_init PropKB_SAT_tell sentence None.

Definition PropKB_SAT_retract := PropKB_retract.

(** A substitution; the propositional knowledge base only ever yields the
    empty one. *)
Definition Substitution : Type := list (Expression * Expression).

(** [PropKB.ask_generator(query)]: the list of what it yields. *)
Definition PropKB_ask_generator (query : Expression) (self : Instance)
  : Result (list Substitution) :=
  match self with
  | None => Raise AttributeError
  | Some clauses =>
      r <- tt_entails (Expr "&" clauses) query ;;
      Ok (if r then [[]] else [])
  end.

(** Modelled from the spec: [first(iterable, default)] is defined in
    [utils.py]; the first element, or the default. *)
Definition first {A : Type} (l : list A) (default : A) : A :=
  match l with
  | [] => default
  | x :: _ => x
  end.

(** [KB.ask(query)]: a substitution, or [False] (here [None]). *)
Definition PropKB_ask (query : Expression) (self : Instance)
  : Result (option Substitution) :=
  l <- PropKB_ask_generator query self ;;
  Ok (first (map Some l) None).

(** [PropKB.ask_if_true(query)]. *)
Definition PropKB_ask_if_true (query : Expression) (self : Instance)
  : Result bool :=
  l <- PropKB_ask_generator query self ;;
  Ok (negb (is_empty l)).

(** ** The SAT-backed knowledge base *)

(** Modelled from the spec: the solver wrapper [minisat.py] is not among the
    sources.  A call [Minisat().solve(c, variable, value)] is an interaction
    with the world outside: it sends the clause list and the pinned variable
    and value, and gets back an object whose [success] flag is used. *)
Record Solution : Type := { success : bool }.

Record Probe : Type := {
  probe_clauses : list Expression;
  probe_variable : option Expression;
  probe_value : bool
}.

(** A computation that may consult the solver. *)
Inductive Oracle (R : Type) : Type :=
| Return (r : R)
| Solve (q : Probe) (k : Solution -> Oracle R).

Arguments Return {R} r.
Arguments Solve {R} q k.

Fixpoint oracle_bind {R S : Type} (c : Oracle R) (f : R -> Oracle S)
  : Oracle S :=
  match c with
  | Return r => f r
  | Solve q k => Solve q (fun a => oracle_bind (k a) f)
  end.

(** Running a computation against a solver: the result and the probes
    issued, in order. *)
Fixpoint run {R : Type} (solver : Probe -> Solution) (c : Oracle R)
  : R * list Probe :=
  match c with
  | Return r => (r, [])
  | Solve q k => let (r, t) := run solver (k (solver q)) in (r, q :: t)
  end.

(** [minisat(clauses, query, variable, value)] of [wumpus_agent.py]. *)
Definition minisat (clauses : list Expression) (query : option Expression)
    (variable : option Expression) (value : bool) : Oracle Solution :=
  let c :=
    match query with
    | None => clauses
    | Some q => if truthy q then clauses ++ [q] else clauses
    end in
  Solve {| probe_clauses := c; probe_variable := variable;
           probe_value := value |} Return.

(** [PropKB_SAT.ask(query)], for a query already parsed: [True], [False] or
    [None]. *)
Definition PropKB_SAT_ask (query : Expression) (self : Instance)
  : Oracle (Result Truth) :=
  match self with
  | None => Return (Raise AttributeError)
  | Some clauses =>
      oracle_bind (minisat clauses None (Some query) true) (fun s_true =>
      oracle_bind (minisat clauses None (Some query) false) (fun s_false =>
      Return
        (if Bool.eqb (success s_true) (success s_false) then Ok None
         else Ok (Some (success s_true)))))
  end.

(** ** Shapes of sentences *)

Definition is_expr (s : Expression) : bool :=
  match s with
  | PyBool _ => false
  | Expr _ _ => true
  end.

(** A proposition symbol: an initial-uppercase operator and no arguments. *)
Definition is_atom (s : Expression) : bool :=
  match s with
  | Expr op [] => is_prop_symbol op
  | _ => false
  end.

Definition is_literal (s : Expression) : bool :=
  is_atom s ||
  match s with
  | Expr op [a] => (op =? "~") && is_atom a
  | _ => false
  end.

(** A clause: a literal, or a disjunction of two literals or more. *)
Definition is_clause (s : Expression) : bool :=
  is_literal s ||
  match s with
  | Expr op l => (op =? "|") && (2 <=? List.length l)%nat && forallb is_literal l
  | PyBool _ => false
  end.

(** Conjunctive normal form: a clause, or a conjunction of two clauses or
    more. *)
Definition is_cnf (s : Expression) : bool :=
  is_clause s ||
  match s with
  | Expr op l => (op =? "&") && (2 <=? List.length l)%nat && forallb is_clause l
  | PyBool _ => false
  end.

Definition is_implication (op : string) : bool :=
  (op =? ">>") || (op =? "==>").

Definition is_reverse_implication (op : string) : bool :=
  (op =? "<<") || (op =? "<==").

(** The sentences of the evaluator: Python booleans, proposition symbols,
    [~] of one argument, [&] and [|] of any number of arguments, and the
    binary [>>]/[==>], [<<]/[<==], [<=>] and [^]; the operand an implication
    negates is an [Expr]. *)
Fixpoint sentence (s : Expression) : bool :=
  match s with
  | PyBool _ => true
  | Expr op args =>
      if is_prop_symbol op then is_empty args
      else if op =? "~" then
        match args with
        | [a] => sentence a
        | _ => false
        end
      else if (op =? "|") || (op =? "&") then forallb sentence args
      else
        match args with
        | [p; q] =>
            sentence p && sentence q &&
            (if is_implication op then is_expr p
             else if is_reverse_implication op then is_expr q
             else (op =? "<=>") || (op =? "^"))
        | _ => false
        end
  end.

(** The sentences of the normaliser: as above, without Python booleans and
    with at least one argument under every [&] and [|]. *)
Fixpoint proper (s : Expression) : bool :=
  match s with
  | PyBool _ => false
  | Expr op args =>
      if is_prop_symbol op then is_empty args
      else if op =? "~" then
        match args with
        | [a] => proper a
        | _ => false
        end
      else if (op =? "|") || (op =? "&") then
        negb (is_empty args) && forallb proper args
      else
        match args with
        | [p; q] =>
            proper p && proper q &&
            (is_implication op || is_reverse_implication op ||
             (op =? "<=>") || (op =? "^"))
        | _ => false
        end
  end.

(** What [eliminate_implications] produces: only [~], [&] and [|]. *)
Fixpoint basic (s : Expression) : bool :=
  match s with
  | PyBool _ => false
  | Expr op args =>
      if is_prop_symbol op then is_empty args
      else if op =? "~" then
        match args with
        | [a] => basic a
        | _ => false
        end
      else ((op =? "|") || (op =? "&")) &&
           negb (is_empty args) && forallb basic args
  end.

(** What [move_not_inwards] produces: negation on proposition symbols
    only. *)
Fixpoint nnf (s : Expression) : bool :=
  match s with
  | PyBool _ => false
  | Expr op args =>
      is_literal s ||
      ((op =? "|") || (op =? "&")) && negb (is_empty args) && forallb nnf args
  end.

(** ** Classical two-valued semantics *)

(** The truth value of a sentence under a valuation of its proposition
    symbols. *)
Fixpoint truth_value (v : Expression -> bool) (s : Expression) : bool :=
  match s with
  | PyBool b => b
  | Expr op args =>
      if is_prop_symbol op then v s
      else if op =? "~" then
        match args with
        | a :: _ => negb (truth_value v a)
        | [] => false
        end
      else if op =? "|" then existsb (truth_value v) args
      else if op =? "&" then forallb (truth_value v) args
      else
        match args with
        | [p; q] =>
            if is_implication op
            then implb (truth_value v p) (truth_value v q)
            else if is_reverse_implication op
            then implb (truth_value v q) (truth_value v p)
            else if op =? "<=>"
            then Bool.eqb (truth_value v p) (truth_value v q)
            else if op =? "^"
            then xorb (truth_value v p) (truth_value v q)
            else false
        | _ => false
        end
  end.

(** The valuation a model stands for, and what it is for a model to bind
    every proposition symbol of a sentence. *)
Definition valuation (m : Model) (x : Expression) : bool :=
  match model_get m x with
  | Some b => b
  | None => false
  end.

Definition total_on (m : Model) (s : Expression) : Prop :=
  forall x, In x (prop_symbols s) -> model_get m x <> None.

(** Tests on a truth value. *)
Definition is_true (t : Truth) : bool :=
  match t with
  | Some true => true
  | _ => false
  end.

Definition is_false (t : Truth) : bool :=
  match t with
  | Some false => true
  | _ => false
  end.

Definition is_unknown (t : Truth) : bool :=
  match t with
  | None => true
  | Some _ => false
  end.

(** ** What a rewriting stage must preserve *)

(** [c] has the truth value of [s] under every valuation and mentions no
    proposition symbol that [s] does not. *)
Definition preserves (s c : Expression) : Prop :=
  (forall v, truth_value v c = truth_value v s) /\
  incl (prop_symbols c) (prop_symbols s).

(** The flattening [dissociate] computes when nothing raises. *)
Fixpoint flatten (op : string) (x : Expression) : list Expression :=
  match x with
  | PyBool _ => [x]
  | Expr o subargs => if o =? op then flat_map (flatten op) subargs else [x]
  end.

(** The truth value of the conjunction or disjunction of a list. *)
Definition junction (o : AssocOp) (v : Expression -> bool)
    (l : list Expression) : bool :=
  match o with
  | AND => forallb (truth_value v) l
  | OR => existsb (truth_value v) l
  end.

(** The sentences the specification speaks of: Python booleans, proposition
    symbols, [~] of one argument, [&] and [|] of one argument or more, and
    the binary [>>]/[==>], [<<]/[<==], [<=>] and [^]. *)
Fixpoint propositional (s : Expression) : bool :=
  match s with
  | PyBool _ => true
  | Expr op args =>
      if is_prop_symbol op then is_empty args
      else if op =? "~" then
        match args with
        | [a] => propositional a
        | _ => false
        end
      else if (op =? "|") || (op =? "&") then
        negb (is_empty args) && forallb propositional args
      else
        match args with
        | [p; q] =>
            propositional p && propositional q &&
            (is_implication op || is_reverse_implication op ||
             (op =? "<=>") || (op =? "^"))
        | _ => false
        end
  end.

(** [total_on], as a test. *)
Definition is_total_on (m : Model) (s : Expression) : bool :=
  forallb (fun x => negb (is_unknown (model_get m x))) (prop_symbols s).

(** ** The enumeration of [tt_check_all] *)

(** The models at the leaves of the recursion of [tt_check_all], in the
    order they are visited: each remaining symbol first true, then false. *)
Fixpoint all_models (symbols : list Expression) (model : Model)
  : list Model :=
  match symbols with
  | [] => [model]
  | P :: rest =>
      all_models rest (extend model P true)
      ++ all_models rest (extend model P false)
  end.

(** What a leaf checks: a model in which [kb] is not true is skipped;
    otherwise [alpha] has to be true. *)
Definition leaf_check (kb alpha : Expression) (m : Model) : bool :=
  match pl_true kb m with
  | Ok (Some true) =>
      match pl_true alpha m with
      | Ok (Some b) => b
      | _ => false
      end
  | _ => true
  end.

(** The probes and the answer of [PropKB_SAT.ask]. *)
Definition forced (clauses : list Expression) (query : Expression)
    (value : bool) : Probe :=
  {| probe_clauses := clauses; probe_variable := Some query;
     probe_value := value |}.

Definition decision (sat_if_true sat_if_false : bool) : Truth :=
  match sat_if_true, sat_if_false with
  | true, false => Some true
  | false, true => Some false
  | _, _ => None
  end.

(** ** The two knowledge bases compared *)

(** What a correct solver decides for a probe of [PropKB_SAT.ask]: whether
    some model binding all the proposition symbols at hand gives the pinned
    variable the pinned value and makes the conjunction of the clauses
    true. *)
Definition satisfiable_with (clauses : list Expression) (query : Expression)
    (value : bool) : Prop :=
  exists m : Model,
    is_total_on m (And (Expr "&" clauses) query) = true /\
    model_get m query = Some value /\
    pl_true (Expr "&" clauses) m = Ok (Some true).

(** The answer of the enumeration-backed [PropKB] to a literal query, in
    the three outcomes the specification compares: true when the store
    entails the query, false when it entails its negation, unknown
    otherwise. *)
Definition EnumerationKB_answer (query : Expression) (self : Instance)
  : Result Truth :=
  yes <- PropKB_ask_if_true query self ;;
  no <- PropKB_ask_if_true (Not query) self ;;
  Ok (if yes then Some true else if no then Some false else None).

(** ** The stores a [PropKB] can hold *)

(** The instances obtained from [PropKB()] by any sequence of [tell]s of
    sentences of the specification and of [retract]s that return. *)
Inductive reachable : Instance -> Prop :=
| reachable_new : forall kb,
    new_PropKB None = Ok kb -> reachable kb
| reachable_tell : forall kb s kb',
    reachable kb -> propositional s = true ->
    PropKB_tell s kb = Ok kb' -> reachable kb'
| reachable_retract : forall kb s kb',
    reachable kb -> PropKB_retract s kb = Ok kb' -> reachable kb'.

(** ** Models that bind more *)

(** [m'] binds what [m] binds, to the same values. *)
Definition extends (m m' : Model) : Prop :=
  forall x b, model_get m x = Some b -> model_get m' x = Some b.

(** A truth value that can only become more definite. *)
Definition refines (t t' : Truth) : Prop :=
  forall b, t = Some b -> t' = Some b.

(** The keys of [new] are not bound in [m]. *)
Definition fresh_in (new m : Model) : bool :=
  forallb (fun kv => is_unknown (model_get m (fst kv))) new.

(** Two calls that both return, the second at least as definite as the
    first. *)
Definition both_return (r r' : Result Truth) : Prop :=
  exists t t', r = Ok t /\ r' = Ok t' /\ refines t t'.

(** ** Loading sentences *)

(** [PropKB_SAT.load_sentences(sentences)]: [tell] for each sentence in
    turn; an exception ends the loop. *)
Definition load_sentences (sentences : list Expression) (self : Instance)
  : Result Instance :=
  fold_left (fun acc sentence => self' <- acc ;; PropKB_SAT_tell sentence self')
            sentences (Ok self).

(** [conjuncts(to_cnf(sentence))], what [tell] stores and [retract]
    removes. *)
Definition conjuncts_of (sentence : Expression) : Result (list Expression) :=
  s <- to_cnf sentence ;; conjuncts s.

(** ** The planners' distance *)

(** [manhattan_distance_with_heading(current, target)] of
    [wumpus_planners.py]: [current] is [(x, y, h)], of [target] the first
    two components are read; Python integers are unbounded. *)
Definition manhattan_distance_with_heading (current : Z * Z * Z)
    (target : Z * Z) : Z :=
  let '(cx, cy, h) := current in
  let '(tx, ty) := target in
  let md := (Z.abs (cx - tx) + Z.abs (cy - ty))%Z in
  if (h =? 0)%Z then
    let side := (cy - ty)%Z in
    if (side >? 0)%Z then (md + 2)%Z
    else if (side <=? 0)%Z && negb (cx =? tx)%Z then (md + 1)%Z
    else md
  else if (h =? 1)%Z then
    let side := (cx - tx)%Z in
    if (side <? 0)%Z then (md + 2)%Z
    else if (side >=? 0)%Z && negb (cy =? ty)%Z then (md + 1)%Z
    else md
  else if (h =? 2)%Z then
    let side := (cy - ty)%Z in
    if (side <? 0)%Z then (md + 2)%Z
    else if (side >=? 0)%Z && negb (cx =? tx)%Z then (md + 1)%Z
    else md
  else if (h =? 3)%Z then
    let side := (cx - tx)%Z in
    if (side >? 0)%Z then (md + 2)%Z
    else if (side <=? 0)%Z && negb (cy =? ty)%Z then (md + 1)%Z
    else md
  else md.

(** The square in front of the agent, as the comments of the function
    have the headings: facing north (0) a target in a row above is ahead,
    facing west (1) one in a column to the left, facing south (2) one in a
    row below, facing east (3) one in a column to the right. *)
Definition square_ahead (current : Z * Z * Z) : Z * Z * Z :=
  let '(cx, cy, h) := current in
  if (h =? 0)%Z then (cx, (cy + 1)%Z, h)
  else if (h =? 1)%Z then ((cx - 1)%Z, cy, h)
  else if (h =? 2)%Z then (cx, (cy - 1)%Z, h)
  else if (h =? 3)%Z then ((cx + 1)%Z, cy, h)
  else current.

(** A quarter turn to the left or to the right among the headings 0 to
    3. *)
Definition quarter_turn (left : bool) (current : Z * Z * Z) : Z * Z * Z :=
  let '(cx, cy, h) := current in
  (cx, cy, ((if left then h + 1 else h + 3) mod 4)%Z).

(** ** The agent's queries *)

(** [range(1, n + 1)]. *)
Definition range1 (n : Z) : list Z :=
  map Z.of_nat (seq 1 (Z.to_nat n)).

(** [[(x, y) for x in range(1, width + 1) for y in range(1, height + 1)]],
    the list [reset] gives [unvisited] and the order in which the loops of
    the agent visit the squares. *)
Definition squares (width height : Z) : list (Z * Z) :=
  flat_map (fun x => map (fun y => (x, y)) (range1 height)) (range1 width).

(** The fields of [HybridWumpusAgent] its queries read or write;
    [verbose] is [True] unless the constructor is told otherwise. *)
Record HybridWumpusAgent : Type := {
  width : Z;
  height : Z;
  time : Z;
  kb : Instance;
  unvisited : list (Z * Z);
  verbose : bool
}.

(** [wumpus_alive_query]: one question to the knowledge base, whose answer
    is only printed.  [wumpus_alive t] stands for the parsed proposition
    [logic.expr(wumpus_kb.state_wumpus_alive_str(t))]; the method prints
    only when [verbose] is set, and asks in either case. *)
Definition wumpus_alive_query (wumpus_alive : Z -> Expression)
    (self : HybridWumpusAgent) : Oracle (Result unit) :=
  oracle_bind (PropKB_SAT_ask (wumpus_alive (time self)) (kb self))
    (fun result => Return (_ <- result ;; Ok tt)).

(** The two nested loops over the squares that [find_OK_locations] and
    [find_not_unsafe_locations] share: ask the knowledge base about each
    square in turn and append the square when the test on the answer
    holds.  [query x y] stands for the parsed proposition,
    [logic.expr(wumpus_kb....(x, y, ...))].  What the loops do besides when
    [verbose] is set is output: they print, and they fill and print a
    display of the answers already obtained; they ask nothing more and do
    not touch the list returned. *)
Fixpoint ask_squares (self_kb : Instance) (query : Z -> Z -> Expression)
    (keep : Truth -> bool) (locs : list (Z * Z))
  : Oracle (Result (list (Z * Z))) :=
  match locs with
  | [] => Return (Ok [])
  | (x, y) :: rest =>
      oracle_bind (PropKB_SAT_ask (query x y) self_kb) (fun result =>
        match result with
        | Raise e => Return (Raise e)
        | Ok t =>
            oracle_bind (ask_squares self_kb query keep rest) (fun later =>
              Return (l <- later ;;
                      Ok (if keep t then (x, y) :: l else l)))
        end)
  end.

(** [find_OK_locations]: when [verbose] is set,
    [self.wumpus_alive_query()] comes first; then the loops, with the test
    [if result:]. *)
Definition find_OK_locations (wumpus_alive : Z -> Expression)
    (state_OK : Z -> Z -> Z -> Expression)
    (self : HybridWumpusAgent) : Oracle (Result (list (Z * Z))) :=
  oracle_bind
    (if verbose self then wumpus_alive_query wumpus_alive self
     else Return (Ok tt))
    (fun asked =>
       match asked with
       | Raise e => Return (Raise e)
       | Ok _ =>
           ask_squares (kb self) (fun x y => state_OK x y (time self))
                       is_true (squares (width self) (height self))
       end).

(** [find_not_unsafe_locations]: the loops only, with the test
    [if result is not False:]; it does not call [wumpus_alive_query]. *)
Definition find_not_unsafe_locations (state_OK : Z -> Z -> Z -> Expression)
    (self : HybridWumpusAgent) : Oracle (Result (list (Z * Z))) :=
  ask_squares (kb self) (fun x y => state_OK x y (time self))
              (fun t => negb (is_false t))
              (squares (width self) (height self)).

(** The answer of [PropKB_SAT.ask] a solver leads to. *)
Definition answer (solver : Probe -> Solution) (clauses : list Expression)
    (query : Expression) : Truth :=
  decision (success (solver (forced clauses query true)))
           (success (solver (forced clauses query false))).

Definition loc_eqb (a b : Z * Z) : bool :=
  (fst a =? fst b)%Z && (snd a =? snd b)%Z.

(** [list.remove((x, y))]: the first equal element goes. *)
Fixpoint remove_loc (a : Z * Z) (l : list (Z * Z)) : list (Z * Z) :=
  match l with
  | [] => []
  | b :: l' => if loc_eqb a b then l' else b :: remove_loc a l'
  end.

(** The loop of [update_unvisited_locations],
    [for (x, y) in self.unvisited: ... self.unvisited.remove((x, y))]: the
    list is changed while it is iterated over.  The iterator holds an index
    [i] into the one list object; each turn reads the element at [i], if
    there is one, and moves to [i + 1].  The list never grows, so its
    length at the start bounds the number of turns. *)
Fixpoint update_unvisited_loop (turns : nat) (self_kb : Instance)
    (query : Z -> Z -> Expression) (i : nat) (l : list (Z * Z))
  : Oracle (Result (list (Z * Z))) :=
  match turns with
  | 0 => Return (Ok l)
  | S turns' =>
      match nth_error l i with
      | None => Return (Ok l)
      | Some (x, y) =>
          oracle_bind (PropKB_SAT_ask (query x y) self_kb) (fun result =>
            match result with
            | Raise e => Return (Raise e)
            | Ok t =>
                update_unvisited_loop turns' self_kb query (S i)
                  (if is_true t then remove_loc (x, y) l else l)
            end)
      end
  end.

(** [update_unvisited_locations]: the list it leaves in [self.unvisited]
    and returns.  Its [verbose] branches print and fill a display; they
    ask nothing and leave the list alone. *)
Definition update_unvisited_locations (state_loc : Z -> Z -> Z -> Expression)
    (self : HybridWumpusAgent) : Oracle (Result (list (Z * Z))) :=
  update_unvisited_loop (List.length (unvisited self)) (kb self)
    (fun x y => state_loc x y (time self)) 0 (unvisited self).

(** What the loop amounts to on a list without repetition: the square
    after one that is removed is passed over, neither asked about nor
    removed. *)
Fixpoint visited_removed (visited : Z * Z -> bool) (l : list (Z * Z))
  : list (Z * Z) :=
  match l with
  | [] => []
  | a :: l' =>
      if visited a then
        match l' with
        | [] => []
        | b :: l'' => b :: visited_removed visited l''
        end
      else a :: visited_removed visited l'
  end.

(** ** Objects and their identity *)

(** [distribute_and_over_or] tells the arguments of a disjunction apart by
    identity ([a is not conj]), which a tree of values does not have.  An
    [Object] is an expression as Python holds it: every [Expr] object
    carries its identity, the number [id(x)] gives, and two places of a
    graph hold the same object when they hold the same identity.  [True]
    and [False] are the same two objects everywhere. *)
Inductive Object : Type :=
| OBool (b : bool)
| OExpr (id : nat) (op : string) (args : list Object).

Section Object_induction.
Variable P : Object -> Prop.
Hypothesis P_bool : forall b, P (OBool b).
Hypothesis P_expr : forall i op args, Forall P args -> P (OExpr i op args).

Fixpoint Object_nested_ind (o : Object) : P o :=
  match o with
  | OBool b => P_bool b
  | OExpr i op args =>
      P_expr i op args
        ((fix all (l : list Object) : Forall P l :=
            match l with
            | [] => Forall_nil P
            | x :: l' => Forall_cons x (Object_nested_ind x) (all l')
            end) args)
  end.

End Object_induction.

(** The value of an object: the tree below it, identities forgotten. *)
Fixpoint erase (o : Object) : Expression :=
  match o with
  | OBool b => PyBool b
  | OExpr _ op args => Expr op (map erase args)
  end.

(** [a is b]. *)
Definition is_object (a b : Object) : bool :=
  match a, b with
  | OBool x, OBool y => Bool.eqb x y
  | OExpr i _ _, OExpr j _ _ => (i =? j)%nat
  | _, _ => false
  end.

(** A call that may build objects: it is given the first identity not in
    use and returns, with its result, the first one not in use
    afterwards. *)
Definition Build (A : Type) : Type := nat -> Result (A * nat).

Definition build_ret {A : Type} (a : A) : Build A := fun n => Ok (a, n).

Definition build_raise {A : Type} (e : PyError) : Build A :=
  fun _ => Raise e.

Definition build_lift {A : Type} (r : Result A) : Build A :=
  fun n => match r with
           | Ok a => Ok (a, n)
           | Raise e => Raise e
           end.

Definition build_bind {A B : Type} (c : Build A) (f : A -> Build B)
  : Build B :=
  fun n => match c n with
           | Ok (a, n') => f a n'
           | Raise e => Raise e
           end.

Notation "x <~ c ;; k" := (build_bind c (fun x => k))
  (at level 61, c at next level, right associativity).

(** [Expr(op, *args)]: a new object, with an identity of its own. *)
Definition new_Expr (op : string) (args : list Object) : Build Object :=
  fun n => Ok (OExpr n op args, S n).

(** [[f(x) for x in l]] for an [f] that may build objects and may raise:
    left to right. *)
Fixpoint build_map {A B : Type} (f : A -> Build B) (l : list A)
  : Build (list B) :=
  match l with
  | [] => build_ret []
  | x :: l' => y <~ f x ;; ys <~ build_map f l' ;; build_ret (y :: ys)
  end.

(** [dissociate] on objects: it builds a list, no [Expr]; the pieces are
    objects of the graph it was given. *)
Fixpoint collect_obj (op : string) (arg : Object) : Result (list Object) :=
  match arg with
  | OBool _ => Raise AttributeError
  | OExpr _ o subargs =>
      if o =? op then
        ls <- sequence (map (collect_obj op) subargs) ;; Ok (List.concat ls)
      else Ok [arg]
  end.

Definition dissociate_obj (op : string) (args : list Object)
  : Result (list Object) :=
  ls <- sequence (map (collect_obj op) args) ;; Ok (List.concat ls).

Definition _op_identity_obj (o : AssocOp) : Object :=
  match o with
  | AND => OBool true
  | OR => OBool false
  end.

(** [associate] on objects: only [Expr(op, *args)] builds one. *)
Definition associate_obj (o : AssocOp) (args : list Object) : Build Object :=
  args' <~ build_lift (dissociate_obj (op_name o) args) ;;
  match args' with
  | [] => build_ret (_op_identity_obj o)
  | [x] => build_ret x
  | _ => new_Expr (op_name o) args'
  end.

Definition has_op_obj (op : string) (x : Object) : bool :=
  match x with
  | OBool _ => false
  | OExpr _ o _ => o =? op
  end.

Definition get_args_obj (x : Object) : Result (list Object) :=
  match x with
  | OBool _ => Raise AttributeError
  | OExpr _ _ args => Ok args
  end.

(** [first(arg for arg in s.args if arg.op == '&')]. *)
Definition first_conj_obj (args : list Object) : option Object :=
  find (has_op_obj "&") args.

(** [[a for a in s.args if a is not conj]]: every argument that is the
    object [conj] goes, at whatever place. *)
Definition others_than (conj_ : Object) (args : list Object) : list Object :=
  filter (fun a => negb (is_object a conj_)) args.

(** [distribute_and_over_or(s)] on objects, line by line as [distribute];
    [c | rest] builds an [Expr]. *)
Fixpoint distribute_obj (fuel : nat) (s : Object) : Build Object :=
  match fuel with
  | 0 => build_raise RecursionError
  | S fuel' =>
      match s with
      | OBool _ => build_raise AttributeError
      | OExpr _ op sargs =>
          if op =? "|" then
            s1 <~ associate_obj OR sargs ;;
            match s1 with
            | OBool _ => build_raise AttributeError
            | OExpr _ op1 args1 =>
                if negb (op1 =? "|") then distribute_obj fuel' s1
                else
                  match args1 with
                  | [] => build_ret (OBool false)
                  | [a] => distribute_obj fuel' a
                  | _ =>
                      match first_conj_obj args1 with
                      | None => build_ret s1
                      | Some conj_ =>
                          rest <~ associate_obj OR (others_than conj_ args1) ;;
                          cargs <~ build_lift (get_args_obj conj_) ;;
                          ds <~ build_map
                                  (fun c => s' <~ new_Expr "|" [c; rest] ;;
                                            distribute_obj fuel' s')
                                  cargs ;;
                          associate_obj AND ds
                      end
                  end
            end
          else if op =? "&" then
            ds <~ build_map (distribute_obj fuel') sargs ;;
            associate_obj AND ds
          else build_ret s
      end
  end.

(** The bound is that of the tree below the object
    ([distribute_obj_fuel_suffices]). *)
Definition distribute_and_over_or_obj (s : Object) : Build Object :=
  distribute_obj (weight (erase s)) s.

(** What a call returned, identities forgotten. *)
Definition erased (r : Result (Object * nat)) : Result Expression :=
  match r with
  | Ok (o, _) => Ok (erase o)
  | Raise e => Raise e
  end.

Definition erased_list (r : Result (list Object * nat))
  : Result (list Expression) :=
  match r with
  | Ok (l, _) => Ok (map erase l)
  | Raise e => Raise e
  end.

(** The identities of the conjunctions of a graph, place by place, and
    those of the objects that are neither conjunctions nor
    disjunctions. *)
Fixpoint conj_ids (o : Object) : list nat :=
  match o with
  | OBool _ => []
  | OExpr i op args =>
      (if op =? "&" then [i] else []) ++ flat_map conj_ids args
  end.

Fixpoint other_ids (o : Object) : list nat :=
  match o with
  | OBool _ => []
  | OExpr i op args =>
      (if (op =? "&") || (op =? "|") then [] else [i])
      ++ flat_map other_ids args
  end.

(** No conjunction object occurs at two places of the graph: the
    identities of its conjunctions, place by place, are all different, and
    none of them is the identity of an object that is not a conjunction,
    as in every graph, where one identity is one object. *)
Definition conjunctions_apart (s : Object) : Prop :=
  NoDup (conj_ids s) /\
  forall i, In i (conj_ids s) -> ~ In i (other_ids s).

(** * Properties *)

(** ** The examples of the docstrings *)

Example pl_true_P_or_Q :
  pl_true (Or (sym "P") (sym "Q")) [(sym "P", true)] = Ok (Some true).
Proof. reflexivity. Qed.

Example pl_true_P_empty : pl_true (sym "P") [] = Ok None.
Proof. reflexivity. Qed.

Example to_cnf_docstring :
  to_cnf (Not (Or B C)) = Ok (And (Not B) (Not C)).
Proof. reflexivity. Qed.

Example distribute_docstring :
  distribute_and_over_or (Or (And A B) C) = Ok (And (Or A C) (Or B C)).
Proof. reflexivity. Qed.

Example associate_docstring :
  associate AND [And A B; Or B C; And B C]
  = Ok (Expr "&" [A; B; Or B C; B; C]).
Proof. reflexivity. Qed.

Example tt_entails_docstring : tt_entails (And P Q) Q = Ok true.
Proof. reflexivity. Qed.

Example tt_entails_P_or_Q : tt_entails (Or P Q) Q = Ok false.
Proof. reflexivity. Qed.

(** ** Structural equality *)

Lemma expr_eqb_refl : forall a, expr_eqb a a = true.
Proof.
  induction a as [b | op args IH] using Expression_nested_ind; simpl.
  - apply Bool.eqb_reflx.
  - rewrite String.eqb_refl. simpl.
    induction IH as [| x l Hx _ IHl]; [reflexivity |].
    now rewrite Hx, IHl.
Qed.

Lemma expr_eqb_eq : forall a b, expr_eqb a b = true <-> a = b.
Proof.
  intros a b. split; [| intros ->; apply expr_eqb_refl].
  revert b.
  induction a as [x | op args IH] using Expression_nested_ind;
    intros [y | op' args']; simpl; try discriminate.
  - intros H. apply Bool.eqb_prop in H. now subst.
  - intros H. apply andb_true_iff in H as [Hop Hargs].
    apply String.eqb_eq in Hop. subst op'. f_equal.
    revert args' Hargs.
    induction IH as [| x l Hx _ IHl]; intros [| y l']; try discriminate.
    + reflexivity.
    + intros H. apply andb_true_iff in H as [H1 H2].
      f_equal; [now apply Hx | now apply IHl].
Qed.

Lemma expr_eqb_neq : forall a b, expr_eqb a b = false <-> a <> b.
Proof.
  intros a b. split.
  - intros H E. apply expr_eqb_eq in E. congruence.
  - intros H. destruct (expr_eqb a b) eqn:E; [| reflexivity].
    apply expr_eqb_eq in E. contradiction.
Qed.

Lemma mem_In : forall x l, mem x l = true <-> In x l.
Proof.
  intros x l. induction l as [| y l IH]; simpl.
  - split; [discriminate | tauto].
  - rewrite orb_true_iff, IH, expr_eqb_eq. split; intros [H | H]; auto.
Qed.

Lemma dedup_In : forall x l, In x (dedup l) <-> In x l.
Proof.
  intros x l. induction l as [| y l IH]; simpl; [tauto |].
  destruct (mem y l) eqn:E.
  - rewrite IH. apply mem_In in E. split; [auto | intros [<- | H]; auto].
  - simpl. now rewrite IH.
Qed.

Lemma dedup_NoDup : forall l, NoDup (dedup l).
Proof.
  induction l as [| y l IH]; simpl; [constructor |].
  destruct (mem y l) eqn:E; [assumption |].
  constructor; [| assumption].
  rewrite dedup_In, <- mem_In. congruence.
Qed.

(** ** Calls that do not raise *)

Lemma sequence_Ok :
  forall (A B : Type) (f : A -> Result B) (R : A -> B -> Prop) (l : list A),
    Forall (fun x => exists y, f x = Ok y /\ R x y) l ->
    exists l', sequence (map f l) = Ok l' /\ Forall2 R l l'.
Proof.
  intros A0 B0 f R l H. induction H as [| x l [y [Hy HR]] _ [l' [Hl' HF]]].
  - exists []. split; [reflexivity | constructor].
  - exists (y :: l'). simpl. rewrite Hy. simpl. rewrite Hl'. simpl.
    split; [reflexivity | now constructor].
Qed.

Lemma sequence_Ok_map :
  forall (A B : Type) (f : A -> Result B) (g : A -> B) (l : list A),
    Forall (fun x => f x = Ok (g x)) l ->
    sequence (map f l) = Ok (map g l).
Proof.
  intros A0 B0 f g l H. induction H as [| x l Hx _ IH]; simpl.
  - reflexivity.
  - now rewrite Hx, IH.
Qed.


(** ** The evaluator *)

Lemma or_loop_values : forall ts result,
  is_true result = false ->
  or_loop result (map Ok ts)
  = Ok (if existsb is_true ts then Some true
        else if is_unknown result || existsb is_unknown ts then None
        else Some false).
Proof.
  induction ts as [| t ts IH]; intros result Hr; simpl.
  - destruct result as [[|] |]; simpl in *; try discriminate; reflexivity.
  - destruct t as [[|] |]; simpl.
    + reflexivity.
    + now rewrite (IH result Hr).
    + rewrite (IH None eq_refl). simpl. now rewrite orb_true_r.
Qed.

Lemma and_loop_values : forall ts result,
  is_false result = false ->
  and_loop result (map Ok ts)
  = Ok (if existsb is_false ts then Some false
        else if is_unknown result || existsb is_unknown ts then None
        else Some true).
Proof.
  induction ts as [| t ts IH]; intros result Hr; simpl.
  - destruct result as [[|] |]; simpl in *; try discriminate; reflexivity.
  - destruct t as [[|] |]; simpl.
    + now rewrite (IH result Hr).
    + reflexivity.
    + rewrite (IH None eq_refl). simpl. now rewrite orb_true_r.
Qed.

Lemma or_loop_short_circuit : forall pre post result,
  or_loop result (map Ok pre ++ Ok (Some true) :: post) = Ok (Some true).
Proof.
  induction pre as [| t pre IH]; intros post result; simpl.
  - reflexivity.
  - destruct t as [[|] |]; simpl; auto.
Qed.

Lemma and_loop_short_circuit : forall pre post result,
  and_loop result (map Ok pre ++ Ok (Some false) :: post) = Ok (Some false).
Proof.
  induction pre as [| t pre IH]; intros post result; simpl.
  - reflexivity.
  - destruct t as [[|] |]; simpl; auto.
Qed.

Lemma pl_true_or : forall args model,
  pl_true (Expr "|" args) model
  = or_loop (Some false) (map (fun arg => pl_true arg model) args).
Proof. reflexivity. Qed.

Lemma pl_true_and : forall args model,
  pl_true (Expr "&" args) model
  = and_loop (Some true) (map (fun arg => pl_true arg model) args).
Proof. reflexivity. Qed.

(** The two implications are evaluated as the disjunctions the source
    builds for them. *)
Lemma pl_true_forward_implication : forall op' pargs q model,
  pl_true (Expr ">>" [Expr op' pargs; q]) model
  = pl_true (Or (Not (Expr op' pargs)) q) model /\
  pl_true (Expr "==>" [Expr op' pargs; q]) model
  = pl_true (Or (Not (Expr op' pargs)) q) model.
Proof. intros. split; reflexivity. Qed.

Lemma pl_true_backward_implication : forall p op' qargs model,
  pl_true (Expr "<<" [p; Expr op' qargs]) model
  = pl_true (Or p (Not (Expr op' qargs))) model /\
  pl_true (Expr "<==" [p; Expr op' qargs]) model
  = pl_true (Or p (Not (Expr op' qargs))) model.
Proof. intros. split; reflexivity. Qed.

(** C6: an n-ary disjunction is true as soon as an argument is true, also
    among unknown ones (and whatever the arguments after it would do),
    unknown when none is true and one is unknown, and false otherwise; an
    n-ary conjunction is false as soon as an argument is false, unknown when
    none is false and one is unknown, and true otherwise.  In particular
    [pl_true(P | Q, {P: True})] is [True] and [pl_true(P, {})] is [None]. *)
Theorem pl_true_three_valued_dominance :
  forall (args : list Expression) (model : Model) (ts : list Truth),
    map (fun arg => pl_true arg model) args = map Ok ts ->
    pl_true (Expr "|" args) model
    = Ok (if existsb is_true ts then Some true
          else if existsb is_unknown ts then None
          else Some false) /\
    pl_true (Expr "&" args) model
    = Ok (if existsb is_false ts then Some false
          else if existsb is_unknown ts then None
          else Some true) /\
    (existsb is_true ts = true ->
     forall later, pl_true (Expr "|" (args ++ later)) model = Ok (Some true)) /\
    (existsb is_false ts = true ->
     forall later, pl_true (Expr "&" (args ++ later)) model = Ok (Some false)) /\
    pl_true (Or P Q) [(P, true)] = Ok (Some true) /\
    pl_true P [] = Ok None.
Proof.
  intros args model ts H.
  split; [| split; [| split; [| split; [| split]]]].
  - rewrite pl_true_or, H. now rewrite or_loop_values.
  - rewrite pl_true_and, H. now rewrite and_loop_values.
  - intros E later.
    rewrite pl_true_or, map_app, H.
    apply existsb_exists in E as [t [Hin Ht]].
    destruct t as [[|] |]; try discriminate.
    apply in_split in Hin as [l1 [l2 ->]].
    rewrite map_app. simpl. rewrite <- app_assoc. simpl.
    apply or_loop_short_circuit.
  - intros E later.
    rewrite pl_true_and, map_app, H.
    apply existsb_exists in E as [t [Hin Ht]].
    destruct t as [[|] |]; try discriminate.
    apply in_split in Hin as [l1 [l2 ->]].
    rewrite map_app. simpl. rewrite <- app_assoc. simpl.
    apply and_loop_short_circuit.
  - reflexivity.
  - reflexivity.
Qed.

Lemma pl_true_three_valued_dominance_witness :
  map (fun arg => pl_true arg [(P, true)]) [Q; P; Q]
  = map Ok [None; Some true; None] /\
  pl_true (Expr "|" [Q; P; Q]) [(P, true)] = Ok (Some true).
Proof.
  split; [reflexivity |].
  apply (pl_true_three_valued_dominance [Q; P; Q] [(P, true)]
           [None; Some true; None] eq_refl).
Defined.

(** ** The evaluator on total models *)

Lemma total_on_arg : forall m op args a,
  is_prop_symbol op = false ->
  total_on m (Expr op args) -> In a args -> total_on m a.
Proof.
  intros m op args a Hop H Hin x Hx. apply H. simpl. rewrite Hop.
  apply in_flat_map. now exists a.
Qed.

Lemma existsb_is_true_Some : forall (A : Type) (f : A -> bool) l,
  existsb is_true (map (fun a => Some (f a)) l) = existsb f l.
Proof.
  intros A0 f l. induction l as [| a l IH]; simpl; [reflexivity |].
  rewrite IH. now destruct (f a).
Qed.

Lemma existsb_is_false_Some : forall (A : Type) (f : A -> bool) l,
  existsb is_false (map (fun a => Some (f a)) l) = negb (forallb f l).
Proof.
  intros A0 f l. induction l as [| a l IH]; simpl; [reflexivity |].
  rewrite IH. now destruct (f a).
Qed.

Lemma existsb_is_unknown_Some : forall (A : Type) (f : A -> bool) l,
  existsb is_unknown (map (fun a => Some (f a)) l) = false.
Proof.
  intros A0 f l. induction l as [| a l IH]; simpl; [reflexivity | exact IH].
Qed.

Lemma map_pl_true_classical : forall m args,
  Forall (fun a => pl_true a m = Ok (Some (truth_value (valuation m) a))) args ->
  map (fun a => pl_true a m) args
  = map Ok (map (fun a => Some (truth_value (valuation m) a)) args).
Proof.
  intros m args H. induction H as [| a l Ha _ IH]; simpl; [reflexivity |].
  now rewrite Ha, IH.
Qed.

(** On a sentence all of whose proposition symbols the model binds,
    [pl_true] returns the classical truth value. *)
Lemma pl_true_classical : forall s m,
  sentence s = true -> total_on m s ->
  pl_true s m = Ok (Some (truth_value (valuation m) s)).
Proof.
  induction s as [b | op args IH] using Expression_nested_ind;
    intros m Hs Ht; [reflexivity |].
  assert (Hargs : is_prop_symbol op = false ->
                  forallb sentence args = true ->
                  Forall (fun a => pl_true a m
                                   = Ok (Some (truth_value (valuation m) a))) args).
  { intros Hop Hall. rewrite Forall_forall in *. intros a Ha.
    apply IH; [assumption | |].
    - rewrite forallb_forall in Hall. now apply Hall.
    - now apply (total_on_arg m op args). }
  simpl in Hs |- *.
  destruct (is_prop_symbol op) eqn:Hop.
  { unfold valuation.
    destruct (model_get m (Expr op args)) eqn:E; [reflexivity |].
    exfalso. apply (Ht (Expr op args)); [| exact E].
    simpl. rewrite Hop. now left. }
  specialize (Hargs eq_refl).
  destruct (op =? "~") eqn:Hnot.
  { destruct args as [| a [| ? ?]]; try discriminate.
    simpl in Hargs. rewrite Hs in Hargs. specialize (Hargs eq_refl).
    inversion Hargs as [| ? ? Ha _]; subst. now rewrite Ha. }
  destruct (op =? "|") eqn:Hor.
  { simpl in Hs. specialize (Hargs Hs).
    rewrite (map_pl_true_classical _ _ Hargs), or_loop_values by reflexivity.
    rewrite existsb_is_true_Some, existsb_is_unknown_Some. simpl.
    now destruct (existsb (truth_value (valuation m)) args). }
  destruct (op =? "&") eqn:Hand.
  { simpl in Hs. specialize (Hargs Hs).
    rewrite (map_pl_true_classical _ _ Hargs), and_loop_values by reflexivity.
    rewrite existsb_is_false_Some, existsb_is_unknown_Some. simpl.
    now destruct (forallb (truth_value (valuation m)) args). }
  simpl in Hs.
  destruct args as [| p [| q [| ? ?]]]; try discriminate.
  apply andb_true_iff in Hs as [Hpq Hop'].
  assert (Hall : forallb sentence [p; q] = true)
    by (simpl; apply andb_true_iff in Hpq as [-> ->]; reflexivity).
  specialize (Hargs Hall).
  inversion Hargs as [| ? ? Hp Hq']; subst.
  inversion Hq' as [| ? ? Hq _]; subst.
  fold (is_implication op) in *. fold (is_reverse_implication op) in *.
  rewrite Hp, Hq.
  set (tp := truth_value (valuation m) p).
  set (tq := truth_value (valuation m) q).
  clearbody tp tq.
  destruct (is_implication op).
  { destruct p; [discriminate |]. simpl. now destruct tp, tq. }
  destruct (is_reverse_implication op).
  { destruct q; [discriminate |]. simpl. now destruct tp, tq. }
  simpl.
  destruct (op =? "<=>"); [reflexivity |].
  destruct (op =? "^"); [reflexivity | discriminate].
Qed.

(** The truth value depends on the valuation of the proposition symbols of
    the sentence only. *)
Lemma truth_value_ext : forall v w s,
  (forall x, In x (prop_symbols s) -> v x = w x) ->
  truth_value v s = truth_value w s.
Proof.
  intros v w.
  induction s as [b | op args IH] using Expression_nested_ind;
    intros H; [reflexivity |].
  simpl in H |- *.
  destruct (is_prop_symbol op) eqn:Hop; [apply H; now left |].
  assert (Hargs : Forall (fun a => truth_value v a = truth_value w a) args).
  { rewrite Forall_forall in *. intros a Ha. apply IH; [assumption |].
    intros x Hx. apply H. apply in_flat_map. now exists a. }
  assert (Hex : existsb (truth_value v) args = existsb (truth_value w) args).
  { clear - Hargs. induction Hargs as [| a l Ha _ IHl]; simpl; congruence. }
  assert (Hfa : forallb (truth_value v) args = forallb (truth_value w) args).
  { clear - Hargs. induction Hargs as [| a l Ha _ IHl]; simpl; congruence. }
  rewrite Hex, Hfa.
  destruct args as [| p args']; [reflexivity |].
  inversion Hargs as [| ? ? Hp Hrest]; subst. rewrite Hp.
  destruct args' as [| q args'']; [reflexivity |].
  inversion Hrest as [| ? ? Hq _]; subst. now rewrite Hq.
Qed.

(** ** Operators and symbols *)

Lemma is_prop_symbol_is_symbol : forall op,
  is_prop_symbol op = true -> is_symbol op = true.
Proof. intros op H. now apply andb_true_iff in H as [H _]. Qed.

Lemma is_prop_symbol_not_connective : forall op,
  is_prop_symbol op = true ->
  (op =? "~") = false /\ (op =? "|") = false /\ (op =? "&") = false.
Proof.
  intros op H. repeat split.
  - destruct (String.eqb_spec op "~"); [subst; discriminate | reflexivity].
  - destruct (String.eqb_spec op "|"); [subst; discriminate | reflexivity].
  - destruct (String.eqb_spec op "&"); [subst; discriminate | reflexivity].
Qed.

Lemma connective_not_symbol : forall op,
  (op =? "~") || (op =? "|") || (op =? "&") || is_implication op
  || is_reverse_implication op || (op =? "<=>") || (op =? "^") = true ->
  is_symbol op = false.
Proof.
  intros op H. unfold is_implication, is_reverse_implication in H.
  repeat (apply orb_true_iff in H as [H | H]);
    apply String.eqb_eq in H; subst; reflexivity.
Qed.

(** ** Lists related element by element *)

Lemma Forall2_existsb : forall (f g : Expression -> bool) l l',
  Forall2 (fun x y => f y = g x) l l' -> existsb f l' = existsb g l.
Proof. intros f g l l' H. induction H; simpl; congruence. Qed.

Lemma Forall2_forallb : forall (f g : Expression -> bool) l l',
  Forall2 (fun x y => f y = g x) l l' -> forallb f l' = forallb g l.
Proof. intros f g l l' H. induction H; simpl; congruence. Qed.

Lemma Forall2_all : forall (f : Expression -> bool) (l l' : list Expression),
  Forall2 (fun _ y => f y = true) l l' -> forallb f l' = true.
Proof. intros f l l' H. induction H; simpl; [reflexivity |]. now rewrite H. Qed.

Lemma Forall2_symbols : forall l l',
  Forall2 (fun x y => incl (prop_symbols y) (prop_symbols x)) l l' ->
  incl (flat_map prop_symbols l') (flat_map prop_symbols l).
Proof.
  intros l l' H. induction H; simpl; [apply incl_refl |].
  now apply incl_app_app.
Qed.

Lemma Forall2_weaken : forall (A B : Type) (R S : A -> B -> Prop) l l',
  (forall x y, R x y -> S x y) -> Forall2 R l l' -> Forall2 S l l'.
Proof. intros A0 B0 R S l l' H HF. induction HF; constructor; auto. Qed.

Lemma Forall2_nonempty : forall (A B : Type) (R : A -> B -> Prop) l l',
  Forall2 R l l' -> is_empty l' = is_empty l.
Proof. intros A0 B0 R l l' H. now destruct H. Qed.

Lemma preserves_refl : forall s, preserves s s.
Proof. intros s. split; [reflexivity | apply incl_refl]. Qed.

Lemma preserves_trans : forall a b c,
  preserves a b -> preserves b c -> preserves a c.
Proof.
  intros a b c [H1 I1] [H2 I2]. split.
  - intros v. now rewrite H2, H1.
  - eapply incl_tran; eassumption.
Qed.

(** The arguments of a rebuilt [&] or [|] node. *)
Lemma preserves_node : forall op l l',
  is_prop_symbol op = false ->
  Forall2 (fun x y => preserves x y) l l' ->
  preserves (Expr op l) (Expr op l').
Proof.
  intros op l l' Hop H.
  assert (Hv : forall v, Forall2 (fun x y => truth_value v y = truth_value v x) l l').
  { intros v. eapply Forall2_weaken; [| exact H]. intros x y [Hxy _]. apply Hxy. }
  split.
  - intros v. simpl. rewrite Hop.
    rewrite (Forall2_existsb _ _ _ _ (Hv v)), (Forall2_forallb _ _ _ _ (Hv v)).
    specialize (Hv v).
    destruct Hv as [| x y l0 l0' Hxy Hrest]; [reflexivity |].
    rewrite Hxy.
    destruct Hrest as [| x2 y2 l1 l1' Hxy2 Hrest2]; [reflexivity |].
    rewrite Hxy2.
    destruct Hrest2; reflexivity.
  - simpl. rewrite Hop. apply Forall2_symbols.
    eapply Forall2_weaken; [| exact H]. intros x y [_ Hxy]. exact Hxy.
Qed.

(** ** Stage 1: [eliminate_implications] *)

Ltac op_is H :=
  apply String.eqb_eq in H; subst.

Ltac solve_symbols :=
  unfold incl in *; simpl in *; intros;
  repeat (rewrite ?in_app_iff in *; simpl in * );
  intuition auto.

Lemma eliminate_implications_proper : forall s,
  proper s = true ->
  exists s', eliminate_implications s = Ok s' /\ basic s' = true /\
             preserves s s'.
Proof.
  induction s as [b | op args IH] using Expression_nested_ind;
    intros Hs; [discriminate |].
  simpl in Hs.
  destruct (is_prop_symbol op) eqn:Hop.
  { exists (Expr op args). destruct args; [| discriminate]. simpl.
    split; [reflexivity |]. split; [now rewrite Hop | apply preserves_refl]. }
  assert (Hargs : forallb proper args = true ->
            exists l', sequence (map eliminate_implications args) = Ok l' /\
              Forall2 (fun x y => basic y = true /\ preserves x y) args l').
  { intros Hall. apply sequence_Ok. rewrite Forall_forall in *.
    intros a Ha. apply IH; [assumption |].
    rewrite forallb_forall in Hall. now apply Hall. }
  destruct (op =? "~") eqn:Hnot.
  { op_is Hnot. destruct args as [| a [| ? ?]]; try discriminate.
    destruct Hargs as [l' [Hl' HF]]; [simpl; now rewrite Hs |].
    inversion HF as [| ? a' ? ? [Hb Hp] HF']; subst. inversion HF'; subst.
    exists (Expr "~" [a']). simpl in Hl' |- *.
    destruct (eliminate_implications a); [| discriminate].
    simpl in Hl'. injection Hl' as ->. simpl.
    split; [reflexivity |]. split; [assumption |].
    apply preserves_node; [reflexivity |]. repeat constructor; apply Hp. }
  destruct ((op =? "|") || (op =? "&")) eqn:Hjunct.
  { apply andb_true_iff in Hs as [Hne Hall].
    destruct Hargs as [l' [Hl' HF]]; [assumption |].
    exists (Expr op l').
    assert (Hsym : is_symbol op = false).
    { apply connective_not_symbol.
      apply orb_true_iff in Hjunct as [-> | ->]; now rewrite ?orb_true_r. }
    assert (Hne' : is_empty l' = false).
    { rewrite (Forall2_nonempty _ _ _ _ _ HF). now destruct (is_empty args). }
    simpl. rewrite Hsym.
    destruct (is_empty args); [discriminate |]. simpl.
    rewrite Hl'. simpl.
    destruct l' as [| p l'']; [discriminate |].
    split.
    { apply orb_true_iff in Hjunct as [H | H]; op_is H; reflexivity. }
    split.
    { simpl. rewrite Hop, Hnot, Hjunct. simpl.
      change (forallb basic (p :: l'') = true).
      apply (Forall2_all basic args).
      eapply Forall2_weaken; [| exact HF]. now intros x y [H _]. }
    apply preserves_node; [assumption |].
    eapply Forall2_weaken; [| exact HF]. now intros x y [_ H]. }
  destruct args as [| p [| q [| ? ?]]]; try discriminate.
  apply andb_true_iff in Hs as [Hpq Hbin].
  destruct Hargs as [l' [Hl' HF]];
    [simpl; apply andb_true_iff in Hpq as [-> ->]; reflexivity |].
  inversion HF as [| ? p' ? ? [Hbp [Hvp Hsp]] HF']; subst.
  inversion HF' as [| ? q' ? ? [Hbq [Hvq Hsq]] HF'']; subst.
  inversion HF''; subst.
  assert (Hsym : is_symbol op = false).
  { apply connective_not_symbol. clear - Hbin.
    unfold is_implication, is_reverse_implication in *.
    repeat (apply orb_true_iff in Hbin as [Hbin | Hbin]);
      rewrite Hbin, ?orb_true_r; reflexivity. }
  cbn [eliminate_implications is_empty orb]. rewrite Hsym.
  rewrite Hl'. cbn [bind last List.length Nat.eqb].
  fold (is_implication op). fold (is_reverse_implication op).
  unfold preserves.
  destruct (is_implication op) eqn:H1.
  { eexists. split; [reflexivity |]. split; [simpl; now rewrite Hbp, Hbq |].
    split.
    - intros v. specialize (Hvp v). specialize (Hvq v).
      cbn [truth_value]. rewrite Hop, Hnot.
      apply orb_false_iff in Hjunct as [-> ->]. rewrite H1.
      simpl. rewrite Hvp, Hvq.
      now destruct (truth_value v p), (truth_value v q).
    - simpl. rewrite Hop. solve_symbols. }
  destruct (is_reverse_implication op) eqn:H2.
  { eexists. split; [reflexivity |]. split; [simpl; now rewrite Hbp, Hbq |].
    split.
    - intros v. specialize (Hvp v). specialize (Hvq v).
      cbn [truth_value]. rewrite Hop, Hnot.
      apply orb_false_iff in Hjunct as [-> ->]. rewrite H1, H2.
      simpl. rewrite Hvp, Hvq.
      now destruct (truth_value v p), (truth_value v q).
    - simpl. rewrite Hop. solve_symbols. }
  destruct (op =? "<=>") eqn:H3.
  { eexists. split; [reflexivity |]. split; [simpl; now rewrite Hbp, Hbq |].
    split.
    - intros v. specialize (Hvp v). specialize (Hvq v).
      cbn [truth_value]. rewrite Hop, Hnot.
      apply orb_false_iff in Hjunct as [-> ->]. rewrite H1, H2, H3.
      simpl. rewrite Hvp, Hvq.
      now destruct (truth_value v p), (truth_value v q).
    - simpl. rewrite Hop. solve_symbols. }
  simpl in Hbin. destruct (op =? "^") eqn:H4; [| discriminate].
  eexists. split; [reflexivity |]. split; [simpl; now rewrite Hbp, Hbq |].
  split.
  - intros v. specialize (Hvp v). specialize (Hvq v).
    cbn [truth_value]. rewrite Hop, Hnot.
    apply orb_false_iff in Hjunct as [-> ->]. rewrite H1, H2, H3, H4.
    simpl. rewrite Hvp, Hvq.
    now destruct (truth_value v p), (truth_value v q).
  - simpl. rewrite Hop. solve_symbols.
Qed.

(** ** The associator on sentences in negation normal form *)

Lemma is_literal_inv : forall s,
  is_literal s = true ->
  exists x, is_prop_symbol x = true /\
            (s = Expr x [] \/ s = Expr "~" [Expr x []]).
Proof.
  intros [b | op args] H; [discriminate |].
  unfold is_literal in H. apply orb_true_iff in H as [H | H].
  - destruct args; [| discriminate]. exists op. split; [exact H | now left].
  - destruct args as [| a [| ? ?]]; try discriminate.
    apply andb_true_iff in H as [H1 H2]. op_is H1.
    destruct a as [| x [| ? ?]]; try discriminate.
    exists x. split; [exact H2 | now right].
Qed.

Lemma is_literal_has_op : forall o s,
  is_literal s = true -> has_op (op_name o) s = false.
Proof.
  intros o s H. apply is_literal_inv in H as [x [Hx [-> | ->]]].
  - apply is_prop_symbol_not_connective in Hx as [_ [H1 H2]].
    destruct o; assumption.
  - now destruct o.
Qed.

Lemma nnf_inv : forall op args,
  nnf (Expr op args) = true ->
  is_literal (Expr op args) = true \/
  (((op =? "|") || (op =? "&")) = true /\ is_empty args = false /\
   forallb nnf args = true).
Proof.
  intros op args H. simpl in H.
  apply orb_true_iff in H as [H | H]; [now left | right].
  apply andb_true_iff in H as [H H3]. apply andb_true_iff in H as [H1 H2].
  repeat split; try assumption. now destruct (is_empty args).
Qed.

Lemma nnf_literal : forall s, is_literal s = true -> nnf s = true.
Proof.
  intros [b | op args] H; [discriminate |].
  cbn [nnf]. now rewrite H.
Qed.

Lemma nnf_node : forall o l,
  is_empty l = false -> forallb nnf l = true ->
  nnf (Expr (op_name o) l) = true.
Proof.
  intros o l Hne Hall. cbn [nnf]. rewrite Hne, Hall.
  destruct o; simpl; now rewrite orb_true_r.
Qed.

Lemma nnf_junction_args : forall o args,
  nnf (Expr (op_name o) args) = true ->
  is_empty args = false /\ forallb nnf args = true.
Proof.
  intros o args H. apply nnf_inv in H as [H | [_ H]]; [| exact H].
  apply (is_literal_has_op o) in H. simpl in H.
  now rewrite String.eqb_refl in H.
Qed.

Lemma flat_map_concat : forall (A B : Type) (f : A -> list B) l,
  List.concat (map f l) = flat_map f l.
Proof.
  intros A0 B0 f l. induction l; simpl; [reflexivity | now f_equal].
Qed.

Lemma collect_arg_flatten : forall o x,
  nnf x = true -> collect_arg (op_name o) x = Ok (flatten (op_name o) x).
Proof.
  intros o.
  induction x as [b | op args IH] using Expression_nested_ind;
    intros H; [discriminate |].
  simpl. destruct (op =? op_name o) eqn:E; [| reflexivity].
  op_is E. apply nnf_junction_args in H as [_ Hall].
  rewrite (sequence_Ok_map _ _ _ (flatten (op_name o))).
  - simpl. now rewrite flat_map_concat.
  - rewrite Forall_forall in *. intros a Ha. apply IH; [assumption |].
    rewrite forallb_forall in Hall. now apply Hall.
Qed.

Lemma dissociate_flatten : forall o l,
  forallb nnf l = true ->
  dissociate (op_name o) l = Ok (flat_map (flatten (op_name o)) l).
Proof.
  intros o l H. unfold dissociate.
  rewrite (sequence_Ok_map _ _ _ (flatten (op_name o))).
  - simpl. now rewrite flat_map_concat.
  - rewrite Forall_forall. intros a Ha. apply collect_arg_flatten.
    rewrite forallb_forall in H. now apply H.
Qed.

Lemma forallb_flat_map : forall (A B : Type) (f : B -> bool) (g : A -> list B) l,
  forallb f (flat_map g l) = forallb (fun x => forallb f (g x)) l.
Proof.
  intros A0 B0 f g l. induction l; simpl; [reflexivity |].
  now rewrite forallb_app, IHl.
Qed.

Lemma existsb_flat_map : forall (A B : Type) (f : B -> bool) (g : A -> list B) l,
  existsb f (flat_map g l) = existsb (fun x => existsb f (g x)) l.
Proof.
  intros A0 B0 f g l. induction l; simpl; [reflexivity |].
  now rewrite existsb_app, IHl.
Qed.

Lemma forallb_pointwise : forall (A : Type) (f g : A -> bool) l,
  Forall (fun x => f x = g x) l -> forallb f l = forallb g l.
Proof. intros A0 f g l H. induction H; simpl; congruence. Qed.

Lemma existsb_pointwise : forall (A : Type) (f g : A -> bool) l,
  Forall (fun x => f x = g x) l -> existsb f l = existsb g l.
Proof. intros A0 f g l H. induction H; simpl; congruence. Qed.

Lemma flat_map_pointwise : forall (A B : Type) (f g : A -> list B) l,
  Forall (fun x => f x = g x) l -> flat_map f l = flat_map g l.
Proof. intros A0 B0 f g l H. induction H; simpl; congruence. Qed.


(** The pieces of a flattened sentence are in negation normal form and none
    of them has the flattened operator. *)
Lemma flatten_pieces : forall o x,
  nnf x = true ->
  forallb (fun y => nnf y && negb (has_op (op_name o) y))
          (flatten (op_name o) x) = true.
Proof.
  intros o.
  induction x as [b | op args IH] using Expression_nested_ind;
    intros H; [discriminate |].
  cbn [flatten]. destruct (op =? op_name o) eqn:E.
  - op_is E. apply nnf_junction_args in H as [_ Hall].
    rewrite forallb_flat_map.
    apply forallb_forall. intros a Ha. rewrite Forall_forall in IH.
    apply IH; [assumption |]. rewrite forallb_forall in Hall. now apply Hall.
  - cbn [forallb has_op]. now rewrite H, E.
Qed.

Lemma flatten_nonempty : forall o x,
  nnf x = true -> is_empty (flatten (op_name o) x) = false.
Proof.
  intros o.
  induction x as [b | op args IH] using Expression_nested_ind;
    intros H; [discriminate |].
  cbn [flatten]. destruct (op =? op_name o) eqn:E; [| reflexivity].
  op_is E. apply nnf_junction_args in H as [Hne Hall].
  destruct args as [| a args]; [discriminate |].
  inversion IH as [| ? ? Ha _]; subst.
  simpl in Hall. apply andb_true_iff in Hall as [Hna _].
  specialize (Ha Hna). simpl.
  now destruct (flatten (op_name o) a).
Qed.

Lemma truth_value_junction : forall o v l,
  truth_value v (Expr (op_name o) l) = junction o v l.
Proof. intros [|] v l; reflexivity. Qed.

Lemma junction_flat_map : forall o v (g : Expression -> list Expression) l,
  junction o v (flat_map g l)
  = match o with
    | AND => forallb (fun x => junction AND v (g x)) l
    | OR => existsb (fun x => junction OR v (g x)) l
    end.
Proof.
  intros [|] v g l; simpl; [apply forallb_flat_map | apply existsb_flat_map].
Qed.

Lemma flatten_truth_value : forall o v x,
  junction o v (flatten (op_name o) x) = truth_value v x.
Proof.
  intros o v.
  induction x as [b | op args IH] using Expression_nested_ind.
  - destruct o; simpl; [apply andb_true_r | apply orb_false_r].
  - cbn [flatten]. destruct (op =? op_name o) eqn:E.
    + op_is E. rewrite junction_flat_map, truth_value_junction.
      destruct o; simpl;
        [apply forallb_pointwise | apply existsb_pointwise]; exact IH.
    + destruct o; simpl; [apply andb_true_r | apply orb_false_r].
Qed.

Lemma flatten_list_truth_value : forall o v l,
  junction o v (flat_map (flatten (op_name o)) l) = junction o v l.
Proof.
  intros o v l. rewrite junction_flat_map.
  destruct o; simpl;
    [apply forallb_pointwise | apply existsb_pointwise];
    apply Forall_forall; intros x _.
  - apply (flatten_truth_value AND).
  - apply (flatten_truth_value OR).
Qed.

Lemma prop_symbols_junction : forall o l,
  prop_symbols (Expr (op_name o) l) = flat_map prop_symbols l.
Proof. intros [|] l; reflexivity. Qed.

Lemma flat_map_flat_map : forall (A B C : Type) (f : B -> list C) (g : A -> list B) l,
  flat_map f (flat_map g l) = flat_map (fun x => flat_map f (g x)) l.
Proof.
  intros A0 B0 C0 f g l. induction l; simpl; [reflexivity |].
  now rewrite flat_map_app, IHl.
Qed.

Lemma flatten_symbols : forall o x,
  flat_map prop_symbols (flatten (op_name o) x) = prop_symbols x.
Proof.
  intros o.
  induction x as [b | op args IH] using Expression_nested_ind;
    [reflexivity |].
  cbn [flatten]. destruct (op =? op_name o) eqn:E.
  - op_is E. rewrite flat_map_flat_map, prop_symbols_junction.
    apply flat_map_pointwise. exact IH.
  - simpl. apply app_nil_r.
Qed.

Lemma flatten_list_symbols : forall o l,
  flat_map prop_symbols (flat_map (flatten (op_name o)) l)
  = flat_map prop_symbols l.
Proof.
  intros o l. rewrite flat_map_flat_map. apply flat_map_pointwise.
  apply Forall_forall. intros x _. apply flatten_symbols.
Qed.

Lemma associate_flatten : forall o l,
  forallb nnf l = true ->
  associate o l
  = Ok match flat_map (flatten (op_name o)) l with
       | [] => _op_identity o
       | [x] => x
       | l' => Expr (op_name o) l'
       end.
Proof.
  intros o l H. unfold associate. rewrite (dissociate_flatten o l H). simpl.
  now destruct (flat_map _ l) as [| x [| y l']].
Qed.

Lemma flatten_list_pieces : forall o l,
  forallb nnf l = true ->
  forallb (fun y => nnf y && negb (has_op (op_name o) y))
          (flat_map (flatten (op_name o)) l) = true.
Proof.
  intros o l H. rewrite forallb_flat_map. apply forallb_forall.
  intros x Hx. apply flatten_pieces. rewrite forallb_forall in H. now apply H.
Qed.

Lemma flatten_list_nonempty : forall o l,
  is_empty l = false -> forallb nnf l = true ->
  is_empty (flat_map (flatten (op_name o)) l) = false.
Proof.
  intros o [| x l] Hne H; [discriminate |].
  simpl in H |- *. apply andb_true_iff in H as [Hx _].
  apply (flatten_nonempty o) in Hx. now destruct (flatten (op_name o) x).
Qed.

Lemma forallb_and_l : forall (A : Type) (f g : A -> bool) l,
  forallb (fun y => f y && g y) l = true -> forallb f l = true.
Proof.
  intros A0 f g l H. rewrite forallb_forall in *. intros x Hx.
  specialize (H x Hx). now apply andb_true_iff in H as [H _].
Qed.


(** [associate] on a non-empty list of sentences in negation normal form. *)
Lemma associate_nnf : forall o l,
  is_empty l = false -> forallb nnf l = true ->
  exists c, associate o l = Ok c /\ nnf c = true /\
            (forall v, truth_value v c = junction o v l) /\
            incl (prop_symbols c) (flat_map prop_symbols l).
Proof.
  intros o l Hne H. rewrite (associate_flatten o l H).
  pose proof (flatten_list_pieces o l H) as Hp.
  pose proof (flatten_list_nonempty o l Hne H) as Hn.
  pose proof (flatten_list_symbols o l) as Hs.
  assert (Hv := fun v => flatten_list_truth_value o v l).
  apply forallb_and_l in Hp.
  destruct (flat_map (flatten (op_name o)) l) as [| x [| y l']];
    [discriminate | |].
  - exists x. split; [reflexivity |]. split.
    + simpl in Hp. now apply andb_true_iff in Hp as [Hp _].
    + split.
      * intros v. rewrite <- Hv.
        destruct o; simpl; [now rewrite andb_true_r | now rewrite orb_false_r].
      * rewrite <- Hs. simpl. rewrite app_nil_r. apply incl_refl.
  - eexists. split; [reflexivity |]. split.
    + now apply nnf_node.
    + split.
      * intros v. now rewrite truth_value_junction, Hv.
      * rewrite prop_symbols_junction, Hs. apply incl_refl.
Qed.

(** ** Stage 2: [move_not_inwards] *)

Lemma NOT_unfold : forall b, NOT b = move_not (Some (Not b)) b.
Proof. reflexivity. Qed.

Lemma existsb_negb : forall (A : Type) (f : A -> bool) l,
  existsb (fun x => negb (f x)) l = negb (forallb f l).
Proof.
  intros A0 f l. induction l; simpl; [reflexivity |].
  rewrite IHl. now destruct (f a).
Qed.

Lemma forallb_negb : forall (A : Type) (f : A -> bool) l,
  forallb (fun x => negb (f x)) l = negb (existsb f l).
Proof.
  intros A0 f l. induction l; simpl; [reflexivity |].
  rewrite IHl. now destruct (f a).
Qed.

Lemma move_not_basic : forall s,
  basic s = true ->
  (exists s', move_not None s = Ok s' /\ nnf s' = true /\ preserves s s') /\
  (exists s', move_not (Some (Not s)) s = Ok s' /\ nnf s' = true /\
              preserves (Not s) s').
Proof.
  induction s as [b | op args IH] using Expression_nested_ind;
    intros Hs; [discriminate |].
  simpl in Hs.
  destruct (is_prop_symbol op) eqn:Hop.
  { destruct args; [| discriminate].
    pose proof (is_prop_symbol_is_symbol _ Hop) as Hsym.
    destruct (is_prop_symbol_not_connective _ Hop) as [H1 [H2 H3]].
    split.
    - exists (Expr op []). simpl. rewrite H1, Hsym. simpl.
      split; [reflexivity |]. split; [| apply preserves_refl].
      unfold is_literal. simpl. now rewrite Hop.
    - exists (Not (Expr op [])). simpl. rewrite H1, H2, H3.
      split; [reflexivity |]. split; [| apply preserves_refl].
      unfold is_literal. simpl. now rewrite Hop. }
  destruct (op =? "~") eqn:Hnot.
  { op_is Hnot. destruct args as [| a [| ? ?]]; try discriminate.
    inversion IH as [| ? ? Ha _]; subst.
    destruct (Ha Hs) as [[a1 [E1 [N1 P1]]] [a2 [E2 [N2 P2]]]].
    split.
    - exists a2. split; [exact E2 |]. split; [exact N2 | exact P2].
    - exists a1. split; [exact E1 |]. split; [exact N1 |].
      destruct P1 as [V1 S1]. split.
      + intros v. rewrite V1. simpl. now rewrite negb_involutive.
      + simpl. now rewrite !app_nil_r. }
  apply andb_true_iff in Hs as [Hs Hall].
  apply andb_true_iff in Hs as [Hjunct Hne].
  assert (Hne' : is_empty args = false) by now destruct (is_empty args).
  assert (Hsym : is_symbol op = false).
  { apply connective_not_symbol.
    apply orb_true_iff in Hjunct as [-> | ->]; now rewrite ?orb_true_r. }
  split.
  - assert (Hseq : exists l', sequence (map (move_not None) args) = Ok l' /\
              Forall2 (fun x y => nnf y = true /\ preserves x y) args l').
    { apply sequence_Ok. rewrite Forall_forall in *. intros a Ha.
      apply IH; [assumption |]. rewrite forallb_forall in Hall. now apply Hall. }
    destruct Hseq as [l' [Hl' HF]].
    exists (Expr op l'). simpl. rewrite Hnot, Hsym, Hne'. simpl.
    rewrite Hl'. simpl. split; [reflexivity |]. split.
    + replace (forallb nnf l') with true.
      * rewrite (Forall2_nonempty _ _ _ _ _ HF), Hne', Hjunct.
        simpl. apply orb_true_r.
      * symmetry. apply (Forall2_all nnf args).
        eapply Forall2_weaken; [| exact HF]. now intros x y [H _].
    + apply preserves_node; [assumption |].
      eapply Forall2_weaken; [| exact HF]. now intros x y [_ H].
  - assert (Hseq : exists l',
              sequence (map (fun b => move_not (Some (Not b)) b) args) = Ok l' /\
              Forall2 (fun x y => nnf y = true /\ preserves (Not x) y) args l').
    { apply sequence_Ok. rewrite Forall_forall in *. intros a Ha.
      apply IH; [assumption |]. rewrite forallb_forall in Hall. now apply Hall. }
    destruct Hseq as [l' [Hl' HF]].
    assert (Hnnf : forallb nnf l' = true).
    { apply (Forall2_all nnf args).
      eapply Forall2_weaken; [| exact HF]. now intros x y [H _]. }
    assert (Hemp : is_empty l' = false)
      by now rewrite (Forall2_nonempty _ _ _ _ _ HF).
    assert (Hv : forall v, Forall2 (fun x y => truth_value v y
                                     = negb (truth_value v x)) args l').
    { intros v. eapply Forall2_weaken; [| exact HF].
      intros x y [_ [H _]]. now rewrite H. }
    assert (Hsy : incl (flat_map prop_symbols l') (flat_map prop_symbols args)).
    { apply Forall2_symbols. eapply Forall2_weaken; [| exact HF].
      intros x y [_ [_ H]]. simpl in H. now rewrite app_nil_r in H. }
    simpl. rewrite Hnot.
    apply orb_true_iff in Hjunct as [Hj | Hj]; op_is Hj; simpl; rewrite Hl'; simpl.
    + destruct (associate_nnf AND l' Hemp Hnnf) as [c [Hc [Nc [Vc Sc]]]].
      exists c. split; [exact Hc |]. split; [exact Nc |]. split.
      * intros v. rewrite Vc. simpl.
        rewrite (Forall2_forallb _ (fun x => negb (truth_value v x)) _ _ (Hv v)).
        apply forallb_negb.
      * simpl. rewrite app_nil_r.
        eapply incl_tran; [exact Sc | exact Hsy].
    + destruct (associate_nnf OR l' Hemp Hnnf) as [c [Hc [Nc [Vc Sc]]]].
      exists c. split; [exact Hc |]. split; [exact Nc |]. split.
      * intros v. rewrite Vc. simpl.
        rewrite (Forall2_existsb _ (fun x => negb (truth_value v x)) _ _ (Hv v)).
        apply existsb_negb.
      * simpl. rewrite app_nil_r.
        eapply incl_tran; [exact Sc | exact Hsy].
Qed.

(** ** The measure of [distribute_and_over_or] *)

Lemma list_prod_app : forall l1 l2,
  list_prod (l1 ++ l2) = list_prod l1 * list_prod l2.
Proof.
  induction l1 as [| a l1 IH]; intros l2; simpl; [lia |].
  rewrite IH. lia.
Qed.

Lemma list_prod_pos : forall l, Forall (fun n => 1 <= n) l -> 1 <= list_prod l.
Proof. intros l H. induction H; simpl; [lia | nia]. Qed.

Lemma spread_pos : forall s, 1 <= spread s.
Proof.
  induction s as [b | op args IH] using Expression_nested_ind; simpl; [lia |].
  destruct (op =? "|").
  - apply (list_prod_pos (map spread args)). now apply Forall_map.
  - destruct (op =? "&"); lia.
Qed.

Lemma spread_list_pos : forall l, 1 <= list_prod (map spread l).
Proof.
  intros l. apply list_prod_pos, Forall_map, Forall_forall.
  intros x _. apply spread_pos.
Qed.

Lemma spread_or : forall l,
  spread (Expr "|" l) = list_prod (map spread l).
Proof. reflexivity. Qed.

Lemma spread_and : forall l,
  spread (Expr "&" l) = S (list_sum (map spread l)).
Proof. reflexivity. Qed.

Lemma list_sum_flat_map : forall (f : Expression -> nat)
    (g : Expression -> list Expression) l,
  list_sum (map f (flat_map g l))
  = list_sum (map (fun x => list_sum (map f (g x))) l).
Proof.
  intros f g l. induction l; simpl; [reflexivity |].
  now rewrite map_app, list_sum_app, IHl.
Qed.

Lemma list_prod_flat_map : forall (f : Expression -> nat)
    (g : Expression -> list Expression) l,
  list_prod (map f (flat_map g l))
  = list_prod (map (fun x => list_prod (map f (g x))) l).
Proof.
  intros f g l. induction l; simpl; [reflexivity |].
  now rewrite map_app, list_prod_app, IHl.
Qed.

Lemma list_sum_le_pointwise : forall (f g : Expression -> nat) l,
  Forall (fun x => f x <= g x) l ->
  list_sum (map f l) <= list_sum (map g l).
Proof. intros f g l H. induction H; simpl; lia. Qed.

Lemma list_prod_pointwise : forall (f g : Expression -> nat) l,
  Forall (fun x => f x = g x) l ->
  list_prod (map f l) = list_prod (map g l).
Proof. intros f g l H. induction H; simpl; congruence. Qed.

Lemma list_sum_In : forall (f : Expression -> nat) x l,
  In x l -> f x <= list_sum (map f l).
Proof.
  intros f x l. induction l as [| y l IH]; simpl; [tauto |].
  intros [-> | H]; [lia |]. specialize (IH H). lia.
Qed.

Lemma flatten_size : forall op x,
  list_sum (map size (flatten op x)) <= size x.
Proof.
  intros op.
  induction x as [b | o args IH] using Expression_nested_ind; simpl; [lia |].
  destruct (o =? op); [| simpl; lia].
  rewrite list_sum_flat_map.
  pose proof (list_sum_le_pointwise _ size args IH). lia.
Qed.

Lemma flatten_list_size : forall op l,
  list_sum (map size (flat_map (flatten op) l)) <= list_sum (map size l).
Proof.
  intros op l. rewrite list_sum_flat_map. apply list_sum_le_pointwise.
  apply Forall_forall. intros x _. apply flatten_size.
Qed.

Lemma flatten_spread : forall x,
  list_prod (map spread (flatten "|" x)) = spread x.
Proof.
  induction x as [b | o args IH] using Expression_nested_ind;
    [reflexivity |].
  cbn [flatten]. destruct (o =? "|") eqn:E.
  - op_is E. rewrite list_prod_flat_map, spread_or.
    now apply list_prod_pointwise.
  - simpl. lia.
Qed.

Lemma flatten_list_spread : forall l,
  list_prod (map spread (flat_map (flatten "|") l)) = list_prod (map spread l).
Proof.
  intros l. rewrite list_prod_flat_map. apply list_prod_pointwise.
  apply Forall_forall. intros x _. apply flatten_spread.
Qed.

(** ** What the associator returns *)

Lemma sequence_Forall2 : forall (A B : Type) (f : A -> Result B) l l',
  sequence (map f l) = Ok l' -> Forall2 (fun x y => f x = Ok y) l l'.
Proof.
  intros A0 B0 f l. induction l as [| a l IH]; intros l' H; simpl in H.
  - injection H as <-. constructor.
  - destruct (f a) as [y |] eqn:E; [| discriminate]. simpl in H.
    destruct (sequence (map f l)) as [l'' |]; [| discriminate].
    injection H as <-. constructor; [exact E | now apply IH].
Qed.

Lemma sequence_Raise : forall (A B : Type) (f : A -> Result B) l e,
  sequence (map f l) = Raise e -> exists x, In x l /\ f x = Raise e.
Proof.
  intros A0 B0 f l e. induction l as [| a l IH]; intros H; simpl in H;
    [discriminate |].
  destruct (f a) as [y |] eqn:E.
  - simpl in H. destruct (sequence (map f l)) as [l'' |]; [discriminate |].
    destruct (IH H) as [x [Hx Hf]]. exists x. split; [now right | exact Hf].
  - injection H as <-. exists a. split; [now left | exact E].
Qed.

(** When [collect] returns, it returns the flattening, whose pieces are
    [Expr] objects with another operator. *)
Lemma collect_arg_returns : forall op x l,
  collect_arg op x = Ok l ->
  l = flatten op x /\
  forallb (fun y => is_expr y && negb (has_op op y)) l = true.
Proof.
  intros op.
  induction x as [b | o args IH] using Expression_nested_ind;
    intros l H; [discriminate |].
  simpl in H |- *. destruct (o =? op) eqn:E.
  - destruct (sequence (map (collect_arg op) args)) as [ls |] eqn:Els;
      [| discriminate].
    injection H as <-. apply sequence_Forall2 in Els. clear E.
    induction Els as [| a la args' ls' Ha _ IHl]; [now split |].
    inversion IH as [| ? ? IHa IHrest]; subst.
    destruct (IHa la Ha) as [-> Hp]. destruct (IHl IHrest) as [Hl Hps].
    rewrite concat_cons. cbn [flat_map].
    rewrite Hl, forallb_app, Hp. rewrite <- Hl, Hps. now split.
  - injection H as <-. simpl. now rewrite E.
Qed.

Lemma dissociate_returns : forall op args l,
  dissociate op args = Ok l ->
  l = flat_map (flatten op) args /\
  forallb (fun y => is_expr y && negb (has_op op y)) l = true.
Proof.
  intros op args l H. unfold dissociate in H.
  destruct (sequence (map (collect_arg op) args)) as [ls |] eqn:Els;
    [| discriminate].
  injection H as <-. apply sequence_Forall2 in Els.
  induction Els as [| a la args' ls' Ha _ IHl]; [now split |].
  destruct (collect_arg_returns op a la Ha) as [-> Hp].
  destruct IHl as [Hl Hps].
  rewrite concat_cons. cbn [flat_map].
  rewrite Hl, forallb_app, Hp. rewrite <- Hl, Hps. now split.
Qed.

(** The associator raises nothing but the [AttributeError] of a Python
    boolean among the arguments. *)
Lemma collect_arg_raises : forall op x e,
  collect_arg op x = Raise e -> e = AttributeError.
Proof.
  intros op.
  induction x as [b | o args IH] using Expression_nested_ind; intros e H.
  - now injection H as <-.
  - simpl in H. destruct (o =? op); [| discriminate].
    destruct (sequence (map (collect_arg op) args)) as [ls |] eqn:Els;
      [discriminate |].
    injection H as <-. apply sequence_Raise in Els as [a [Ha Hr]].
    rewrite Forall_forall in IH. now apply (IH a Ha).
Qed.

Lemma associate_raises : forall o l e,
  associate o l = Raise e -> e = AttributeError.
Proof.
  intros o l e H. unfold associate, dissociate in H.
  destruct (sequence (map (collect_arg (op_name o)) l)) as [ls |] eqn:Els.
  - simpl in H. destruct (List.concat ls) as [| x [| y l']]; discriminate.
  - injection H as <-. apply sequence_Raise in Els as [a [_ Hr]].
    now apply collect_arg_raises in Hr.
Qed.

(** What [associate] returns, by the number of pieces of the flattening. *)
Lemma associate_returns : forall o l c,
  associate o l = Ok c ->
  forallb (fun y => is_expr y && negb (has_op (op_name o) y))
          (flat_map (flatten (op_name o)) l) = true /\
  c = match flat_map (flatten (op_name o)) l with
      | [] => _op_identity o
      | [x] => x
      | l' => Expr (op_name o) l'
      end.
Proof.
  intros o l c H. unfold associate in H.
  destruct (dissociate (op_name o) l) as [args' |] eqn:E; [| discriminate].
  destruct (dissociate_returns _ _ _ E) as [-> Hp]. simpl in H.
  split; [exact Hp |].
  destruct (flat_map (flatten (op_name o)) l) as [| x [| y l']];
    now injection H as <-.
Qed.

(** The disjunction [associate] builds is no larger than its arguments. *)
Lemma associate_or_measure : forall l c,
  associate OR l = Ok c ->
  spread c = list_prod (map spread l) /\
  size c <= S (list_sum (map size l)).
Proof.
  intros l c Hc. apply associate_returns in Hc as [_ ->].
  pose proof (flatten_list_spread l) as Hsp.
  pose proof (flatten_list_size "|" l) as Hsz.
  simpl.
  destruct (flat_map (flatten "|") l) as [| x [| y l']].
  - simpl in *. lia.
  - simpl in *. lia.
  - rewrite spread_or. cbn [size]. lia.
Qed.

(** ** Finding the conjunction to distribute *)

Lemma first_conj_split : forall l c,
  first_conj l = Some c ->
  has_op "&" c = true /\
  exists pre post, l = pre ++ c :: post /\
                   others_than_first_conj l = pre ++ post.
Proof.
  unfold first_conj.
  induction l as [| a l IH]; intros c H; simpl in *; [discriminate |].
  destruct (has_op "&" a) eqn:E.
  - injection H as ->. split; [assumption |]. now exists [], l.
  - destruct (IH c H) as [Hc [pre [post [-> Ho]]]].
    split; [assumption |]. exists (a :: pre), post. simpl. now rewrite Ho.
Qed.

Lemma first_conj_none : forall l,
  first_conj l = None ->
  forallb (fun y => nnf y && negb (has_op "|" y)) l = true ->
  forallb is_literal l = true.
Proof.
  unfold first_conj.
  induction l as [| a l IH]; intros H Hp; simpl in *; [reflexivity |].
  destruct (has_op "&" a) eqn:E; [discriminate |].
  apply andb_true_iff in Hp as [Ha Hl]. rewrite (IH H Hl), andb_true_r.
  apply andb_true_iff in Ha as [Hn Hor].
  destruct a as [b | op args]; [discriminate |].
  apply nnf_inv in Hn as [Hn | [Hj _]]; [assumption |].
  simpl in E, Hor. rewrite E in Hj.
  destruct (op =? "|"); discriminate.
Qed.

(** ** Conjunctive normal form *)

Lemma is_clause_nnf : forall s, is_clause s = true -> nnf s = true.
Proof.
  intros s H. unfold is_clause in H.
  apply orb_true_iff in H as [H | H]; [now apply nnf_literal |].
  destruct s as [b | op l]; [discriminate |].
  apply andb_true_iff in H as [H Hl]. apply andb_true_iff in H as [Hop Hlen].
  op_is Hop. apply (nnf_node OR).
  - destruct l; [discriminate | reflexivity].
  - apply forallb_forall. intros x Hx. apply nnf_literal.
    rewrite forallb_forall in Hl. now apply Hl.
Qed.

Lemma is_cnf_nnf : forall s, is_cnf s = true -> nnf s = true.
Proof.
  intros s H. unfold is_cnf in H.
  apply orb_true_iff in H as [H | H]; [now apply is_clause_nnf |].
  destruct s as [b | op l]; [discriminate |].
  apply andb_true_iff in H as [H Hl]. apply andb_true_iff in H as [Hop Hlen].
  op_is Hop. apply (nnf_node AND).
  - destruct l; [discriminate | reflexivity].
  - apply forallb_forall. intros x Hx. apply is_clause_nnf.
    rewrite forallb_forall in Hl. now apply Hl.
Qed.

Lemma is_clause_not_and : forall s, is_clause s = true -> has_op "&" s = false.
Proof.
  intros s H. unfold is_clause in H.
  apply orb_true_iff in H as [H | H]; [now apply (is_literal_has_op AND) |].
  destruct s as [b | op l]; [discriminate |].
  apply andb_true_iff in H as [H _]. apply andb_true_iff in H as [Hop _].
  now op_is Hop.
Qed.

Lemma flatten_other_op : forall op x,
  has_op op x = false -> flatten op x = [x].
Proof.
  intros op [b | o l] H; [reflexivity |]. simpl in *. now rewrite H.
Qed.

Lemma flat_map_singletons : forall (f : Expression -> list Expression) l,
  Forall (fun x => f x = [x]) l -> flat_map f l = l.
Proof. intros f l H. induction H; simpl; [reflexivity |]. now rewrite H, IHForall. Qed.

Lemma flatten_clauses : forall l,
  forallb is_clause l = true -> flat_map (flatten "&") l = l.
Proof.
  intros l H. apply flat_map_singletons, Forall_forall. intros x Hx.
  apply flatten_other_op, is_clause_not_and.
  rewrite forallb_forall in H. now apply H.
Qed.

(** The conjuncts of a sentence in conjunctive normal form are clauses. *)
Lemma flatten_cnf : forall s,
  is_cnf s = true -> forallb is_clause (flatten "&" s) = true.
Proof.
  intros s H. unfold is_cnf in H. apply orb_true_iff in H as [H | H].
  - rewrite flatten_other_op by now apply is_clause_not_and.
    simpl. now rewrite H.
  - destruct s as [b | op l]; [discriminate |].
    apply andb_true_iff in H as [H Hl]. apply andb_true_iff in H as [Hop _].
    op_is Hop. cbn [flatten]. rewrite String.eqb_refl.
    now rewrite flatten_clauses.
Qed.

Lemma associate_and_cnf : forall l,
  is_empty l = false -> forallb is_cnf l = true ->
  exists c, associate AND l = Ok c /\ is_cnf c = true /\
            (forall v, truth_value v c = forallb (truth_value v) l) /\
            incl (prop_symbols c) (flat_map prop_symbols l).
Proof.
  intros l Hne H.
  assert (Hnnf : forallb nnf l = true).
  { apply forallb_forall. intros x Hx. apply is_cnf_nnf.
    rewrite forallb_forall in H. now apply H. }
  destruct (associate_nnf AND l Hne Hnnf) as [c [Hc [_ [Hv Hs]]]].
  exists c. split; [exact Hc |]. split; [| split; assumption].
  rewrite (associate_flatten AND l Hnnf) in Hc.
  assert (Hcl : forallb is_clause (flat_map (flatten "&") l) = true).
  { rewrite forallb_flat_map. apply forallb_forall. intros x Hx.
    apply flatten_cnf. rewrite forallb_forall in H. now apply H. }
  pose proof (flatten_list_nonempty AND l Hne Hnnf) as Hn.
  simpl in Hc, Hn.
  destruct (flat_map (flatten "&") l) as [| x [| y l']];
    [discriminate | |]; injection Hc as <-.
  - simpl in Hcl. apply andb_true_iff in Hcl as [Hx _].
    unfold is_cnf. now rewrite Hx.
  - unfold is_cnf. rewrite Hcl. reflexivity.
Qed.

Lemma forallb_orb_r : forall (A : Type) (f : A -> bool) (b : bool) l,
  forallb (fun x => f x || b) l = forallb f l || b.
Proof.
  intros A0 f b l. induction l; simpl; [reflexivity |].
  rewrite IHl. destruct (f a), b, (forallb f l); reflexivity.
Qed.

(** ** Stage 3: [distribute_and_over_or] *)

Lemma weight_and_arg : forall a l,
  In a l -> weight a < weight (Expr "&" l).
Proof.
  intros a l H. unfold weight. rewrite spread_and. cbn [size].
  pose proof (list_sum_In spread a l H).
  pose proof (list_sum_In size a l H). lia.
Qed.

Lemma existsb_middle : forall (f : Expression -> bool) pre c post,
  existsb f (pre ++ c :: post) = f c || existsb f (pre ++ post).
Proof.
  intros f pre c post. rewrite !existsb_app. simpl.
  destruct (existsb f pre), (f c); reflexivity.
Qed.

(** Distributing one conjunct over the rest of a disjunction makes the
    measure smaller. *)
Lemma weight_distributed : forall pre cargs post rest c,
  In c cargs ->
  spread rest = list_prod (map spread (pre ++ post)) ->
  size rest <= S (list_sum (map size (pre ++ post))) ->
  weight (Or c rest)
  < list_prod (map spread (pre ++ Expr "&" cargs :: post))
    + S (list_sum (map size (pre ++ Expr "&" cargs :: post))).
Proof.
  intros pre cargs post rest c Hin Mrest Zrest.
  unfold weight, Or. rewrite spread_or.
  cbn [size map list_sum list_prod fold_right]. rewrite Mrest.
  rewrite !map_app, !list_prod_app, !list_sum_app in *.
  cbn [map list_prod fold_right list_sum]. rewrite spread_and. cbn [size].
  change (fold_right Nat.mul 1 (map spread post))
    with (list_prod (map spread post)).
  change (fold_right Init.Nat.add 0 (map size post))
    with (list_sum (map size post)).
  pose proof (list_sum_In spread c cargs Hin).
  pose proof (list_sum_In size c cargs Hin).
  pose proof (spread_list_pos pre). pose proof (spread_list_pos post).
  set (a := list_prod (map spread pre)) in *.
  set (b := list_prod (map spread post)) in *.
  set (k := list_sum (map spread cargs)) in *.
  assert (spread c * (a * b) <= k * (a * b))
    by (apply Nat.mul_le_mono_r; assumption).
  assert (1 <= a * b) by nia.
  replace (a * (S k * b)) with (k * (a * b) + a * b) by ring.
  replace (spread c * (a * b * 1)) with (spread c * (a * b)) by ring.
  lia.
Qed.

Lemma distribute_nnf : forall n s,
  weight s <= n -> nnf s = true ->
  exists c, distribute n s = Ok c /\ is_cnf c = true /\ preserves s c.
Proof.
  induction n as [| n IH]; intros s Hw Hs.
  { pose proof (spread_pos s). unfold weight in Hw. lia. }
  destruct s as [b | op sargs]; [discriminate |].
  destruct (nnf_inv _ _ Hs) as [Hlit | [Hj [Hne Hall]]].
  { exists (Expr op sargs).
    pose proof (is_literal_has_op OR _ Hlit) as H1.
    pose proof (is_literal_has_op AND _ Hlit) as H2.
    simpl in H1, H2. cbn [distribute]. rewrite H1, H2.
    split; [reflexivity |]. split; [| apply preserves_refl].
    unfold is_cnf, is_clause. now rewrite Hlit. }
  destruct (op =? "|") eqn:Hor.
  2: { simpl in Hj. op_is Hj.
       assert (Hseq : exists ds, sequence (map (distribute n) sargs) = Ok ds /\
                 Forall2 (fun x y => is_cnf y = true /\ preserves x y) sargs ds).
       { apply sequence_Ok. apply Forall_forall. intros a Ha. apply IH.
         - pose proof (weight_and_arg a sargs Ha). lia.
         - rewrite forallb_forall in Hall. now apply Hall. }
       destruct Hseq as [ds [Hds HF]].
       destruct (associate_and_cnf ds) as [c [Hc [Cc [Vc Sc]]]].
       { now rewrite (Forall2_nonempty _ _ _ _ _ HF). }
       { apply (Forall2_all is_cnf sargs).
         eapply Forall2_weaken; [| exact HF]. now intros x y [H _]. }
       exists c. cbn [distribute]. simpl (_ =? _). cbv iota.
       rewrite Hds. simpl. split; [exact Hc |]. split; [exact Cc |].
       split.
       - intros v. rewrite Vc. simpl. apply Forall2_forallb.
         eapply Forall2_weaken; [| exact HF]. intros x y [_ [H _]]. apply H.
       - eapply incl_tran; [exact Sc |]. simpl. apply Forall2_symbols.
         eapply Forall2_weaken; [| exact HF]. intros x y [_ [_ H]]. apply H. }
  op_is Hor.
  pose proof (associate_flatten OR sargs Hall) as Hassoc.
  pose proof (flatten_list_pieces OR sargs Hall) as Hp.
  pose proof (flatten_list_nonempty OR sargs Hne Hall) as Hn.
  pose proof (flatten_list_symbols OR sargs) as Hsym.
  pose proof (flatten_list_spread sargs) as Hsp.
  pose proof (flatten_list_size "|" sargs) as Hsz.
  assert (Hv := fun v => flatten_list_truth_value OR v sargs).
  simpl in Hassoc, Hp, Hn, Hsym, Hv.
  unfold weight in Hw. rewrite spread_or in Hw. cbn [size] in Hw.
  cbn [distribute]. simpl (_ =? _). cbv iota.
  rewrite Hassoc. cbn [bind].
  destruct (flat_map (flatten "|") sargs) as [| x [| y l']] eqn:Hpieces;
    [discriminate | |].
  - (* one piece *)
    simpl in Hp. rewrite andb_true_r in Hp.
    apply andb_true_iff in Hp as [Hnx Hox].
    destruct x as [b | op1 args1]; [discriminate |].
    simpl in Hox. rewrite Hox.
    destruct (IH (Expr op1 args1)) as [c [Hc [Cc [Vc Sc]]]];
      [| assumption |].
    { unfold weight. cbn [map list_prod fold_right list_sum] in Hsp, Hsz.
      cbn [size] in Hsz |- *. lia. }
    exists c. split; [exact Hc |]. split; [exact Cc |]. split.
    + intros v. rewrite Vc. specialize (Hv v). simpl in Hv.
      rewrite orb_false_r in Hv. exact Hv.
    + eapply incl_tran; [exact Sc |]. simpl. rewrite <- Hsym. simpl.
      rewrite app_nil_r. apply incl_refl.
  - (* two pieces or more *)
    simpl (negb _). cbv iota.
    destruct (first_conj (x :: y :: l')) as [conj_ |] eqn:Hfc.
    2: { exists (Expr "|" (x :: y :: l')).
         split; [reflexivity |]. split.
         - apply first_conj_none in Hfc; [| assumption].
           unfold is_cnf, is_clause. rewrite Hfc. reflexivity.
         - split.
           + intros v. apply (Hv v).
           + simpl. rewrite <- Hsym. apply incl_refl. }
    destruct (first_conj_split _ _ Hfc) as [Hand [pre [post [Hsplit Hothers]]]].
    rewrite Hothers.
    assert (Hpn : forallb nnf (x :: y :: l') = true)
      by now apply forallb_and_l in Hp.
    rewrite Hsplit in Hpn. rewrite forallb_app in Hpn.
    apply andb_true_iff in Hpn as [Hpre Hcp]. simpl in Hcp.
    apply andb_true_iff in Hcp as [Hconj Hpost].
    assert (Hon : forallb nnf (pre ++ post) = true)
      by now rewrite forallb_app, Hpre, Hpost.
    assert (Hoe : is_empty (pre ++ post) = false).
    { assert (L : List.length (x :: y :: l') = List.length (pre ++ conj_ :: post))
        by now rewrite Hsplit.
      rewrite length_app in L. simpl in L.
      destruct pre; [destruct post; [simpl in L; lia | reflexivity]
                    | reflexivity]. }
    destruct (associate_nnf OR _ Hoe Hon) as [rest [Hrest [Nrest [Vrest Srest]]]].
    destruct (associate_or_measure _ _ Hrest) as [Mrest Zrest].
    rewrite Hrest. cbn [bind].
    destruct conj_ as [b | cop cargs]; [discriminate |].
    simpl in Hand. op_is Hand.
    destruct (nnf_junction_args AND _ Hconj) as [Hce Hcn].
    cbn [get_args bind].
    assert (Hseq : exists ds,
              sequence (map (fun c => distribute n (Or c rest)) cargs) = Ok ds /\
              Forall2 (fun c d => is_cnf d = true /\ preserves (Or c rest) d)
                      cargs ds).
    { apply sequence_Ok. apply Forall_forall. intros c Hin. apply IH.
      - pose proof (weight_distributed pre cargs post rest c Hin Mrest Zrest).
        rewrite <- Hsplit in *. lia.
      - apply (nnf_node OR); [reflexivity |]. simpl.
        rewrite forallb_forall in Hcn. now rewrite (Hcn c Hin), Nrest. }
    destruct Hseq as [ds [Hds HF]]. rewrite Hds. cbn [bind].
    destruct (associate_and_cnf ds) as [c [Hc [Cc [Vc Sc]]]].
    { now rewrite (Forall2_nonempty _ _ _ _ _ HF). }
    { apply (Forall2_all is_cnf cargs).
      eapply Forall2_weaken; [| exact HF]. now intros a d [H _]. }
    exists c. split; [exact Hc |]. split; [exact Cc |]. split.
    + intros v. rewrite Vc.
      rewrite (Forall2_forallb _ (fun a => truth_value v a || truth_value v rest)
                 cargs ds).
      * rewrite forallb_orb_r. specialize (Hv v). simpl. rewrite <- Hv.
        rewrite Hsplit, existsb_middle. rewrite Vrest. reflexivity.
      * eapply Forall2_weaken; [| exact HF]. intros a d [_ [H _]].
        rewrite H. simpl. now rewrite orb_false_r.
    + eapply incl_tran; [exact Sc |].
      simpl. rewrite <- Hsym, Hsplit.
      intros z Hz. apply in_flat_map in Hz as [d [Hd Hz]].
      apply (Forall2_weaken _ _ _
               (fun a d => incl (prop_symbols d)
                                (prop_symbols a ++ prop_symbols rest))) in HF.
      * assert (Hex : exists a, In a cargs /\
                        incl (prop_symbols d) (prop_symbols a ++ prop_symbols rest)).
        { clear - HF Hd. induction HF as [| a d' l1 l2 Had _ IHF];
            [contradiction |].
          destruct Hd as [<- | Hd]; [exists a; split; [now left | assumption] |].
          destruct (IHF Hd) as [a' [Ha' Hi]]. exists a'. split; [now right | assumption]. }
        destruct Hex as [a [Ha Hi]]. apply Hi in Hz.
        rewrite flat_map_app. simpl. rewrite !in_app_iff.
        apply in_app_iff in Hz as [Hz | Hz].
        -- right. left. apply in_flat_map. now exists a.
        -- apply Srest in Hz. rewrite flat_map_app, in_app_iff in Hz. tauto.
      * intros a d0 [_ [_ H]]. simpl in H. now rewrite !app_nil_r in H.
Qed.

(** The bound [distribute_and_over_or] is given is never used up, whatever
    the expression. *)
Lemma distribute_fuel_suffices : forall n s,
  weight s <= n -> distribute n s <> Raise RecursionError.
Proof.
  induction n as [| n IH]; intros s Hw.
  { pose proof (spread_pos s). unfold weight in Hw. lia. }
  destruct s as [b | op sargs]; [discriminate |].
  assert (Hseq : forall (f : Expression -> Expression) l,
             (forall x, In x l -> weight (f x) <= n) ->
             forall e, sequence (map (fun x => distribute n (f x)) l) = Raise e ->
                       e <> RecursionError).
  { intros f l Hl e He Habs. subst e.
    apply sequence_Raise in He as [x [Hx Hr]].
    now apply (IH (f x) (Hl x Hx)). }
  cbn [distribute]. destruct (op =? "|") eqn:Hor.
  - op_is Hor. unfold weight in Hw. rewrite spread_or in Hw. cbn [size] in Hw.
    destruct (associate OR sargs) as [s1 | e] eqn:Ha; cbn [bind].
    2: { apply associate_raises in Ha. now subst. }
    destruct (associate_returns OR _ _ Ha) as [Hp Hs1].
    pose proof (flatten_list_spread sargs) as Hsp.
    pose proof (flatten_list_size "|" sargs) as Hsz.
    cbn [op_name] in Hp, Hs1.
    destruct s1 as [b | op1 args1]; [discriminate |].
    destruct (flat_map (flatten "|") sargs) as [| x [| y l']] eqn:Hpieces.
    + discriminate.
    + subst x. simpl in Hp. rewrite andb_true_r in Hp. rewrite Hp.
      apply IH. unfold weight.
      cbn [map list_prod fold_right list_sum] in Hsp, Hsz. lia.
    + injection Hs1 as -> ->. simpl (negb _). cbv iota.
      destruct (first_conj (x :: y :: l')) as [conj_ |] eqn:Hfc;
        [| discriminate].
      destruct (first_conj_split _ _ Hfc) as [Hand [pre [post [Hsplit Hothers]]]].
      rewrite Hothers.
      destruct (associate OR (pre ++ post)) as [rest | e] eqn:Hrest; cbn [bind].
      2: { apply associate_raises in Hrest. now subst. }
      destruct (associate_or_measure _ _ Hrest) as [Mrest Zrest].
      destruct conj_ as [b | cop cargs]; [discriminate |].
      simpl in Hand. op_is Hand. cbn [get_args bind].
      assert (Hle : forall c, In c cargs -> weight (Or c rest) <= n).
      { intros c Hin.
        pose proof (weight_distributed pre cargs post rest c Hin Mrest Zrest).
        rewrite <- Hsplit in *. lia. }
      destruct (sequence (map (fun c => distribute n (Or c rest)) cargs))
        as [ds | e] eqn:Hds; cbn [bind].
      * intros Habs. apply associate_raises in Habs. discriminate.
      * intros Habs. injection Habs as ->.
        now apply (Hseq (fun c => Or c rest) cargs Hle _ Hds).
  - destruct (op =? "&") eqn:Hand; [| discriminate]. op_is Hand.
    assert (Hle : forall a, In a sargs -> weight a <= n).
    { intros a Hin. pose proof (weight_and_arg a sargs Hin). lia. }
    destruct (sequence (map (distribute n) sargs)) as [ds | e] eqn:Hds;
      cbn [bind].
    + intros Habs. apply associate_raises in Habs. discriminate.
    + intros Habs. injection Habs as ->.
      now apply (Hseq (fun a => a) sargs Hle _ Hds).
Qed.

(** [distribute_and_over_or] returns or raises what every larger bound
    gives. *)
Lemma distribute_and_over_or_total : forall s,
  distribute_and_over_or s <> Raise RecursionError.
Proof. intros s. apply distribute_fuel_suffices, le_n. Qed.

(** ** [to_cnf] *)

(** On a sentence without Python booleans, [to_cnf] returns a sentence in
    conjunctive normal form with the same truth value under every
    valuation. *)
Lemma to_cnf_proper : forall s,
  proper s = true ->
  exists c, to_cnf s = Ok c /\ is_cnf c = true /\ preserves s c.
Proof.
  intros s Hs. unfold to_cnf, move_not_inwards, distribute_and_over_or.
  destruct (eliminate_implications_proper s Hs) as [s1 [E1 [B1 P1]]].
  destruct (move_not_basic s1 B1) as [[s2 [E2 [N2 P2]]] _].
  destruct (distribute_nnf (weight s2) s2 (le_n _) N2) as [c [E3 [C3 P3]]].
  exists c. rewrite E1. simpl. rewrite E2. simpl.
  split; [exact E3 |]. split; [exact C3 |].
  eapply preserves_trans; [| exact P3].
  eapply preserves_trans; eassumption.
Qed.

Lemma Ok_in_fuel : forall (A : Type) (a : A) e,
  Ok a = Raise e -> e <> RecursionError.
Proof. discriminate. Qed.

(** A larger bound changes nothing once the bound is not used up. *)
Lemma distribute_more_fuel : forall n s r,
  distribute n s = r ->
  (forall e, r = Raise e -> e <> RecursionError) ->
  forall k, distribute (k + n) s = r.
Proof.
  induction n as [| n IH]; intros s r H Hr k.
  { simpl in H. subst r. now destruct (Hr _ eq_refl). }
  replace (k + S n) with (S (k + n)) by lia.
  destruct s as [b | op sargs]; [exact H |].
  cbn [distribute] in H |- *.
  assert (Hseq : forall (f : Expression -> Expression) l r',
             sequence (map (fun x => distribute n (f x)) l) = r' ->
             (forall e, r' = Raise e -> e <> RecursionError) ->
             sequence (map (fun x => distribute (k + n) (f x)) l) = r').
  { intros f l. induction l as [| a l IHl]; intros r' Hr' Hne; simpl in *;
      [assumption |].
    destruct (distribute n (f a)) as [d | e] eqn:Ea.
    - rewrite (IH _ _ Ea (Ok_in_fuel _ _) k). simpl in *.
      destruct (sequence (map (fun x => distribute n (f x)) l)) as [ds | e].
      + now rewrite (IHl _ eq_refl (Ok_in_fuel _ _)).
      + simpl in Hr'. subst r'. now rewrite (IHl _ eq_refl Hne).
    - simpl in Hr'. subst r'.
      rewrite (IH _ _ Ea); [reflexivity |].
      intros e0 E. injection E as <-. now apply Hne. }
  destruct (op =? "|").
  - destruct (associate OR sargs) as [s1 |]; [| exact H]. cbn [bind] in *.
    destruct s1 as [b | op1 args1]; [exact H |].
    destruct (negb (op1 =? "|")); [now apply IH |].
    destruct args1 as [| a [| a' l']]; [exact H | now apply IH |].
    destruct (first_conj (a :: a' :: l')); [| exact H].
    destruct (associate OR _) as [rest |]; [| exact H]. cbn [bind] in *.
    destruct (get_args e) as [cargs |]; [| exact H]. cbn [bind] in *.
    destruct (sequence (map (fun c0 => distribute n (Or c0 rest)) cargs))
      as [ds | e'] eqn:Eds.
    + now rewrite (Hseq (fun c0 => Or c0 rest) _ _ Eds (Ok_in_fuel _ _)).
    + simpl in H. subst r.
      rewrite (Hseq (fun c0 => Or c0 rest) _ _ Eds); [reflexivity |].
      intros e0 E. injection E as <-. now apply Hr.
  - destruct (op =? "&"); [| exact H].
    destruct (sequence (map (distribute n) sargs)) as [ds | e'] eqn:Eds.
    + pose proof (Hseq (fun x => x) sargs _ Eds (Ok_in_fuel _ _)) as Eds'.
      change (sequence (map (distribute (k + n)) sargs) = Ok ds) in Eds'.
      now rewrite Eds'.
    + simpl in H. subst r.
      assert (Eds' : sequence (map (fun x => distribute (k + n) x) sargs)
                     = Raise e').
      { apply (Hseq (fun x => x) sargs _ Eds).
        intros e0 E. injection E as <-. now apply Hr. }
      change (sequence (map (distribute (k + n)) sargs) = Raise e') in Eds'.
      now rewrite Eds'.
Qed.

(** With any bound from the measure up, [distribute] is
    [distribute_and_over_or]. *)
Lemma distribute_and_over_or_bound : forall s n,
  weight s <= n -> distribute n s = distribute_and_over_or s.
Proof.
  intros s n Hn. unfold distribute_and_over_or.
  replace n with ((n - weight s) + weight s) by lia.
  apply distribute_more_fuel; [reflexivity |].
  intros e E ->. revert E. apply distribute_fuel_suffices, le_n.
Qed.

(** ** Sentences already in normal form *)

Lemma eliminate_implications_nnf : forall s,
  nnf s = true -> eliminate_implications s = Ok s.
Proof.
  induction s as [b | op args IH] using Expression_nested_ind;
    intros H; [discriminate |].
  destruct (nnf_inv _ _ H) as [Hlit | [Hj [Hne Hall]]].
  - apply is_literal_inv in Hlit as [x [Hx [E | E]]];
      injection E as -> ->; reflexivity.
  - assert (Hsym : is_symbol op = false).
    { apply connective_not_symbol.
      apply orb_true_iff in Hj as [-> | ->]; now rewrite ?orb_true_r. }
    simpl. rewrite Hne, Hsym. simpl.
    rewrite (sequence_Ok_map _ _ _ (fun x => x)).
    + rewrite map_id. simpl. destruct args as [| p args']; [discriminate |].
      apply orb_true_iff in Hj as [Hj | Hj]; op_is Hj; reflexivity.
    + rewrite Forall_forall in *. intros a Ha. apply IH; [assumption |].
      rewrite forallb_forall in Hall. now apply Hall.
Qed.

Lemma move_not_inwards_nnf : forall s,
  nnf s = true -> move_not_inwards s = Ok s.
Proof.
  unfold move_not_inwards.
  induction s as [b | op args IH] using Expression_nested_ind;
    intros H; [discriminate |].
  destruct (nnf_inv _ _ H) as [Hlit | [Hj [Hne Hall]]].
  - apply is_literal_inv in Hlit as [x [Hx [E | E]]];
      injection E as -> ->.
    + destruct (is_prop_symbol_not_connective _ Hx) as [H1 _].
      simpl. now rewrite H1, (is_prop_symbol_is_symbol _ Hx).
    + destruct (is_prop_symbol_not_connective _ Hx) as [H1 [H2 H3]].
      simpl. now rewrite H1, H2, H3.
  - assert (Hsym : is_symbol op = false).
    { apply connective_not_symbol.
      apply orb_true_iff in Hj as [-> | ->]; now rewrite ?orb_true_r. }
    assert (Hnot : (op =? "~") = false).
    { apply orb_true_iff in Hj as [Hj | Hj]; op_is Hj; reflexivity. }
    simpl. rewrite Hnot, Hsym, Hne. simpl.
    rewrite (sequence_Ok_map _ _ _ (fun x => x)).
    + now rewrite map_id.
    + rewrite Forall_forall in *. intros a Ha. apply IH; [assumption |].
      rewrite forallb_forall in Hall. now apply Hall.
Qed.

Lemma flatten_literals : forall o l,
  forallb is_literal l = true -> flat_map (flatten (op_name o)) l = l.
Proof.
  intros o l H. apply flat_map_singletons, Forall_forall. intros x Hx.
  apply flatten_other_op, is_literal_has_op.
  rewrite forallb_forall in H. now apply H.
Qed.

Lemma first_conj_literals : forall l,
  forallb is_literal l = true -> first_conj l = None.
Proof.
  unfold first_conj. induction l as [| a l IH]; intros H; [reflexivity |].
  simpl in H |- *. apply andb_true_iff in H as [Ha Hl].
  pose proof (is_literal_has_op AND a Ha) as Hop. simpl in Hop.
  rewrite Hop. now apply IH.
Qed.

Lemma distribute_clause : forall n c,
  is_clause c = true -> distribute (S n) c = Ok c.
Proof.
  intros n c H. unfold is_clause in H. apply orb_true_iff in H as [H | H].
  - destruct c as [b | op args]; [discriminate |].
    pose proof (is_literal_has_op OR _ H) as H1.
    pose proof (is_literal_has_op AND _ H) as H2.
    simpl in H1, H2. cbn [distribute]. now rewrite H1, H2.
  - destruct c as [b | op l]; [discriminate |].
    apply andb_true_iff in H as [H Hl]. apply andb_true_iff in H as [Hop Hlen].
    op_is Hop. cbn [distribute]. simpl (_ =? _). cbv iota.
    assert (Hnnf : forallb nnf l = true).
    { apply forallb_forall. intros x Hx. apply nnf_literal.
      rewrite forallb_forall in Hl. now apply Hl. }
    rewrite (associate_flatten OR l Hnnf), (flatten_literals OR l Hl).
    cbn [bind op_name].
    destruct l as [| x [| y l']]; try discriminate.
    simpl (negb _). cbv iota. now rewrite first_conj_literals.
Qed.

Lemma distribute_cnf : forall n c,
  is_cnf c = true -> distribute (S (S n)) c = Ok c.
Proof.
  intros n c H. unfold is_cnf in H. apply orb_true_iff in H as [H | H];
    [now apply distribute_clause |].
  destruct c as [b | op l]; [discriminate |].
  apply andb_true_iff in H as [H Hl]. apply andb_true_iff in H as [Hop Hlen].
  op_is Hop. cbn [distribute]. simpl (_ =? _). cbv iota.
  rewrite (sequence_Ok_map _ _ _ (fun x => x)).
  - rewrite map_id. cbn [bind].
    assert (Hnnf : forallb nnf l = true).
    { apply forallb_forall. intros x Hx. apply is_clause_nnf.
      rewrite forallb_forall in Hl. now apply Hl. }
    rewrite (associate_flatten AND l Hnnf). cbn [op_name].
    rewrite (flatten_clauses l Hl).
    destruct l as [| x [| y l']]; try discriminate. reflexivity.
  - apply Forall_forall. intros x Hx. apply distribute_clause.
    rewrite forallb_forall in Hl. now apply Hl.
Qed.

Lemma weight_ge_2 : forall s, exists n, weight s = S (S n).
Proof.
  intros s. pose proof (spread_pos s).
  assert (1 <= size s) by (destruct s; simpl; lia).
  exists (weight s - 2). unfold weight. lia.
Qed.

Lemma to_cnf_cnf : forall c, is_cnf c = true -> to_cnf c = Ok c.
Proof.
  intros c H. unfold to_cnf, distribute_and_over_or.
  pose proof (is_cnf_nnf c H) as Hn.
  rewrite (eliminate_implications_nnf c Hn). cbn [bind].
  rewrite (move_not_inwards_nnf c Hn). cbn [bind].
  destruct (weight_ge_2 c) as [n ->]. now apply distribute_cnf.
Qed.

(** ** The classes of sentences *)

Lemma is_total_on_spec : forall m s,
  is_total_on m s = true <-> total_on m s.
Proof.
  intros m s. unfold is_total_on, total_on. rewrite forallb_forall.
  split; intros H x Hx; specialize (H x Hx);
    destruct (model_get m x); simpl in *; congruence.
Qed.

Lemma total_on_incl : forall m s c,
  incl (prop_symbols c) (prop_symbols s) -> total_on m s -> total_on m c.
Proof. intros m s c Hi H x Hx. apply H, Hi, Hx. Qed.

Lemma proper_sentence : forall s, proper s = true -> sentence s = true.
Proof.
  induction s as [b | op args IH] using Expression_nested_ind;
    intros H; [discriminate |].
  simpl in H |- *.
  destruct (is_prop_symbol op); [assumption |].
  assert (Hall : forallb proper args = true -> forallb sentence args = true).
  { intros Hall. apply forallb_forall. intros a Ha.
    rewrite Forall_forall in IH. apply IH; [assumption |].
    rewrite forallb_forall in Hall. now apply Hall. }
  destruct (op =? "~").
  { destruct args as [| a [| ? ?]]; try discriminate.
    inversion IH; subst; auto. }
  destruct ((op =? "|") || (op =? "&")).
  { apply andb_true_iff in H as [_ H]. auto. }
  destruct args as [| p [| q [| ? ?]]]; try discriminate.
  apply andb_true_iff in H as [Hpq Hop].
  assert (Hs : forallb sentence [p; q] = true).
  { apply Hall. simpl. now rewrite andb_true_r. }
  simpl in Hs. rewrite andb_true_r in Hs. rewrite Hs. simpl.
  apply andb_true_iff in Hpq as [Hp Hq].
  destruct (is_implication op); [now destruct p |].
  destruct (is_reverse_implication op); [now destruct q |].
  exact Hop.
Qed.

Lemma proper_propositional : forall s,
  proper s = true -> propositional s = true.
Proof.
  induction s as [b | op args IH] using Expression_nested_ind;
    intros H; [discriminate |].
  simpl in H |- *.
  destruct (is_prop_symbol op); [assumption |].
  assert (Hall : forallb proper args = true ->
                 forallb propositional args = true).
  { intros Hall. apply forallb_forall. intros a Ha.
    rewrite Forall_forall in IH. apply IH; [assumption |].
    rewrite forallb_forall in Hall. now apply Hall. }
  destruct (op =? "~").
  { destruct args as [| a [| ? ?]]; try discriminate.
    inversion IH; subst; auto. }
  destruct ((op =? "|") || (op =? "&")).
  { apply andb_true_iff in H as [H1 H2]. now rewrite H1, (Hall H2). }
  destruct args as [| p [| q [| ? ?]]]; try discriminate.
  apply andb_true_iff in H as [Hpq Hop]. rewrite Hop, andb_true_r.
  assert (Hs : forallb propositional [p; q] = true).
  { apply Hall. simpl. now rewrite andb_true_r. }
  simpl in Hs. now rewrite andb_true_r in Hs.
Qed.

Lemma nnf_proper : forall s, nnf s = true -> proper s = true.
Proof.
  induction s as [b | op args IH] using Expression_nested_ind;
    intros H; [discriminate |].
  destruct (nnf_inv _ _ H) as [Hlit | [Hj [Hne Hall]]].
  - apply is_literal_inv in Hlit as [x [Hx [E | E]]];
      injection E as -> ->; simpl; now rewrite Hx.
  - assert (Hp : is_prop_symbol op = false /\ (op =? "~") = false).
    { apply orb_true_iff in Hj as [Hj | Hj]; op_is Hj; split; reflexivity. }
    destruct Hp as [Hp Hn]. simpl. rewrite Hp, Hn, Hj, Hne. simpl.
    apply forallb_forall. intros a Ha. rewrite Forall_forall in IH.
    apply IH; [assumption |]. rewrite forallb_forall in Hall. now apply Hall.
Qed.

Lemma sequence_Ok_inv : forall (A B : Type) (f : A -> Result B) l l',
  sequence (map f l) = Ok l' -> Forall (fun x => exists y, f x = Ok y) l.
Proof.
  intros A0 B0 f l. induction l as [| a l IH]; intros l' H; [constructor |].
  simpl in H. destruct (f a) as [y |] eqn:E; [| discriminate]. simpl in H.
  destruct (sequence (map f l)) as [l'' |]; [| discriminate].
  constructor; [now exists y | now apply (IH l'')].
Qed.

(** [eliminate_implications] returns only on sentences without Python
    booleans: on the others the first stage of [to_cnf] raises. *)
Lemma eliminate_implications_returns : forall s s',
  propositional s = true -> eliminate_implications s = Ok s' ->
  proper s = true.
Proof.
  induction s as [b | op args IH] using Expression_nested_ind;
    intros s' H E; [discriminate |].
  simpl in H, E |- *.
  destruct (is_prop_symbol op) eqn:Hop; [assumption |].
  assert (Hall : forallb propositional args = true ->
                 is_empty args = false -> forallb proper args = true).
  { intros Hall Hne.
    assert (Hsym : is_symbol op = false).
    { apply connective_not_symbol. clear - H Hop.
      destruct (op =? "~"); [reflexivity |].
      destruct ((op =? "|") || (op =? "&")) eqn:Hj.
      { apply orb_true_iff in Hj as [-> | ->]; now rewrite ?orb_true_r. }
      destruct args as [| p [| q [| ? ?]]]; try discriminate.
      apply andb_true_iff in H as [_ H].
      unfold is_implication, is_reverse_implication in *.
      repeat (apply orb_true_iff in H as [H | H]);
        rewrite H, ?orb_true_r; reflexivity. }
    rewrite Hne, Hsym in E. simpl in E.
    destruct (sequence (map eliminate_implications args)) as [l |] eqn:El;
      [| discriminate].
    apply sequence_Ok_inv in El.
    apply forallb_forall. intros a Ha. rewrite Forall_forall in IH, El.
    destruct (El a Ha) as [y Hy].
    apply (IH a Ha y); [| exact Hy].
    rewrite forallb_forall in Hall. now apply Hall. }
  destruct (op =? "~").
  { destruct args as [| a [| ? ?]]; try discriminate.
    assert (Hs : forallb proper [a] = true).
    { apply Hall; [simpl; now rewrite H | reflexivity]. }
    simpl in Hs. now rewrite andb_true_r in Hs. }
  destruct ((op =? "|") || (op =? "&")).
  { apply andb_true_iff in H as [H1 H2]. rewrite H1. simpl.
    apply Hall; [assumption | now destruct (is_empty args)]. }
  destruct args as [| p [| q [| ? ?]]]; try discriminate.
  apply andb_true_iff in H as [Hpq Hop']. rewrite Hop', andb_true_r.
  assert (Hs : forallb proper [p; q] = true).
  { apply Hall; [simpl; now rewrite andb_true_r | reflexivity]. }
  simpl in Hs. now rewrite andb_true_r in Hs.
Qed.

(** ** Semantic equivalence of [to_cnf] *)

(** C1, amended: for every sentence built from proposition symbols and the
    operators [~], [&], [|], [==>]/[>>], [<==]/[<<], [<=>] and [^], without
    Python booleans, and every model binding all its proposition symbols,
    [to_cnf(s)] returns a sentence [c] and [pl_true(c, m)] is the boolean
    [pl_true(s, m)]. *)
Theorem to_cnf_semantic_equivalence : forall s m,
  proper s = true -> is_total_on m s = true ->
  exists c b, to_cnf s = Ok c /\
              pl_true s m = Ok (Some b) /\ pl_true c m = Ok (Some b).
Proof.
  intros s m Hs Ht. apply is_total_on_spec in Ht.
  destruct (to_cnf_proper s Hs) as [c [Hc [Cc [Vc Sc]]]].
  exists c, (truth_value (valuation m) s). split; [exact Hc |]. split.
  - apply pl_true_classical; [now apply proper_sentence | assumption].
  - rewrite <- Vc. apply pl_true_classical.
    + now apply proper_sentence, nnf_proper, is_cnf_nnf.
    + now apply (total_on_incl m s c).
Qed.

Lemma to_cnf_semantic_equivalence_witness :
  exists c b,
    to_cnf (Expr "<=>" [P; Expr "==>" [Q; P]]) = Ok c /\
    pl_true (Expr "<=>" [P; Expr "==>" [Q; P]]) [(P, true); (Q, false)]
    = Ok (Some b) /\
    pl_true c [(P, true); (Q, false)] = Ok (Some b).
Proof.
  apply (to_cnf_semantic_equivalence
           (Expr "<=>" [P; Expr "==>" [Q; P]]) [(P, true); (Q, false)]);
    reflexivity.
Defined.

(** C1 as stated fails on a sentence with a boolean constant: the
    evaluator gives [P & True] a truth value, [to_cnf] raises on it. *)
Lemma to_cnf_boolean_constant_counterexample :
  propositional (And P (PyBool true)) = true /\
  is_total_on [(P, true)] (And P (PyBool true)) = true /\
  pl_true (And P (PyBool true)) [(P, true)] = Ok (Some true) /\
  to_cnf (And P (PyBool true)) = Raise AttributeError /\
  ~ (exists c, to_cnf (And P (PyBool true)) = Ok c /\
               pl_true c [(P, true)]
               = pl_true (And P (PyBool true)) [(P, true)]).
Proof.
  repeat split. intros [c [Hc _]]. discriminate.
Qed.

(** ** Idempotence of [to_cnf] *)

(** Whenever [to_cnf] returns on a sentence of the specification, it
    returns its own result unchanged on that result. *)
Lemma to_cnf_fixed_point : forall s c,
  propositional s = true -> to_cnf s = Ok c -> to_cnf c = Ok c.
Proof.
  intros s c Hs Hc.
  assert (Hp : proper s = true).
  { unfold to_cnf in Hc.
    destruct (eliminate_implications s) as [s1 |] eqn:E; [| discriminate].
    now apply (eliminate_implications_returns s s1). }
  destruct (to_cnf_proper s Hp) as [c' [Hc' [Cc _]]].
  rewrite Hc in Hc'. injection Hc' as <-. now apply to_cnf_cnf.
Qed.

(** C8, amended: for every sentence built from proposition symbols and the
    operators, without Python booleans and with at least one argument under
    every [&] and [|], [to_cnf(s)] returns a sentence [c], and [to_cnf(c)]
    returns a sentence equal to [c] under [Expr.__eq__]. *)
Theorem to_cnf_idempotent : forall s,
  proper s = true ->
  exists c c', to_cnf s = Ok c /\ to_cnf c = Ok c' /\ expr_eqb c' c = true.
Proof.
  intros s Hs. destruct (to_cnf_proper s Hs) as [c [Hc [Cc _]]].
  exists c, c. split; [exact Hc |]. split.
  - now apply to_cnf_cnf.
  - apply expr_eqb_refl.
Qed.

Lemma to_cnf_idempotent_witness :
  exists c c',
    to_cnf (Or (And A B) (Expr "==>" [C; Not (And A C)])) = Ok c /\
    to_cnf c = Ok c' /\ expr_eqb c' c = true.
Proof.
  apply (to_cnf_idempotent (Or (And A B) (Expr "==>" [C; Not (And A C)]))).
  reflexivity.
Defined.

(** C8 as stated fails where [to_cnf] has no result to return twice: on a
    sentence with a boolean constant it raises, and on the empty
    conjunction, the sentence [PropKB.ask_generator] builds for an empty
    store, it returns [True], on which it raises. *)
Lemma to_cnf_idempotent_counterexample :
  propositional (And P (PyBool true)) = true /\
  to_cnf (And P (PyBool true)) = Raise AttributeError /\
  to_cnf (Expr "&" []) = Ok (PyBool true) /\
  to_cnf (PyBool true) = Raise AttributeError /\
  ~ (exists c c', to_cnf (Expr "&" []) = Ok c /\ to_cnf c = Ok c' /\
                  expr_eqb c' c = true).
Proof.
  repeat split. intros [c [c' [H1 [H2 _]]]].
  injection H1 as <-. discriminate.
Qed.

(** ** The clause store of [PropKB] *)

Lemma conjuncts_cnf : forall c,
  is_cnf c = true ->
  conjuncts c = Ok (flatten "&" c) /\
  forallb is_clause (flatten "&" c) = true.
Proof.
  intros c H. split; [| now apply flatten_cnf].
  unfold conjuncts. change "&" with (op_name AND).
  rewrite (dissociate_flatten AND [c]).
  - simpl. now rewrite app_nil_r.
  - simpl. now rewrite (is_cnf_nnf c H).
Qed.

Lemma remove_first_clauses : forall c l,
  forallb is_clause l = true -> forallb is_clause (remove_first c l) = true.
Proof.
  intros c l. induction l as [| x l IH]; intros H; [reflexivity |].
  simpl in H |- *. apply andb_true_iff in H as [Hx Hl].
  destruct (expr_eqb c x); [assumption |].
  simpl. now rewrite Hx, IH.
Qed.

Lemma remove_first_not_mem : forall c l,
  mem c l = false -> remove_first c l = l.
Proof.
  intros c l. induction l as [| x l IH]; intros H; [reflexivity |].
  simpl in H |- *. apply orb_false_iff in H as [Hx Hl].
  now rewrite Hx, IH.
Qed.

(** The loop of [retract] removes, for each conjunct in turn, its first
    occurrence. *)
Lemma retract_loop : forall cs clauses,
  fold_left
    (fun acc c =>
       self' <- acc ;;
       match self' with
       | None => Raise AttributeError
       | Some clauses =>
           if mem c clauses then Ok (Some (remove_first c clauses))
           else Ok (Some clauses)
       end)
    cs (Ok (Some clauses))
  = Ok (Some (fold_left (fun l c => remove_first c l) cs clauses)).
Proof.
  induction cs as [| c cs IH]; intros clauses; [reflexivity |].
  simpl. destruct (mem c clauses) eqn:E.
  - apply IH.
  - rewrite (remove_first_not_mem c clauses E). apply IH.
Qed.

Lemma retract_loop_clauses : forall cs clauses,
  forallb is_clause clauses = true ->
  forallb is_clause (fold_left (fun l c => remove_first c l) cs clauses)
  = true.
Proof.
  induction cs as [| c cs IH]; intros clauses H; [assumption |].
  simpl. apply IH. now apply remove_first_clauses.
Qed.

Lemma PropKB_retract_returns : forall s clauses kb',
  PropKB_retract s (Some clauses) = Ok kb' ->
  exists c cs, to_cnf s = Ok c /\ conjuncts c = Ok cs /\
    kb' = Some (fold_left (fun l c => remove_first c l) cs clauses).
Proof.
  intros s clauses kb' H. unfold PropKB_retract in H.
  destruct (to_cnf s) as [c |]; [| discriminate]. cbn [bind] in H.
  destruct (conjuncts c) as [cs |] eqn:Hcs; [| discriminate]. cbn [bind] in H.
  rewrite retract_loop in H. injection H as <-.
  exists c, cs. repeat split. exact Hcs.
Qed.

(** One [tell] or [retract] on a store of clauses. *)
Lemma PropKB_step_invariant : forall clauses s,
  forallb is_clause clauses = true ->
  propositional s = true ->
  (forall kb',
      PropKB_tell s (Some clauses) = Ok kb' ->
      exists c cs,
        to_cnf s = Ok c /\ is_cnf c = true /\
        conjuncts c = Ok cs /\
        kb' = Some (clauses ++ cs) /\
        forallb is_clause (clauses ++ cs) = true) /\
  (forall kb',
      PropKB_retract s (Some clauses) = Ok kb' ->
      exists clauses',
        kb' = Some clauses' /\ forallb is_clause clauses' = true) /\
  (proper s = true ->
   exists kb1 kb2,
     PropKB_tell s (Some clauses) = Ok kb1 /\
     PropKB_retract s (Some clauses) = Ok kb2).
Proof.
  intros clauses s Hinv Hs. split; [| split].
  - intros kb' H. unfold PropKB_tell in H.
    destruct (to_cnf s) as [c |] eqn:Hc; [| discriminate]. cbn [bind] in H.
    assert (Hp : proper s = true).
    { unfold to_cnf in Hc.
      destruct (eliminate_implications s) as [s1 |] eqn:E; [| discriminate].
      now apply (eliminate_implications_returns s s1). }
    destruct (to_cnf_proper s Hp) as [c' [Hc' [Cc _]]].
    rewrite Hc in Hc'. injection Hc' as <-.
    destruct (conjuncts_cnf c Cc) as [Hcs Hcl].
    rewrite Hcs in H. cbn [bind] in H. injection H as <-.
    exists c, (flatten "&" c). repeat split; try assumption.
    now rewrite forallb_app, Hinv, Hcl.
  - intros kb' H.
    apply PropKB_retract_returns in H as [c [cs [_ [_ ->]]]].
    eexists. split; [reflexivity |]. now apply retract_loop_clauses.
  - intros Hp. destruct (to_cnf_proper s Hp) as [c [Hc [Cc _]]].
    destruct (conjuncts_cnf c Cc) as [Hcs _].
    unfold PropKB_tell, PropKB_retract. rewrite Hc. cbn [bind].
    rewrite Hcs. cbn [bind]. rewrite retract_loop.
    eexists. eexists. split; reflexivity.
Qed.

(** C7: every element of the clause store of a [PropKB] is a clause, a
    disjunction of literals or a single literal, in every instance reached
    from [PropKB()] by [tell]s and [retract]s.  For a sentence [s] of the
    specification, when [tell] returns, [to_cnf(s)] is a clause or a
    conjunction of clauses (only [~], [&] and [|], no conjunction below a
    disjunction) and exactly its top-level conjuncts have been appended;
    when [retract] returns, the store is still made of clauses; and on a
    sentence without Python booleans both do return. *)
Theorem PropKB_store_invariant : forall kb,
  reachable kb ->
  exists clauses,
    kb = Some clauses /\
    forallb is_clause clauses = true /\
    forall s,
      propositional s = true ->
      (forall kb',
          PropKB_tell s kb = Ok kb' ->
          exists c cs,
            to_cnf s = Ok c /\ is_cnf c = true /\
            conjuncts c = Ok cs /\
            kb' = Some (clauses ++ cs) /\
            forallb is_clause (clauses ++ cs) = true) /\
      (forall kb',
          PropKB_retract s kb = Ok kb' ->
          exists clauses',
            kb' = Some clauses' /\ forallb is_clause clauses' = true) /\
      (proper s = true ->
       exists kb1 kb2,
         PropKB_tell s kb = Ok kb1 /\ PropKB_retract s kb = Ok kb2).
Proof.
  intros kb H.
  assert (Hinv : exists clauses,
             kb = Some clauses /\ forallb is_clause clauses = true).
  { induction H as [kb Hnew | kb s kb' _ [clauses [-> Hcl]] Hs Htell
                    | kb s kb' _ [clauses [-> Hcl]] Hret].
    - injection Hnew as <-. now exists [].
    - destruct (PropKB_step_invariant clauses s Hcl Hs) as [Ht _].
      destruct (Ht kb' Htell) as [c [cs [_ [_ [_ [-> Hcl']]]]]].
      now exists (clauses ++ cs).
    - destruct (PropKB_retract_returns s clauses kb' Hret) as [c [cs [_ [_ ->]]]].
      eexists. split; [reflexivity |]. now apply retract_loop_clauses. }
  destruct Hinv as [clauses [-> Hcl]].
  exists clauses. split; [reflexivity |]. split; [exact Hcl |].
  intros s Hs. now apply PropKB_step_invariant.
Qed.

Lemma PropKB_store_invariant_witness :
  exists clauses,
    Some [Or (Not B) A; Or (Not C) A; Expr "|" [B; C; Not A]] = Some clauses /\
    forallb is_clause clauses = true.
Proof.
  destruct (PropKB_store_invariant
              (Some [Or (Not B) A; Or (Not C) A; Expr "|" [B; C; Not A]]))
    as [clauses [E [Hcl _]]].
  - apply (reachable_tell (Some []) (Expr "<=>" [A; Or B C]));
      [apply reachable_new | |]; reflexivity.
  - now exists clauses.
Defined.

(** ** The SAT-backed store *)

(** C5, amended: [PropKB_SAT.tell] and [retract] are those of [PropKB],
    with the decomposition into clauses.  [tell] ignores a falsy sentence,
    the store stays as it is; of a truthy sentence it is [PropKB.tell]:
    when it returns, the store is the previous one followed by the
    top-level conjuncts of [to_cnf(s)], and it raises exactly what
    [to_cnf] or [conjuncts] raises, as for the constant [True], where
    this is [AttributeError].  For a sentence without Python booleans,
    which is truthy, [tell] returns and each conjunct appended is a
    clause, and [retract(s)] removes the first occurrence of each of these
    conjuncts. *)
Theorem PropKB_SAT_tell_decomposes : forall clauses s,
  (truthy s = false ->
   forall self, PropKB_SAT_tell s self = Ok self) /\
  (truthy s = true ->
   (forall self, PropKB_SAT_tell s self = PropKB_tell s self) /\
   (forall kb', PropKB_SAT_tell s (Some clauses) = Ok kb' <->
                exists c cs, to_cnf s = Ok c /\ conjuncts c = Ok cs /\
                             kb' = Some (clauses ++ cs)) /\
   (forall e, PropKB_SAT_tell s (Some clauses) = Raise e <->
              to_cnf s = Raise e \/
              exists c, to_cnf s = Ok c /\ conjuncts c = Raise e)) /\
  PropKB_SAT_tell (PyBool true) (Some clauses) = Raise AttributeError /\
  (proper s = true ->
   truthy s = true /\
   exists c cs,
     to_cnf s = Ok c /\ conjuncts c = Ok cs /\
     forallb is_clause cs = true /\
     PropKB_SAT_tell s (Some clauses) = Ok (Some (clauses ++ cs)) /\
     PropKB_SAT_retract s (Some clauses)
     = Ok (Some (fold_left (fun l c => remove_first c l) cs clauses))).
Proof.
  intros clauses s. split; [|split; [|split]].
  - intros Hf self. unfold PropKB_SAT_tell. now rewrite Hf.
  - intros Ht.
    assert (Hsame : forall self,
               PropKB_SAT_tell s self = PropKB_tell s self).
    { intros self. unfold PropKB_SAT_tell. now rewrite Ht. }
    split; [exact Hsame|]. rewrite Hsame. unfold PropKB_tell. split.
    + intros kb'. split.
      * intros H. destruct (to_cnf s) as [c|e] eqn:Hc; [|discriminate H].
        cbn [bind] in H.
        destruct (conjuncts c) as [cs|e] eqn:Hcs; [|discriminate H].
        cbn [bind] in H. injection H as <-. now exists c, cs.
      * intros [c [cs [Hc [Hcs ->]]]]. rewrite Hc. cbn [bind].
        now rewrite Hcs.
    + intros e. split.
      * intros H. destruct (to_cnf s) as [c|e0] eqn:Hc.
        -- cbn [bind] in H. right. exists c. split; [reflexivity|].
           destruct (conjuncts c) as [cs|e1] eqn:Hcs; [discriminate H|].
           cbn [bind] in H. injection H as ->. reflexivity.
        -- cbn [bind] in H. injection H as ->. now left.
      * intros [H | [c [Hc Hcs]]].
        -- now rewrite H.
        -- rewrite Hc. cbn [bind]. now rewrite Hcs.
  - reflexivity.
  - intros Hp. destruct (to_cnf_proper s Hp) as [c [Hc [Cc _]]].
    destruct (conjuncts_cnf c Cc) as [Hcs Hcl].
    split; [destruct s; [discriminate | reflexivity]|].
    exists c, (flatten "&" c). repeat split; try assumption.
    + unfold PropKB_SAT_tell, PropKB_tell.
      destruct s; [discriminate |]. cbn [truthy].
      rewrite Hc. cbn [bind]. now rewrite Hcs.
    + unfold PropKB_SAT_retract, PropKB_retract. rewrite Hc. cbn [bind].
      rewrite Hcs. cbn [bind]. apply retract_loop.
Qed.

Lemma PropKB_SAT_tell_decomposes_witness :
  exists c cs,
    to_cnf (Expr "==>" [A; And B C]) = Ok c /\ conjuncts c = Ok cs /\
    forallb is_clause cs = true /\
    PropKB_SAT_tell (Expr "==>" [A; And B C]) (Some [A]) = Ok (Some ([A] ++ cs)) /\
    PropKB_SAT_retract (Expr "==>" [A; And B C]) (Some [A])
    = Ok (Some (fold_left (fun l c => remove_first c l) cs [A])).
Proof.
  apply (PropKB_SAT_tell_decomposes [A] (Expr "==>" [A; And B C])).
  reflexivity.
Defined.

(** C5 as stated fails: told [A & B], the SAT-backed store holds the two
    conjuncts [A] and [B], not the sentence [A & B]. *)
Lemma PropKB_SAT_tell_raw_counterexample :
  PropKB_SAT_tell (And A B) (Some []) = Ok (Some [A; B]) /\
  PropKB_SAT_tell (And A B) (Some []) <> Ok (Some ([] ++ [And A B])).
Proof. split; [reflexivity | discriminate]. Qed.

(** ** Construction *)

(** C10: constructing a [PropKB] or a [PropKB_SAT] with a truthy sentence
    raises, because [KB.__init__] calls [tell] before [clauses] exists; if
    the call of [tell] did return, whatever it is, the store would be reset
    to empty; a construction that returns was given no sentence or a falsy
    one, and its store is empty. *)
Theorem PropKB_init_with_sentence : forall s,
  truthy s = true ->
  new_PropKB (Some s) = Raise AttributeError /\
  new_PropKB_SAT (Some s) = Raise AttributeError /\
  (forall tell self kb,
      PropKB_init tell (Some s) self = Ok kb -> kb = Some []) /\
  (forall sentence kb,
      new_PropKB sentence = Ok kb \/ new_PropKB_SAT sentence = Ok kb ->
      kb = Some [] /\
      (sentence = None \/ exists s', sentence = Some s' /\ truthy s' = false)) /\
  new_PropKB None = Ok (Some []) /\
  new_PropKB_SAT None = Ok (Some []).
Proof.
  intros s Hs.
  split; [| split; [| split; [| split; [| split]]]].
  - unfold new_PropKB, PropKB_init, KB_init. now rewrite Hs.
  - unfold new_PropKB_SAT, PropKB_init, KB_init, PropKB_SAT_tell.
    now rewrite Hs.
  - intros tell self kb H. unfold PropKB_init in H.
    destruct (KB_init tell (Some s) self); [| discriminate].
    simpl in H. now injection H as <-.
  - intros sentence kb H.
    unfold new_PropKB, new_PropKB_SAT, PropKB_init, KB_init,
      PropKB_SAT_tell in H.
    destruct sentence as [s' |].
    + destruct (truthy s') eqn:E.
      * destruct H as [H | H]; discriminate.
      * split; [| right; now exists s'].
        destruct H as [H | H]; simpl in H; now injection H as <-.
    + split; [| now left].
      destruct H as [H | H]; simpl in H; now injection H as <-.
  - reflexivity.
  - reflexivity.
Qed.

Lemma PropKB_init_with_sentence_witness :
  new_PropKB (Some (And P Q)) = Raise AttributeError.
Proof.
  apply (PropKB_init_with_sentence (And P Q) eq_refl).
Defined.

(** ** The two probes of [PropKB_SAT.ask] *)

Lemma run_PropKB_SAT_ask : forall clauses query solver,
  run solver (PropKB_SAT_ask query (Some clauses))
  = (Ok (decision (success (solver (forced clauses query true)))
                  (success (solver (forced clauses query false)))),
     [forced clauses query true; forced clauses query false]).
Proof.
  intros clauses query solver.
  unfold PropKB_SAT_ask, minisat, forced. simpl.
  destruct (success (solver _)), (success (solver _)); reflexivity.
Qed.

(** C3: [PropKB_SAT.ask] issues exactly two probes over the stored clauses,
    the first with the query pinned to true and the second with it pinned
    to false, and answers true when only the first is satisfiable, false
    when only the second is, and unknown when the two agree. *)
Theorem PropKB_SAT_ask_two_probes : forall clauses query solver,
  run solver (PropKB_SAT_ask query (Some clauses))
  = (Ok (decision (success (solver (forced clauses query true)))
                  (success (solver (forced clauses query false)))),
     [forced clauses query true; forced clauses query false]) /\
  decision true false = Some true /\
  decision false true = Some false /\
  decision true true = None /\
  decision false false = None.
Proof.
  intros clauses query solver. repeat split.
  unfold PropKB_SAT_ask, minisat, forced. simpl.
  destruct (success (solver _)), (success (solver _)); reflexivity.
Qed.

(** ** Operators outside the vocabulary *)

(** C9 at its failing input: [+] is not an operator of the evaluator, and
    [pl_true] returns unknown on [P + Q] as long as an operand is unknown;
    the illegal operator is reported only once both operands have a
    boolean value. *)
Theorem pl_true_illegal_operator_unreported :
  is_prop_symbol "+" = false /\
  pl_true (Expr "+" [P; Q]) [] = Ok None /\
  pl_true (Expr "+" [P; Q]) [(P, true)] = Ok None /\
  pl_true (Expr "+" [P; Q]) [(P, true); (Q, false)]
  = Raise (ValueError IllegalOperator) /\
  pl_true (Expr "+" [P]) [(P, true)] = Raise (ValueError Unpack).
Proof. repeat split. Qed.

(** Where the illegal operator is reported: two arguments, both with a
    boolean value. *)
Lemma pl_true_illegal_operator : forall op p q model bp bq,
  is_prop_symbol op = false ->
  (op =? "~") || (op =? "|") || (op =? "&") || is_implication op
  || is_reverse_implication op || (op =? "<=>") || (op =? "^") = false ->
  pl_true p model = Ok (Some bp) ->
  pl_true q model = Ok (Some bq) ->
  pl_true (Expr op [p; q]) model = Raise (ValueError IllegalOperator).
Proof.
  intros op p q model bp bq Hop H Hp Hq.
  repeat (apply orb_false_iff in H as [H ?]).
  cbn [pl_true]. fold (is_implication op). fold (is_reverse_implication op).
  rewrite Hop, H, H4, H3, H2, H1, H0, H5, Hp, Hq. reflexivity.
Qed.

(** ** The entailment checker *)

Lemma isupper_not_islower : forall c, isupper c = true -> islower c = false.
Proof.
  intros c. unfold isupper, islower. cbv zeta.
  intros H. apply andb_true_iff in H as [_ H].
  apply Nat.leb_le in H. apply andb_false_iff. left.
  apply Nat.leb_gt. lia.
Qed.

Lemma sentence_no_variable : forall s,
  sentence s = true ->
  Forall (fun x => is_variable x = Ok false) (subexpressions s).
Proof.
  induction s as [b | op args IH] using Expression_nested_ind; intros H.
  - repeat constructor.
  - cbn [subexpressions]. constructor.
    + simpl in H. unfold is_variable.
      destruct args as [| a args']; [| reflexivity].
      destruct (is_prop_symbol op) eqn:Hop.
      * destruct op as [| c op']; [discriminate |].
        unfold is_prop_symbol in Hop. apply andb_true_iff in Hop as [_ Hup].
        now rewrite (isupper_not_islower c Hup).
      * destruct (op =? "~"); [discriminate |].
        destruct ((op =? "|") || (op =? "&")) eqn:Hj; [| discriminate].
        apply orb_true_iff in Hj as [Hj | Hj]; op_is Hj; reflexivity.
    + assert (Hall : forallb sentence args = true).
      { simpl in H. destruct (is_prop_symbol op).
        - now destruct args.
        - destruct (op =? "~").
          + destruct args as [| a [| ? ?]]; try discriminate.
            simpl. now rewrite H.
          + destruct ((op =? "|") || (op =? "&")); [assumption |].
            destruct args as [| p [| q [| ? ?]]]; try discriminate.
            apply andb_true_iff in H as [H _]. simpl. now rewrite andb_true_r. }
      apply Forall_flat_map. rewrite Forall_forall in *. intros a Ha.
      apply IH; [assumption |]. rewrite forallb_forall in Hall. now apply Hall.
Qed.

Lemma variables_sentence : forall s, sentence s = true -> variables s = Ok [].
Proof.
  intros s H. unfold variables.
  rewrite (sequence_Ok_map _ _ _ (fun _ => false)
             _ (sentence_no_variable s H)).
  cbn [bind]. f_equal.
  induction (subexpressions s) as [| x l IHl]; [reflexivity | exact IHl].
Qed.

Lemma total_on_And : forall m kb alpha,
  total_on m (And kb alpha) -> total_on m kb /\ total_on m alpha.
Proof.
  intros m kb alpha H. split; intros x Hx; apply H; simpl;
    rewrite !in_app_iff; auto.
Qed.

Lemma leaf_check_total : forall kb alpha m,
  sentence kb = true -> sentence alpha = true ->
  total_on m (And kb alpha) ->
  leaf_check kb alpha m
  = implb (truth_value (valuation m) kb) (truth_value (valuation m) alpha).
Proof.
  intros kb alpha m Hk Ha Ht. apply total_on_And in Ht as [Tk Ta].
  unfold leaf_check.
  rewrite (pl_true_classical kb m Hk Tk), (pl_true_classical alpha m Ha Ta).
  now destruct (truth_value (valuation m) kb).
Qed.

Lemma model_get_extend : forall m P b x,
  model_get (extend m P b) x = if expr_eqb x P then Some b else model_get m x.
Proof. reflexivity. Qed.

(** [tt_check_all] is the conjunction of the leaf checks over the models it
    enumerates. *)
Lemma tt_check_all_enumerates : forall kb alpha,
  sentence kb = true -> sentence alpha = true ->
  forall symbols model,
    (forall x, In x (prop_symbols (And kb alpha)) ->
               In x symbols \/ model_get model x <> None) ->
    tt_check_all kb alpha symbols model
    = Ok (forallb (leaf_check kb alpha) (all_models symbols model)).
Proof.
  intros kb alpha Hk Ha.
  induction symbols as [| P0 rest IH]; intros model Hcover.
  - assert (Ht : total_on model (And kb alpha)).
    { intros x Hx. destruct (Hcover x Hx) as [[] | H]. exact H. }
    simpl. unfold leaf_check. rewrite andb_true_r.
    apply total_on_And in Ht as [Tk Ta].
    rewrite (pl_true_classical kb model Hk Tk),
            (pl_true_classical alpha model Ha Ta). simpl.
    now destruct (truth_value (valuation model) kb).
  - simpl. rewrite forallb_app.
    assert (Hc : forall b x, In x (prop_symbols (And kb alpha)) ->
                   In x rest \/ model_get (extend model P0 b) x <> None).
    { intros b x Hx. rewrite model_get_extend.
      destruct (expr_eqb x P0) eqn:E; [right; discriminate |].
      destruct (Hcover x Hx) as [[<- | H] | H]; auto.
      now rewrite expr_eqb_refl in E. }
    rewrite (IH _ (Hc true)). cbn [bind].
    destruct (forallb _ (all_models rest (extend model P0 true)));
      [apply (IH _ (Hc false)) | reflexivity].
Qed.

Lemma all_models_length : forall symbols model,
  List.length (all_models symbols model) = 2 ^ List.length symbols.
Proof.
  induction symbols as [| P0 rest IH]; intros model; [reflexivity |].
  simpl. rewrite length_app, !IH. lia.
Qed.

(** Every enumerated model binds every enumerated symbol and keeps what the
    starting model binds. *)
Lemma all_models_bind : forall symbols model m,
  In m (all_models symbols model) ->
  forall x, In x symbols \/ model_get model x <> None -> model_get m x <> None.
Proof.
  induction symbols as [| P0 rest IH]; intros model m Hm x Hx.
  - destruct Hm as [<- | []]. destruct Hx as [[] | Hx]. exact Hx.
  - simpl in Hm. apply in_app_iff in Hm.
    assert (Hc : forall b, In x rest \/ model_get (extend model P0 b) x <> None).
    { intros b. rewrite model_get_extend.
      destruct (expr_eqb x P0) eqn:E; [right; discriminate |].
      destruct Hx as [[<- | H] | H]; auto.
      now rewrite expr_eqb_refl in E. }
    destruct Hm as [Hm | Hm]; eapply IH; eauto.
Qed.

(** Every assignment of the enumerated symbols is among the enumerated
    models. *)
Lemma all_models_cover : forall (v : Expression -> bool) symbols model,
  exists m, In m (all_models symbols model) /\
            (forall x, In x symbols -> model_get m x = Some (v x)) /\
            (forall x, ~ In x symbols -> model_get m x = model_get model x).
Proof.
  intros v. induction symbols as [| P0 rest IH]; intros model.
  - exists model. split; [now left |]. split; [intros x [] | reflexivity].
  - destruct (IH (extend model P0 (v P0))) as [m [Hin [Hb Hk]]].
    exists m. split.
    + simpl. apply in_app_iff. destruct (v P0); auto.
    + split.
      * intros x Hx. destruct (mem x rest) eqn:E.
        -- apply Hb. now apply mem_In.
        -- assert (Hn : ~ In x rest) by (rewrite <- mem_In; congruence).
           destruct Hx as [<- | Hx]; [| contradiction].
           rewrite (Hk _ Hn), model_get_extend. now rewrite expr_eqb_refl.
      * intros x Hx. rewrite Hk by (intros H; apply Hx; now right).
        rewrite model_get_extend.
        destruct (expr_eqb x P0) eqn:E; [| reflexivity].
        apply expr_eqb_eq in E. subst. exfalso. apply Hx. now left.
Qed.

Lemma tt_check_all_sound_complete : forall kb alpha symbols,
  sentence kb = true -> sentence alpha = true ->
  (forall x, In x symbols <-> In x (prop_symbols (And kb alpha))) ->
  forallb (leaf_check kb alpha) (all_models symbols []) = true <->
  (forall m, is_total_on m (And kb alpha) = true ->
             pl_true kb m = Ok (Some true) ->
             pl_true alpha m = Ok (Some true)).
Proof.
  intros kb alpha symbols Hk Ha Hsym. rewrite forallb_forall. split.
  - intros H m Ht Hkb. apply is_total_on_spec in Ht.
    destruct (all_models_cover (valuation m) symbols []) as [m' [Hin [Hb _]]].
    assert (Ht' : total_on m' (And kb alpha)).
    { intros x Hx. apply (all_models_bind symbols [] m' Hin).
      left. now apply Hsym. }
    assert (Hagree : forall s, incl (prop_symbols s) (prop_symbols (And kb alpha)) ->
               truth_value (valuation m') s = truth_value (valuation m) s).
    { intros s Hi. apply truth_value_ext. intros x Hx.
      unfold valuation at 1. rewrite Hb; [reflexivity |].
      apply Hsym, Hi, Hx. }
    specialize (H m' Hin). rewrite (leaf_check_total _ _ _ Hk Ha Ht') in H.
    destruct (total_on_And _ _ _ Ht) as [Tk Ta].
    rewrite (pl_true_classical kb m Hk Tk) in Hkb.
    rewrite (pl_true_classical alpha m Ha Ta).
    rewrite !Hagree in H.
    + injection Hkb as Hkb. rewrite Hkb in H. simpl in H. now rewrite H.
    + simpl. intros x Hx. rewrite !in_app_iff. auto.
    + simpl. intros x Hx. rewrite !in_app_iff. auto.
  - intros H m Hin.
    assert (Ht : total_on m (And kb alpha)).
    { intros x Hx. apply (all_models_bind symbols [] m Hin).
      left. now apply Hsym. }
    rewrite (leaf_check_total _ _ _ Hk Ha Ht).
    destruct (total_on_And _ _ _ Ht) as [Tk Ta].
    destruct (truth_value (valuation m) kb) eqn:E; [| reflexivity].
    assert (Hkb : pl_true kb m = Ok (Some true)).
    { now rewrite (pl_true_classical kb m Hk Tk), E. }
    apply is_total_on_spec in Ht. specialize (H m Ht Hkb).
    rewrite (pl_true_classical alpha m Ha Ta) in H.
    injection H as ->. reflexivity.
Qed.

(** What [tt_entails] returns on sentences. *)
Lemma tt_entails_semantics : forall kb alpha,
  sentence kb = true -> sentence alpha = true ->
  exists b,
    tt_entails kb alpha = Ok b /\
    (b = true <->
     forall m, is_total_on m (And kb alpha) = true ->
               pl_true kb m = Ok (Some true) ->
               pl_true alpha m = Ok (Some true)).
Proof.
  intros kb alpha Hk Ha.
  exists (forallb (leaf_check kb alpha)
            (all_models (dedup (prop_symbols (And kb alpha))) [])).
  split.
  - unfold tt_entails. rewrite (variables_sentence alpha Ha). cbn [bind is_empty].
    apply (tt_check_all_enumerates kb alpha Hk Ha).
    intros x Hx. left. now apply dedup_In.
  - apply tt_check_all_sound_complete; try assumption.
    intros x. apply dedup_In.
Qed.

(** C2: [tt_entails(kb, alpha)] returns, and returns true exactly when
    every model binding all the proposition symbols of [kb & alpha] in
    which [kb] is true makes [alpha] true.  Whatever the order in which the
    set of symbols is listed, [tt_check_all] visits the [2^N] models of the
    depth-first enumeration, each symbol true before false, and its result
    is the conjunction over them of the check that skips a model not
    satisfying [kb]. *)
Theorem tt_entails_correct : forall kb alpha,
  sentence kb = true -> sentence alpha = true ->
  exists b,
    tt_entails kb alpha = Ok b /\
    (b = true <->
     forall m, is_total_on m (And kb alpha) = true ->
               pl_true kb m = Ok (Some true) ->
               pl_true alpha m = Ok (Some true)) /\
    (forall symbols,
        NoDup symbols ->
        (forall x, In x symbols <-> In x (prop_symbols (And kb alpha))) ->
        tt_check_all kb alpha symbols [] = Ok b /\
        b = forallb (leaf_check kb alpha) (all_models symbols []) /\
        List.length (all_models symbols []) = 2 ^ List.length symbols).
Proof.
  intros kb alpha Hk Ha.
  set (syms := dedup (prop_symbols (And kb alpha))).
  assert (Hsyms : forall x, In x syms <-> In x (prop_symbols (And kb alpha)))
    by (intros x; apply dedup_In).
  exists (forallb (leaf_check kb alpha) (all_models syms [])).
  split; [| split].
  - unfold tt_entails. rewrite (variables_sentence alpha Ha). cbn [bind is_empty].
    apply (tt_check_all_enumerates kb alpha Hk Ha).
    intros x Hx. left. now apply Hsyms.
  - now apply tt_check_all_sound_complete.
  - intros symbols _ Hsym.
    assert (E : forallb (leaf_check kb alpha) (all_models syms [])
                = forallb (leaf_check kb alpha) (all_models symbols [])).
    { apply eq_true_iff_eq.
      rewrite (tt_check_all_sound_complete kb alpha syms Hk Ha Hsyms).
      now rewrite (tt_check_all_sound_complete kb alpha symbols Hk Ha Hsym). }
    split; [| split; [exact E | apply all_models_length]].
    rewrite E. apply (tt_check_all_enumerates kb alpha Hk Ha).
    intros x Hx. left. now apply Hsym.
Qed.

Lemma tt_entails_correct_witness :
  exists b,
    tt_entails (Expr "&" [Or P Q; Not Q]) P = Ok b /\
    (b = true <->
     forall m, is_total_on m (And (Expr "&" [Or P Q; Not Q]) P) = true ->
               pl_true (Expr "&" [Or P Q; Not Q]) m = Ok (Some true) ->
               pl_true P m = Ok (Some true)) /\
    (forall symbols,
        NoDup symbols ->
        (forall x, In x symbols <->
                   In x (prop_symbols (And (Expr "&" [Or P Q; Not Q]) P))) ->
        tt_check_all (Expr "&" [Or P Q; Not Q]) P symbols [] = Ok b /\
        b = forallb (leaf_check (Expr "&" [Or P Q; Not Q]) P)
                    (all_models symbols []) /\
        List.length (all_models symbols []) = 2 ^ List.length symbols).
Proof.
  apply (tt_entails_correct (Expr "&" [Or P Q; Not Q]) P eq_refl eq_refl).
Defined.

(** ** The SAT-backed store against the enumeration-backed one *)

Lemma is_clause_sentence : forall c, is_clause c = true -> sentence c = true.
Proof. intros c H. now apply proper_sentence, nnf_proper, is_clause_nnf. Qed.


Lemma is_atom_inv : forall q,
  is_atom q = true -> exists x, q = Expr x [] /\ is_prop_symbol x = true.
Proof.
  intros [b | x [| ? ?]] H; try discriminate. now exists x.
Qed.

Lemma is_total_on_Not : forall m kb q,
  is_total_on m (And kb (Not q)) = is_total_on m (And kb q).
Proof.
  intros m kb q. unfold is_total_on. simpl. now rewrite !app_nil_r.
Qed.

(** When the solver is right about the two probes, the entailment checker
    says of the query the opposite of the probe pinned to false, and of the
    negated query the opposite of the probe pinned to true. *)
Lemma tt_entails_against_probes : forall clauses query sat_true sat_false,
  forallb sentence clauses = true ->
  is_atom query = true ->
  (sat_true = true <-> satisfiable_with clauses query true) ->
  (sat_false = true <-> satisfiable_with clauses query false) ->
  tt_entails (Expr "&" clauses) query = Ok (negb sat_false) /\
  tt_entails (Expr "&" clauses) (Not query) = Ok (negb sat_true).
Proof.
  intros clauses query st sf Hcl Hq Hst Hsf.
  destruct (is_atom_inv query Hq) as [x [-> Hx]].
  assert (Hk : sentence (Expr "&" clauses) = true) by exact Hcl.
  assert (Ha : sentence (Expr x []) = true) by (simpl; now rewrite Hx).
  assert (Hn : sentence (Not (Expr x [])) = true) by (simpl; now rewrite Hx).
  assert (Hget : forall m, pl_true (Expr x []) m = Ok (model_get m (Expr x []))).
  { intros m. simpl. now rewrite Hx. }
  assert (Hgetn : forall m, pl_true (Not (Expr x [])) m
                            = Ok (option_map negb (model_get m (Expr x [])))).
  { intros m. simpl. now rewrite Hx. }
  split.
  - destruct (tt_entails_semantics _ _ Hk Ha) as [b [Hb Hiff]].
    rewrite Hb. f_equal. apply eq_true_iff_eq. rewrite Hiff.
    rewrite negb_true_iff, <- not_true_iff_false, Hsf. split.
    + intros H [m [Ht [Hg Hkb]]]. specialize (H m Ht Hkb).
      rewrite Hget, Hg in H. discriminate.
    + intros H m Ht Hkb. rewrite Hget.
      destruct (model_get m (Expr x [])) as [[|] |] eqn:Hg.
      * reflexivity.
      * exfalso. apply H. now exists m.
      * exfalso. apply is_total_on_spec in Ht.
        apply (Ht (Expr x [])); [| exact Hg]. simpl.
        rewrite !in_app_iff. right. left. rewrite Hx. now left.
  - destruct (tt_entails_semantics _ _ Hk Hn) as [b [Hb Hiff]].
    rewrite Hb. f_equal. apply eq_true_iff_eq. rewrite Hiff.
    rewrite negb_true_iff, <- not_true_iff_false, Hst. split.
    + intros H [m [Ht [Hg Hkb]]]. rewrite <- is_total_on_Not in Ht.
      specialize (H m Ht Hkb). rewrite Hgetn, Hg in H. discriminate.
    + intros H m Ht Hkb. rewrite Hgetn. rewrite is_total_on_Not in Ht.
      destruct (model_get m (Expr x [])) as [[|] |] eqn:Hg.
      * exfalso. apply H. now exists m.
      * reflexivity.
      * exfalso. apply is_total_on_spec in Ht.
        apply (Ht (Expr x [])); [| exact Hg]. simpl.
        rewrite !in_app_iff. right. left. rewrite Hx. now left.
Qed.

(** C4, amended: when the solver decides the two probes correctly and the
    stored clauses are satisfiable, the answer of [PropKB_SAT.ask] to a
    proposition symbol is the answer the enumeration-backed store gives
    through [tt_entails], in each of the outcomes true, false and
    unknown. *)
Theorem PropKB_SAT_ask_agrees_with_enumeration :
  forall clauses query solver,
    forallb sentence clauses = true ->
    is_atom query = true ->
    (forall value,
        success (solver (forced clauses query value)) = true <->
        satisfiable_with clauses query value) ->
    (exists value, satisfiable_with clauses query value) ->
    fst (run solver (PropKB_SAT_ask query (Some clauses)))
    = EnumerationKB_answer query (Some clauses).
Proof.
  intros clauses query solver Hcl Hq Hsolver Hsat.
  rewrite run_PropKB_SAT_ask.
  cbn [fst].
  destruct (tt_entails_against_probes clauses query _ _ Hcl Hq
              (Hsolver true) (Hsolver false)) as [Hyes Hno].
  unfold EnumerationKB_answer, PropKB_ask_if_true, PropKB_ask_generator.
  rewrite Hyes, Hno. cbn [bind].
  destruct Hsat as [value Hsat]. apply Hsolver in Hsat.
  destruct (success (solver (forced clauses query true))) eqn:Et,
           (success (solver (forced clauses query false))) eqn:Ef;
    try reflexivity.
  destruct value; congruence.
Qed.

Lemma PropKB_SAT_ask_agrees_with_enumeration_witness :
  fst (run (fun q => {| success := probe_value q |})
           (PropKB_SAT_ask P (Some [Or P Q; Not Q])))
  = EnumerationKB_answer P (Some [Or P Q; Not Q]).
Proof.
  apply (PropKB_SAT_ask_agrees_with_enumeration [Or P Q; Not Q] P
           (fun q => {| success := probe_value q |}) eq_refl eq_refl).
  - intros value. simpl. split.
    + intros ->. exists [(P, true); (Q, false)]. repeat split.
    + intros [m [_ [Hg Hkb]]]. destruct value; [reflexivity |].
      simpl in Hkb. unfold P, sym in Hg. rewrite Hg in Hkb.
      destruct (model_get m (Expr "Q" [])) as [[|] |]; discriminate.
  - exists true, [(P, true); (Q, false)]. repeat split.
Defined.

(** C4 as stated fails on an unsatisfiable store: over the clauses [P] and
    [~P] a correct solver finds both probes unsatisfiable and
    [PropKB_SAT.ask] answers unknown, while the enumeration-backed store
    entails [P] (and [~P]) and answers true. *)
Lemma PropKB_SAT_ask_unsatisfiable_store_counterexample :
  (forall value,
      success ((fun _ => {| success := false |}) (forced [P; Not P] P value))
      = true <-> satisfiable_with [P; Not P] P value) /\
  fst (run (fun _ => {| success := false |})
           (PropKB_SAT_ask P (Some [P; Not P]))) = Ok None /\
  EnumerationKB_answer P (Some [P; Not P]) = Ok (Some true) /\
  PropKB_ask P (Some [P; Not P]) = Ok (Some []) /\
  PropKB_ask (Not P) (Some [P; Not P]) = Ok (Some []).
Proof.
  split; [| repeat split].
  intros value. simpl. split; [discriminate |].
  intros [m [_ [_ Hkb]]]. exfalso. simpl in Hkb.
  destruct (model_get m (Expr "P" [])) as [[|] |]; discriminate.
Qed.

(** * Further properties of the code *)

(** ** The stages of the normaliser, one by one *)

(** X1: on a sentence without Python booleans, [eliminate_implications]
    returns a sentence built from proposition symbols with [~], [&] and [|]
    only, with the same truth value under every valuation and with no
    proposition symbol the input does not have. *)
Theorem eliminate_implications_correct : forall s,
  proper s = true ->
  exists s',
    eliminate_implications s = Ok s' /\
    basic s' = true /\
    (forall v, truth_value v s' = truth_value v s) /\
    incl (prop_symbols s') (prop_symbols s).
Proof.
  intros s Hs.
  destruct (eliminate_implications_proper s Hs) as [s' [E [Hb [Hv Hi]]]].
  now exists s'.
Qed.

Lemma eliminate_implications_correct_witness :
  exists s',
    eliminate_implications (Expr "<=>" [A; Expr "^" [B; C]]) = Ok s' /\
    basic s' = true /\
    (forall v, truth_value v s'
               = truth_value v (Expr "<=>" [A; Expr "^" [B; C]])) /\
    incl (prop_symbols s') (prop_symbols (Expr "<=>" [A; Expr "^" [B; C]])).
Proof.
  apply (eliminate_implications_correct (Expr "<=>" [A; Expr "^" [B; C]])).
  reflexivity.
Defined.

Lemma eliminate_implications_args : forall args,
  forallb proper args = true ->
  exists args',
    sequence (map eliminate_implications args) = Ok args' /\
    List.length args' = List.length args.
Proof.
  intros args H.
  destruct (sequence_Ok _ _ eliminate_implications
              (fun x y => basic y = true /\ preserves x y) args)
    as [l' [Hl' HF]].
  - apply Forall_forall. intros a Ha.
    apply eliminate_implications_proper.
    rewrite forallb_forall in H. now apply H.
  - exists l'. split; [exact Hl' |]. symmetry. eapply Forall2_length, HF.
Qed.

Lemma Forall2_last : forall (R : Expression -> Expression -> Prop) l l' d d',
  Forall2 R l l' -> l <> [] -> R (last l d) (last l' d').
Proof.
  intros R l l' d d' H. induction H as [| x y l l' Hxy Hrest IH]; intros Hne.
  - contradiction.
  - destruct Hrest as [| x2 y2 l2 l2' Hxy2 Hrest2]; [exact Hxy |].
    change (R (last (x2 :: l2) d) (last (y2 :: l2') d')).
    apply IH. discriminate.
Qed.

(** X2: what [eliminate_implications] checks about an operator that is not
    a symbol, once its arguments (at least one) have been rewritten: [^]
    with a number of arguments other than two fails its assertion; an
    operator outside [>>], [==>], [<<], [<==], [<=>], [^], [&], [|], [~]
    fails the final assertion; an implication is not checked for its
    number of arguments, only its first and last arguments are used. *)
Theorem eliminate_implications_assertions : forall op args,
  is_empty args = false ->
  forallb proper args = true ->
  is_symbol op = false ->
  (op = "^" -> List.length args <> 2 ->
   eliminate_implications (Expr op args) = Raise AssertionError) /\
  ((op =? "~") || (op =? "|") || (op =? "&") || is_implication op
   || is_reverse_implication op || (op =? "<=>") || (op =? "^") = false ->
   eliminate_implications (Expr op args) = Raise AssertionError) /\
  (is_implication op = true ->
   exists p q',
     eliminate_implications (hd (PyBool true) args) = Ok p /\
     eliminate_implications (last args (PyBool true)) = Ok q' /\
     eliminate_implications (Expr op args) = Ok (Or q' (Not p))).
Proof.
  intros op args Hne Hargs Hsym.
  destruct (eliminate_implications_args args Hargs) as [args' [Hseq Hlen]].
  split; [| split].
  - intros -> Hl. simpl. rewrite Hne. simpl. rewrite Hseq. simpl.
    destruct args' as [| p l]; [destruct args; discriminate |].
    rewrite Hlen. apply Nat.eqb_neq in Hl. now rewrite Hl.
  - intros H. repeat (apply orb_false_iff in H as [H ?]).
    unfold is_implication, is_reverse_implication in *.
    simpl. rewrite Hne, Hsym. simpl. rewrite Hseq. simpl.
    destruct args' as [| p l]; [destruct args; discriminate |].
    rewrite H3, H2, H1, H0, H4, H5, H. reflexivity.
  - intros Himp.
    assert (Hall : Forall2 (fun x y => eliminate_implications x = Ok y)
                           args args')
      by now apply sequence_Forall2.
    destruct Hall as [| a p l l' Hap Hrest]; [discriminate |].
    exists p, (last (p :: l') p). split; [exact Hap |]. split.
    + apply (Forall2_last (fun x y => eliminate_implications x = Ok y)
               (a :: l) (p :: l'));
        [now constructor | discriminate].
    + cbn [eliminate_implications is_empty orb]. rewrite Hsym.
      rewrite Hseq. cbn [bind].
      fold (is_implication op). now rewrite Himp.
Qed.

Lemma eliminate_implications_assertions_witness :
  eliminate_implications (Expr "^" [A; B; C]) = Raise AssertionError.
Proof.
  refine (proj1 (eliminate_implications_assertions "^" [A; B; C]
                   eq_refl eq_refl eq_refl) eq_refl _).
  simpl. lia.
Defined.

(** X3: on a sentence built with [~], [&] and [|], [move_not_inwards]
    returns a sentence in which [~] is applied to proposition symbols only,
    with the same truth value under every valuation and no new proposition
    symbol; its helper [NOT] returns such a sentence for the negation; and
    a double negation is moved as the sentence below it. *)
Theorem move_not_inwards_correct : forall s,
  basic s = true ->
  (exists s',
      move_not_inwards s = Ok s' /\ nnf s' = true /\
      (forall v, truth_value v s' = truth_value v s) /\
      incl (prop_symbols s') (prop_symbols s)) /\
  (exists s',
      NOT s = Ok s' /\ nnf s' = true /\
      (forall v, truth_value v s' = negb (truth_value v s)) /\
      incl (prop_symbols s') (prop_symbols s)) /\
  move_not_inwards (Not (Not s)) = move_not_inwards s.
Proof.
  intros s Hs.
  destruct (move_not_basic s Hs) as [[s1 [E1 [N1 [V1 S1]]]] [s2 [E2 [N2 [V2 S2]]]]].
  split; [| split].
  - now exists s1.
  - exists s2. split; [exact E2 |]. split; [exact N2 |]. split.
    + intros v. now rewrite V2.
    + simpl in S2. now rewrite app_nil_r in S2.
  - destruct s; reflexivity.
Qed.

Lemma move_not_inwards_correct_witness :
  exists s',
    move_not_inwards (Not (Or A (And B (Not C)))) = Ok s' /\ nnf s' = true /\
    (forall v, truth_value v s'
               = truth_value v (Not (Or A (And B (Not C))))) /\
    incl (prop_symbols s') (prop_symbols (Not (Or A (And B (Not C))))).
Proof.
  apply (move_not_inwards_correct (Not (Or A (And B (Not C))))).
  reflexivity.
Defined.

(** X5: the recursion of [distribute_and_over_or] ends on every
    expression, well formed or not: the depth of its calls is at most
    [weight s], so that from this bound on every bound gives the same
    result, which is never the exhaustion of the bound. *)
Theorem distribute_and_over_or_terminates : forall s n,
  weight s <= n ->
  distribute n s = distribute_and_over_or s /\
  distribute n s <> Raise RecursionError.
Proof.
  intros s n Hn. split.
  - now apply distribute_and_over_or_bound.
  - now apply distribute_fuel_suffices.
Qed.

Lemma distribute_and_over_or_terminates_witness :
  distribute 40 (Or (And A B) (Or C (And A (PyBool true))))
  = distribute_and_over_or (Or (And A B) (Or C (And A (PyBool true)))) /\
  distribute 40 (Or (And A B) (Or C (And A (PyBool true))))
  <> Raise RecursionError.
Proof.
  apply (distribute_and_over_or_terminates
           (Or (And A B) (Or C (And A (PyBool true)))) 40).
  vm_compute. repeat constructor.
Defined.

(** ** The associator *)

Lemma collect_arg_piece : forall op x,
  is_expr x && negb (has_op op x) = true -> collect_arg op x = Ok [x].
Proof.
  intros op [b | o l] H; [discriminate |].
  simpl in H |- *. now destruct (o =? op).
Qed.

Lemma dissociate_pieces : forall op l,
  forallb (fun y => is_expr y && negb (has_op op y)) l = true ->
  dissociate op l = Ok l.
Proof.
  intros op l H. unfold dissociate.
  rewrite (sequence_Ok_map _ _ _ (fun x => [x])).
  - simpl. f_equal. induction l as [| x l IH]; [reflexivity |].
    simpl in H |- *. apply andb_true_iff in H as [_ H]. now rewrite IH.
  - apply Forall_forall. intros x Hx. apply collect_arg_piece.
    rewrite forallb_forall in H. now apply H.
Qed.

(** X6: when [dissociate(op, args)] returns, no element of the result is
    a Python boolean or has the operator [op], the result is the
    flattening of the arguments, and flattening it again changes nothing;
    when it raises, it raises [AttributeError]. *)
Theorem dissociate_flat : forall op args,
  (forall l,
      dissociate op args = Ok l ->
      l = flat_map (flatten op) args /\
      forallb (fun y => is_expr y && negb (has_op op y)) l = true /\
      dissociate op l = Ok l) /\
  (forall e, dissociate op args = Raise e -> e = AttributeError).
Proof.
  intros op args. split.
  - intros l H. destruct (dissociate_returns op args l H) as [Hl Hp].
    split; [exact Hl |]. split; [exact Hp |]. now apply dissociate_pieces.
  - intros e H. unfold dissociate in H.
    destruct (sequence (map (collect_arg op) args)) as [ls |] eqn:E;
      [discriminate |].
    injection H as <-. apply sequence_Raise in E as [a [_ Hr]].
    now apply collect_arg_raises in Hr.
Qed.

(** X7: when [associate(op, args)] returns, the expression has the meaning
    of [Expr(op, *args)], its truth value under every valuation, and the
    same occurrences of proposition symbols; it is the identity of the
    operator when nothing is left after flattening and is never itself an
    [Expr] with operator [op] and fewer than two arguments. *)
Theorem associate_same_meaning : forall o args c,
  associate o args = Ok c ->
  (forall v, truth_value v c = truth_value v (Expr (op_name o) args)) /\
  prop_symbols c = prop_symbols (Expr (op_name o) args) /\
  (flat_map (flatten (op_name o)) args = [] -> c = _op_identity o) /\
  (forall l, c = Expr (op_name o) l -> 2 <= List.length l).
Proof.
  intros o args c H. apply associate_returns in H as [Hp ->].
  pose proof (flatten_list_symbols o args) as Hs.
  assert (Hv := fun v => flatten_list_truth_value o v args).
  rewrite prop_symbols_junction.
  destruct (flat_map (flatten (op_name o)) args) as [| x [| y l']] eqn:E.
  - repeat split.
    + intros v. rewrite truth_value_junction, <- Hv. now destruct o.
    + rewrite <- Hs. now destruct o.
    + intros l Hl. destruct o; discriminate.
  - repeat split.
    + intros v. rewrite truth_value_junction, <- Hv.
      destruct o; simpl; [now rewrite andb_true_r | now rewrite orb_false_r].
    + rewrite <- Hs. simpl. now rewrite app_nil_r.
    + discriminate.
    + intros l ->. simpl in Hp. rewrite andb_true_r in Hp.
      now rewrite String.eqb_refl in Hp.
  - repeat split.
    + intros v. rewrite !truth_value_junction. apply Hv.
    + rewrite prop_symbols_junction. exact Hs.
    + discriminate.
    + intros l Hl. injection Hl as <-. simpl. lia.
Qed.

Lemma associate_same_meaning_witness :
  (forall v, truth_value v (Expr "|" [A; B; C; And A B])
             = truth_value v (Expr "|" [Or A (Or B (Or C (And A B)))]))
  /\ prop_symbols (Expr "|" [A; B; C; And A B])
     = prop_symbols (Expr "|" [Or A (Or B (Or C (And A B)))]).
Proof.
  split;
    apply (associate_same_meaning OR [Or A (Or B (Or C (And A B)))]
             (Expr "|" [A; B; C; And A B]) eq_refl).
Defined.

(** X8: when [conjuncts(s)] returns, none of the conjuncts is itself a
    conjunction, all of them are true exactly when [s] is, and a sentence
    that is not a conjunction is its own single conjunct. *)
Theorem conjuncts_meaning : forall s cs,
  conjuncts s = Ok cs ->
  forallb (fun c => is_expr c && negb (has_op "&" c)) cs = true /\
  (forall v, forallb (truth_value v) cs = truth_value v s) /\
  (has_op "&" s = false -> cs = [s]).
Proof.
  intros s cs H. unfold conjuncts in H.
  destruct (dissociate_returns "&" [s] cs H) as [-> Hp].
  simpl in *. rewrite app_nil_r in *.
  split; [exact Hp |]. split.
  - intros v. apply (flatten_truth_value AND v s).
  - intros Hs. now apply flatten_other_op.
Qed.

Lemma conjuncts_meaning_witness :
  forallb (fun c => is_expr c && negb (has_op "&" c)) [A; Or B C; Not A]
  = true.
Proof.
  apply (conjuncts_meaning (And (And A (Or B C)) (Not A))
           [A; Or B C; Not A] eq_refl).
Defined.

(** ** The evaluator on every model *)

(** X9: when the model gives a value to every proposition symbol of a
    sentence, [pl_true] never answers [None] nor raises: it returns the
    classical truth value of the sentence. *)
Theorem pl_true_total_model : forall s m,
  sentence s = true -> is_total_on m s = true ->
  exists b,
    pl_true s m = Ok (Some b) /\ b = truth_value (valuation m) s.
Proof.
  intros s m Hs Ht. apply is_total_on_spec in Ht.
  exists (truth_value (valuation m) s). split; [| reflexivity].
  now apply pl_true_classical.
Qed.

Lemma pl_true_total_model_witness :
  exists b,
    pl_true (Expr "==>" [And P Q; Expr "^" [P; PyBool true]])
            [(Q, false); (P, true)] = Ok (Some b) /\
    b = truth_value (valuation [(Q, false); (P, true)])
                    (Expr "==>" [And P Q; Expr "^" [P; PyBool true]]).
Proof.
  apply (pl_true_total_model
           (Expr "==>" [And P Q; Expr "^" [P; PyBool true]])
           [(Q, false); (P, true)]); reflexivity.
Defined.

Lemma refines_refl : forall t, refines t t.
Proof. intros t b H. exact H. Qed.

Lemma or_loop_from_unknown : forall rs u,
  or_loop None rs = Ok u -> u <> Some false.
Proof.
  induction rs as [| r rs IH]; intros u H; simpl in H.
  - injection H as <-. discriminate.
  - destruct r as [[[|] |] |]; simpl in H; try discriminate.
    + injection H as <-. discriminate.
    + now apply IH.
    + now apply IH.
Qed.

Lemma and_loop_from_unknown : forall rs u,
  and_loop None rs = Ok u -> u <> Some true.
Proof.
  induction rs as [| r rs IH]; intros u H; simpl in H.
  - injection H as <-. discriminate.
  - destruct r as [[[|] |] |]; simpl in H; try discriminate.
    + now apply IH.
    + injection H as <-. discriminate.
    + now apply IH.
Qed.

Lemma or_loop_monotone : forall rs rs',
  Forall2 both_return rs rs' ->
  forall res res', refines res res' ->
    both_return (or_loop res rs) (or_loop res' rs').
Proof.
  intros rs rs' H.
  induction H as [| r r' rs rs' [t [t' [-> [-> Ht]]]] _ IH]; intros res res' Hr.
  - now exists res, res'.
  - simpl. destruct t as [[|] |].
    + rewrite (Ht true eq_refl). exists (Some true), (Some true).
      repeat split. apply refines_refl.
    + rewrite (Ht false eq_refl). now apply IH.
    + destruct (IH None None (refines_refl None)) as [u [u0 [Hu [_ _]]]].
      rewrite Hu. pose proof (or_loop_from_unknown _ _ Hu) as Hnf.
      destruct t' as [[|] |].
      * exists u, (Some true). repeat split.
        intros b ->. destruct b; [reflexivity | contradiction].
      * destruct (IH None res') as [u1 [u2 [Hu1 [Hu2 Hle]]]];
          [intros b Hb; discriminate |].
        rewrite Hu in Hu1. injection Hu1 as <-. now exists u, u2.
      * destruct (IH None None (refines_refl None)) as [u1 [u2 [Hu1 [Hu2 Hle]]]].
        rewrite Hu in Hu1. injection Hu1 as <-. now exists u, u2.
Qed.

Lemma and_loop_monotone : forall rs rs',
  Forall2 both_return rs rs' ->
  forall res res', refines res res' ->
    both_return (and_loop res rs) (and_loop res' rs').
Proof.
  intros rs rs' H.
  induction H as [| r r' rs rs' [t [t' [-> [-> Ht]]]] _ IH]; intros res res' Hr.
  - now exists res, res'.
  - simpl. destruct t as [[|] |].
    + rewrite (Ht true eq_refl). now apply IH.
    + rewrite (Ht false eq_refl). exists (Some false), (Some false).
      repeat split. apply refines_refl.
    + destruct (IH None None (refines_refl None)) as [u [u0 [Hu [_ _]]]].
      rewrite Hu. pose proof (and_loop_from_unknown _ _ Hu) as Hnf.
      destruct t' as [[|] |].
      * destruct (IH None res') as [u1 [u2 [Hu1 [Hu2 Hle]]]];
          [intros b Hb; discriminate |].
        rewrite Hu in Hu1. injection Hu1 as <-. now exists u, u2.
      * exists u, (Some false). repeat split.
        intros b ->. destruct b; [contradiction | reflexivity].
      * destruct (IH None None (refines_refl None)) as [u1 [u2 [Hu1 [Hu2 Hle]]]].
        rewrite Hu in Hu1. injection Hu1 as <-. now exists u, u2.
Qed.

Lemma not_value_monotone : forall r r',
  both_return r r' -> both_return (not_value r) (not_value r').
Proof.
  intros r r' [t [t' [-> [-> Ht]]]]. exists (option_map negb t), (option_map negb t').
  repeat split. intros b Hb. destruct t as [x |]; [| discriminate].
  now rewrite (Ht x eq_refl).
Qed.

(** On a sentence [pl_true] returns, in every model, and a model that
    binds more can only make the answer more definite. *)
Lemma pl_true_monotone : forall s m m',
  sentence s = true -> extends m m' ->
  both_return (pl_true s m) (pl_true s m').
Proof.
  induction s as [b | op args IH] using Expression_nested_ind;
    intros m m' Hs Hext.
  - exists (Some b), (Some b). repeat split. apply refines_refl.
  - assert (Hargs : forallb sentence args = true ->
              Forall2 both_return (map (fun a => pl_true a m) args)
                                  (map (fun a => pl_true a m') args)).
    { intros Hall. clear Hs. induction IH as [| a l Ha _ IHl]; simpl;
        [constructor |].
      simpl in Hall. apply andb_true_iff in Hall as [H1 H2].
      constructor; [now apply Ha | now apply IHl]. }
    simpl in Hs |- *.
    destruct (is_prop_symbol op) eqn:Hop.
    { exists (model_get m (Expr op args)), (model_get m' (Expr op args)).
      repeat split. intros b. apply Hext. }
    destruct (op =? "~").
    { destruct args as [| a [| ? ?]]; try discriminate.
      apply not_value_monotone.
      assert (H : forallb sentence [a] = true) by (simpl; now rewrite Hs).
      specialize (Hargs H). now inversion Hargs. }
    destruct (op =? "|") eqn:Hor.
    { apply or_loop_monotone; [now apply Hargs | apply refines_refl]. }
    destruct (op =? "&") eqn:Hand.
    { apply and_loop_monotone; [now apply Hargs | apply refines_refl]. }
    simpl in Hs.
    destruct args as [| p [| q [| ? ?]]]; try discriminate.
    apply andb_true_iff in Hs as [Hpq Hop'].
    assert (H : forallb sentence [p; q] = true)
      by (simpl; apply andb_true_iff in Hpq as [-> ->]; reflexivity).
    specialize (Hargs H). simpl in Hargs.
    inversion Hargs as [| ? ? ? ? Hp Hq']; subst.
    inversion Hq' as [| ? ? ? ? Hq _]; subst.
    fold (is_implication op) in *. fold (is_reverse_implication op) in *.
    destruct (is_implication op).
    { destruct p; [discriminate |]. cbn [forward_implication].
      apply or_loop_monotone; [| apply refines_refl].
      constructor; [now apply not_value_monotone |].
      constructor; [assumption | constructor]. }
    destruct (is_reverse_implication op).
    { destruct q; [discriminate |]. cbn [backward_implication].
      apply or_loop_monotone; [| apply refines_refl].
      constructor; [assumption |].
      constructor; [now apply not_value_monotone | constructor]. }
    destruct Hp as [tp [tp' [-> [-> Hlp]]]].
    destruct Hq as [tq [tq' [-> [-> Hlq]]]].
    simpl in Hop'.
    assert (Hdef : forall x y, exists u,
               (if op =? "<=>" then Ok (Some (Bool.eqb x y))
                else if op =? "^" then Ok (Some (xorb x y))
                else Raise (ValueError IllegalOperator)) = Ok (Some u)).
    { intros x y. destruct (op =? "<=>"); [eexists; reflexivity |].
      destruct (op =? "^"); [eexists; reflexivity | discriminate]. }
    cbn [bind].
    destruct tp as [x |].
    + rewrite (Hlp x eq_refl). destruct tq as [y |].
      * rewrite (Hlq y eq_refl). destruct (Hdef x y) as [u ->].
        exists (Some u), (Some u). repeat split. apply refines_refl.
      * destruct tq' as [y |].
        -- destruct (Hdef x y) as [u ->]. exists None, (Some u).
           repeat split. intros b Hb. discriminate.
        -- exists None, None. repeat split. apply refines_refl.
    + destruct tp' as [x |].
      * destruct tq' as [y |].
        -- destruct (Hdef x y) as [u ->]. exists None, (Some u).
           repeat split. intros b Hb. discriminate.
        -- exists None, None. repeat split. apply refines_refl.
      * exists None, None. repeat split. apply refines_refl.
Qed.

Lemma fresh_in_extends : forall new m,
  fresh_in new m = true -> extends m (new ++ m).
Proof.
  intros new m H x b Hx. induction new as [| [k v] new IH]; [exact Hx |].
  simpl in H |- *. apply andb_true_iff in H as [Hk Hnew].
  destruct (expr_eqb x k) eqn:E; [| now apply IH].
  apply expr_eqb_eq in E. subst. rewrite Hx in Hk. discriminate.
Qed.

(** X10: on a sentence [pl_true] returns in every model, also a partial
    one, and never raises; and a [True] or [False] it has returned stays
    when the model is given further bindings for symbols it did not
    bind. *)
Theorem pl_true_stable : forall s m new b,
  sentence s = true ->
  fresh_in new m = true ->
  pl_true s m = Ok (Some b) ->
  pl_true s (new ++ m) = Ok (Some b) /\
  forall m0, exists t, pl_true s m0 = Ok t.
Proof.
  intros s m new b Hs Hnew Hb. split.
  - destruct (pl_true_monotone s m (new ++ m) Hs (fresh_in_extends _ _ Hnew))
      as [t [t' [Ht [Ht' Hle]]]].
    rewrite Ht in Hb. injection Hb as ->. now rewrite Ht', (Hle b eq_refl).
  - intros m0.
    destruct (pl_true_monotone s m0 m0 Hs (fun x b H => H))
      as [t [_ [Ht _]]].
    now exists t.
Qed.

Lemma pl_true_stable_witness :
  pl_true (Expr "==>" [And P Q; A]) ([(A, false); (Q, true)] ++ [(P, false)])
  = Ok (Some true).
Proof.
  apply (pl_true_stable (Expr "==>" [And P Q; A]) [(P, false)]
           [(A, false); (Q, true)] true eq_refl eq_refl eq_refl).
Defined.

(** ** The entailment checker at its edges *)

Lemma is_variable_raises : forall x e,
  is_variable x = Raise e -> e = IndexError.
Proof.
  intros [b | op [| a l]] e H; try discriminate.
  simpl in H. destruct op; [now injection H as <- | discriminate].
Qed.

Lemma Forall2_combine_In : forall (A B : Type) (R : A -> B -> Prop) l l' x,
  Forall2 R l l' -> In x l -> exists y, In (x, y) (combine l l') /\ R x y.
Proof.
  intros A0 B0 R l l' x H. induction H as [| a b l l' Hab _ IH]; intros Hin.
  - contradiction.
  - destruct Hin as [<- | Hin].
    + exists b. split; [now left | assumption].
    + destruct (IH Hin) as [y [Hy HR]]. exists y. split; [now right | assumption].
Qed.

(** X11: a query with a variable below it, a symbol without arguments
    whose name starts with a lowercase letter, makes [tt_entails] raise its
    assertion (or the [IndexError] of an empty operator name) before
    anything of [kb] is looked at. *)
Theorem tt_entails_variable_in_query : forall kb alpha x,
  In x (subexpressions alpha) ->
  is_variable x = Ok true ->
  tt_entails kb alpha = Raise AssertionError \/
  tt_entails kb alpha = Raise IndexError.
Proof.
  intros kb alpha x Hin Hx. unfold tt_entails, variables.
  destruct (sequence (map is_variable (subexpressions alpha)))
    as [flags | e] eqn:E.
  - left. cbn [bind]. apply sequence_Forall2 in E.
    destruct (Forall2_combine_In _ _ _ _ _ x E Hin) as [y [Hy Hxy]].
    rewrite Hx in Hxy. injection Hxy as <-.
    assert (Hf : In (x, true)
                    (filter snd (combine (subexpressions alpha) flags)))
      by (apply filter_In; split; [assumption | reflexivity]).
    destruct (filter snd (combine (subexpressions alpha) flags));
      [contradiction | reflexivity].
  - right. cbn [bind]. apply sequence_Raise in E as [a [_ Ha]].
    apply is_variable_raises in Ha. now subst.
Qed.

Lemma tt_entails_variable_in_query_witness :
  tt_entails (Expr "+" [A]) (Or P (Not (sym "x"))) = Raise AssertionError \/
  tt_entails (Expr "+" [A]) (Or P (Not (sym "x"))) = Raise IndexError.
Proof.
  apply (tt_entails_variable_in_query (Expr "+" [A])
           (Or P (Not (sym "x"))) (sym "x")).
  - simpl. tauto.
  - reflexivity.
Defined.

Lemma pl_true_true_classical : forall s m,
  sentence s = true -> total_on m s ->
  pl_true s m = Ok (Some true) <-> truth_value (valuation m) s = true.
Proof.
  intros s m Hs Ht. rewrite (pl_true_classical s m Hs Ht).
  split; [intros H; now injection H | intros ->; reflexivity].
Qed.

Lemma tt_entails_true : forall kb alpha,
  sentence kb = true -> sentence alpha = true ->
  (forall m, total_on m (And kb alpha) ->
             truth_value (valuation m) kb = true ->
             truth_value (valuation m) alpha = true) ->
  tt_entails kb alpha = Ok true.
Proof.
  intros kb alpha Hk Ha H.
  destruct (tt_entails_semantics kb alpha Hk Ha) as [b [Hb Hiff]].
  rewrite Hb. f_equal. apply Hiff. intros m Ht Hkb.
  apply is_total_on_spec in Ht.
  destruct (total_on_And _ _ _ Ht) as [Tk Ta].
  apply (pl_true_true_classical alpha m Ha Ta). apply H; [assumption |].
  now apply (pl_true_true_classical kb m Hk Tk).
Qed.

Lemma tt_entails_true_inv : forall kb alpha m,
  sentence kb = true -> sentence alpha = true ->
  tt_entails kb alpha = Ok true ->
  total_on m (And kb alpha) ->
  truth_value (valuation m) kb = true ->
  truth_value (valuation m) alpha = true.
Proof.
  intros kb alpha m Hk Ha H Ht Hkb.
  destruct (tt_entails_semantics kb alpha Hk Ha) as [b [Hb Hiff]].
  rewrite Hb in H. injection H as ->.
  destruct (total_on_And _ _ _ Ht) as [Tk Ta].
  apply (pl_true_true_classical alpha m Ha Ta).
  apply (proj1 Hiff eq_refl).
  - now apply is_total_on_spec.
  - now apply (pl_true_true_classical kb m Hk Tk).
Qed.

(** X12: [tt_entails] on sentences is a consequence relation: every
    sentence entails itself and the constant [True]; a conjunction entails
    each of its two conjuncts; and what [kb] entails, [kb] with a further
    conjunct entails too. *)
Theorem tt_entails_laws : forall kb a,
  sentence kb = true -> sentence a = true ->
  tt_entails kb kb = Ok true /\
  tt_entails kb (PyBool true) = Ok true /\
  tt_entails (And kb a) kb = Ok true /\
  tt_entails (And kb a) a = Ok true /\
  (forall c, sentence c = true ->
             tt_entails kb a = Ok true ->
             tt_entails (And kb c) a = Ok true).
Proof.
  intros kb a Hk Ha.
  assert (Hka : sentence (And kb a) = true) by (simpl; now rewrite Hk, Ha).
  split; [| split; [| split; [| split]]].
  - apply tt_entails_true; auto.
  - apply tt_entails_true; auto.
  - apply tt_entails_true; auto. intros m _ H. simpl in H.
    now apply andb_true_iff in H as [H _].
  - apply tt_entails_true; auto. intros m _ H. simpl in H.
    apply andb_true_iff in H as [_ H]. now rewrite andb_true_r in H.
  - intros c Hc H.
    assert (Hkc : sentence (And kb c) = true) by (simpl; now rewrite Hk, Hc).
    apply tt_entails_true; auto. intros m Ht Hkb.
    apply (tt_entails_true_inv kb a m Hk Ha H).
    + intros x Hx. apply Ht. simpl in Hx |- *.
      rewrite !in_app_iff in *. tauto.
    + simpl in Hkb. now apply andb_true_iff in Hkb as [Hkb _].
Qed.

Lemma tt_entails_laws_witness :
  tt_entails (And (Expr "==>" [P; Q]) P) (And (Expr "==>" [P; Q]) P)
  = Ok true.
Proof.
  apply (tt_entails_laws (And (Expr "==>" [P; Q]) P) Q eq_refl eq_refl).
Defined.

(** ** Telling, asking and retracting *)

Lemma sentence_clauses : forall l,
  forallb is_clause l = true -> forallb sentence l = true.
Proof.
  intros l H. apply forallb_forall. intros x Hx. apply is_clause_sentence.
  rewrite forallb_forall in H. now apply H.
Qed.

Lemma PropKB_tell_proper : forall clauses s,
  proper s = true ->
  exists c,
    to_cnf s = Ok c /\ is_cnf c = true /\ preserves s c /\
    PropKB_tell s (Some clauses) = Ok (Some (clauses ++ flatten "&" c)).
Proof.
  intros clauses s Hs. destruct (to_cnf_proper s Hs) as [c [Hc [Cc Pc]]].
  exists c. repeat split; try assumption; try apply Pc.
  unfold PropKB_tell. rewrite Hc. cbn [bind].
  destruct (conjuncts_cnf c Cc) as [-> _]. reflexivity.
Qed.

(** X13: telling a sentence and asking it back succeeds: from any store of
    sentences, after [tell(s)] of a sentence without Python booleans,
    [ask(s)] returns the empty substitution and [ask_if_true(s)] returns
    [True]; and so does asking anything the store entailed before. *)
Theorem PropKB_tell_then_ask : forall clauses s,
  forallb sentence clauses = true ->
  proper s = true ->
  exists kb',
    PropKB_tell s (Some clauses) = Ok kb' /\
    PropKB_ask s kb' = Ok (Some []) /\
    PropKB_ask_if_true s kb' = Ok true /\
    (forall q, sentence q = true ->
               PropKB_ask_if_true q (Some clauses) = Ok true ->
               PropKB_ask_if_true q kb' = Ok true).
Proof.
  intros clauses s Hcl Hs.
  destruct (PropKB_tell_proper clauses s Hs) as [c [Hc [Cc [[Vc Sc] Ht]]]].
  exists (Some (clauses ++ flatten "&" c)). split; [exact Ht |].
  assert (Hkb : sentence (Expr "&" (clauses ++ flatten "&" c)) = true).
  { simpl. rewrite forallb_app, Hcl. simpl.
    apply sentence_clauses, flatten_cnf, Cc. }
  assert (Hent : tt_entails (Expr "&" (clauses ++ flatten "&" c)) s = Ok true).
  { apply tt_entails_true; [assumption | now apply proper_sentence |].
    intros m _ H. simpl in H. rewrite forallb_app in H.
    apply andb_true_iff in H as [_ H].
    rewrite <- Vc. rewrite <- (flatten_truth_value AND). exact H. }
  unfold PropKB_ask, PropKB_ask_if_true, PropKB_ask_generator.
  rewrite Hent. cbn [bind]. repeat split.
  intros q Hq H.
  destruct (tt_entails (Expr "&" clauses) q) as [[|] |] eqn:E;
    try discriminate.
  rewrite (tt_entails_true (Expr "&" (clauses ++ flatten "&" c)) q Hkb Hq);
    [reflexivity |].
  intros m Ht' Hm.
  apply (tt_entails_true_inv (Expr "&" clauses) q m Hcl Hq E).
  - intros x Hx. apply Ht'. simpl in Hx |- *.
    rewrite !in_app_iff in *. rewrite flat_map_app, in_app_iff. tauto.
  - simpl in Hm |- *. rewrite forallb_app in Hm.
    now apply andb_true_iff in Hm as [Hm _].
Qed.

Lemma PropKB_tell_then_ask_witness :
  exists kb',
    PropKB_tell (Expr "==>" [A; And B C]) (Some [A]) = Ok kb' /\
    PropKB_ask (Expr "==>" [A; And B C]) kb' = Ok (Some []) /\
    PropKB_ask_if_true (Expr "==>" [A; And B C]) kb' = Ok true /\
    (forall q, sentence q = true ->
               PropKB_ask_if_true q (Some [A]) = Ok true ->
               PropKB_ask_if_true q kb' = Ok true).
Proof.
  apply (PropKB_tell_then_ask [A] (Expr "==>" [A; And B C]));
    reflexivity.
Defined.

Lemma remove_first_In : forall c l,
  In c l -> Permutation (c :: remove_first c l) l.
Proof.
  intros c l. induction l as [| x l IH]; intros H; [contradiction |].
  simpl. destruct (expr_eqb c x) eqn:E.
  - apply expr_eqb_eq in E. now subst.
  - destruct H as [-> | H]; [now rewrite expr_eqb_refl in E |].
    eapply perm_trans; [apply perm_swap |]. now constructor; apply IH.
Qed.

Lemma retract_loop_permutation : forall cs l clauses,
  Permutation l (clauses ++ cs) ->
  Permutation (fold_left (fun l c => remove_first c l) cs l) clauses.
Proof.
  induction cs as [| c cs IH]; intros l clauses H.
  - simpl. now rewrite app_nil_r in H.
  - simpl. apply IH.
    assert (Hin : In c l).
    { eapply Permutation_in; [symmetry; exact H |].
      apply in_app_iff. right. now left. }
    apply Permutation_cons_inv with (a := c).
    eapply perm_trans; [apply remove_first_In, Hin |].
    eapply perm_trans; [exact H |].
    symmetry. apply Permutation_middle.
Qed.

Lemma remove_first_app : forall c l l',
  mem c l = false -> remove_first c (l ++ c :: l') = l ++ l'.
Proof.
  intros c l l'. induction l as [| x l IH]; intros H; simpl.
  - now rewrite expr_eqb_refl.
  - simpl in H. apply orb_false_iff in H as [Hx Hl].
    now rewrite Hx, IH.
Qed.

Lemma retract_loop_restores : forall cs clauses,
  forallb (fun c => negb (mem c clauses)) cs = true ->
  fold_left (fun l c => remove_first c l) cs (clauses ++ cs) = clauses.
Proof.
  induction cs as [| c cs IH]; intros clauses H; simpl.
  - apply app_nil_r.
  - simpl in H. apply andb_true_iff in H as [Hc Hcs].
    apply negb_true_iff in Hc. rewrite (remove_first_app c clauses cs Hc).
    now apply IH.
Qed.

(** X14: [retract(s)] undoes [tell(s)]: after telling a sentence without
    Python booleans and retracting it, the store holds the clauses it held
    before, each as many times as before; and it is the very same sequence
    when none of the conjuncts of [s] was stored before. *)
Theorem PropKB_tell_then_retract : forall clauses s,
  proper s = true ->
  exists kb' cs l,
    PropKB_tell s (Some clauses) = Ok kb' /\
    conjuncts_of s = Ok cs /\
    PropKB_retract s kb' = Ok (Some l) /\
    Permutation l clauses /\
    (forallb (fun c => negb (mem c clauses)) cs = true -> l = clauses).
Proof.
  intros clauses s Hs.
  destruct (PropKB_tell_proper clauses s Hs) as [c [Hc [Cc [_ Ht]]]].
  destruct (conjuncts_cnf c Cc) as [Hcs _].
  exists (Some (clauses ++ flatten "&" c)), (flatten "&" c).
  eexists. split; [exact Ht |]. split.
  { unfold conjuncts_of. rewrite Hc. exact Hcs. }
  split.
  { unfold PropKB_retract. rewrite Hc. cbn [bind]. rewrite Hcs. cbn [bind].
    apply retract_loop. }
  split.
  - now apply retract_loop_permutation.
  - apply retract_loop_restores.
Qed.

Lemma PropKB_tell_then_retract_witness :
  exists kb' cs l,
    PropKB_tell (Expr "<=>" [A; B]) (Some [Or A (Not B); C]) = Ok kb' /\
    conjuncts_of (Expr "<=>" [A; B]) = Ok cs /\
    PropKB_retract (Expr "<=>" [A; B]) kb' = Ok (Some l) /\
    Permutation l [Or A (Not B); C] /\
    (forallb (fun c => negb (mem c [Or A (Not B); C])) cs = true ->
     l = [Or A (Not B); C]).
Proof.
  apply (PropKB_tell_then_retract [Or A (Not B); C] (Expr "<=>" [A; B])).
  reflexivity.
Defined.

(** ** Telling a conjunction *)

Lemma to_cnf_each : forall l,
  forallb proper l = true ->
  exists l1 l2 ds,
    sequence (map eliminate_implications l) = Ok l1 /\
    sequence (map (move_not None) l1) = Ok l2 /\
    sequence (map distribute_and_over_or l2) = Ok ds /\
    Forall2 (fun s d => to_cnf s = Ok d) l ds /\
    forallb is_cnf ds = true.
Proof.
  induction l as [| s l IH]; intros H.
  - exists [], [], []. repeat split. constructor.
  - simpl in H. apply andb_true_iff in H as [Hs Hl].
    destruct (IH Hl) as [l1 [l2 [ds [E1 [E2 [E3 [HF Hc]]]]]]].
    destruct (eliminate_implications_proper s Hs) as [s1 [Es1 [B1 _]]].
    destruct (move_not_basic s1 B1) as [[s2 [Es2 [N2 _]]] _].
    destruct (distribute_nnf (weight s2) s2 (le_n _) N2) as [d [Ed [Cd _]]].
    exists (s1 :: l1), (s2 :: l2), (d :: ds). simpl.
    rewrite Es1, E1, Es2, E2. simpl.
    change (distribute (weight s2) s2) with (distribute_and_over_or s2) in Ed.
    rewrite Ed, E3, Cd, Hc. repeat split.
    constructor; [| assumption].
    unfold to_cnf, move_not_inwards. rewrite Es1. simpl. now rewrite Es2.
Qed.

Lemma eliminate_implications_and : forall l l1,
  is_empty l = false ->
  sequence (map eliminate_implications l) = Ok l1 ->
  eliminate_implications (Expr "&" l) = Ok (Expr "&" l1).
Proof.
  intros l l1 Hne E. simpl. rewrite Hne. simpl. rewrite E. simpl.
  destruct l1 as [| p l1']; [| reflexivity].
  apply sequence_Forall2 in E. destruct l; [discriminate | inversion E].
Qed.

Lemma move_not_and : forall l1 l2,
  is_empty l1 = false ->
  sequence (map (move_not None) l1) = Ok l2 ->
  move_not None (Expr "&" l1) = Ok (Expr "&" l2).
Proof.
  intros l1 l2 Hne E. simpl. rewrite Hne. simpl. now rewrite E.
Qed.

Lemma to_cnf_conjunction : forall l,
  is_empty l = false -> forallb proper l = true ->
  exists ds,
    Forall2 (fun s d => to_cnf s = Ok d) l ds /\
    forallb is_cnf ds = true /\
    to_cnf (Expr "&" l) = associate AND ds.
Proof.
  intros l Hne H.
  destruct (to_cnf_each l H) as [l1 [l2 [ds [E1 [E2 [E3 [HF Hc]]]]]]].
  exists ds. split; [exact HF |]. split; [exact Hc |].
  assert (N1 : is_empty l1 = false).
  { apply sequence_Forall2 in E1.
    now rewrite (Forall2_nonempty _ _ _ _ _ E1). }
  assert (N2 : is_empty l2 = false).
  { apply sequence_Forall2 in E2.
    now rewrite (Forall2_nonempty _ _ _ _ _ E2). }
  unfold to_cnf, move_not_inwards.
  rewrite (eliminate_implications_and l l1 Hne E1). cbn [bind].
  rewrite (move_not_and l1 l2 N1 E2). cbn [bind].
  unfold distribute_and_over_or at 1.
  destruct (weight_ge_2 (Expr "&" l2)) as [k Hk]. rewrite Hk.
  remember (S k) as n eqn:Hn.
  cbn [distribute]. simpl (_ =? _). cbv iota.
  replace (sequence (map (distribute n) l2)) with (Ok ds); [reflexivity |].
  rewrite <- E3. clear - Hk Hn.
  assert (Hall : Forall (fun x => distribute n x = distribute_and_over_or x)
                        l2).
  { apply Forall_forall. intros x Hx. apply distribute_and_over_or_bound.
    pose proof (weight_and_arg x l2 Hx). lia. }
  clear Hk Hn.
  induction Hall as [| x l Hx _ IHl]; [reflexivity |].
  simpl. now rewrite Hx, IHl.
Qed.

Lemma flatten_associate_and : forall ds c,
  forallb is_cnf ds = true -> is_empty ds = false ->
  associate AND ds = Ok c ->
  is_cnf c = true /\ flatten "&" c = flat_map (flatten "&") ds.
Proof.
  intros ds c Hc Hne H.
  destruct (associate_and_cnf ds Hne Hc) as [c' [Hc' [Cc _]]].
  rewrite H in Hc'. injection Hc' as <-. split; [exact Cc |].
  assert (Hnnf : forallb nnf ds = true).
  { apply forallb_forall. intros x Hx. apply is_cnf_nnf.
    rewrite forallb_forall in Hc. now apply Hc. }
  rewrite (associate_flatten AND ds Hnnf) in H. injection H as <-.
  assert (Hcl : forallb is_clause (flat_map (flatten "&") ds) = true).
  { rewrite forallb_flat_map. apply forallb_forall. intros x Hx.
    apply flatten_cnf. rewrite forallb_forall in Hc. now apply Hc. }
  simpl. destruct (flat_map (flatten "&") ds) as [| x [| y l']] eqn:E.
  - discriminate.
  - simpl in Hcl. rewrite andb_true_r in Hcl.
    now apply flatten_other_op, is_clause_not_and.
  - cbn [flatten]. rewrite String.eqb_refl. now apply flatten_clauses.
Qed.

Lemma load_sentences_each : forall l ds clauses,
  Forall2 (fun s d => to_cnf s = Ok d) l ds ->
  forallb proper l = true -> forallb is_cnf ds = true ->
  load_sentences l (Some clauses)
  = Ok (Some (clauses ++ flat_map (flatten "&") ds)).
Proof.
  unfold load_sentences.
  intros l ds clauses H. revert clauses.
  induction H as [| s d l ds Hsd _ IH]; intros clauses Hp Hc.
  - simpl. now rewrite app_nil_r.
  - simpl in Hp, Hc. apply andb_true_iff in Hp as [Hs Hl].
    apply andb_true_iff in Hc as [Hd Hds].
    cbn [fold_left bind]. unfold PropKB_SAT_tell at 2, PropKB_tell.
    destruct s as [b | op args]; [discriminate |]. cbn [truthy].
    rewrite Hsd. cbn [bind].
    destruct (conjuncts_cnf d Hd) as [-> _]. cbn [bind].
    rewrite (IH _ Hl Hds). simpl. now rewrite app_assoc.
Qed.

(** X15: telling a conjunction is telling its conjuncts one after the
    other: for sentences without Python booleans, [load_sentences] leaves
    the store that a single [tell] of their conjunction leaves, the clauses
    of each sentence in turn. *)
Theorem load_sentences_is_tell_conjunction : forall clauses l,
  is_empty l = false ->
  forallb proper l = true ->
  exists kb',
    load_sentences l (Some clauses) = Ok kb' /\
    PropKB_SAT_tell (Expr "&" l) (Some clauses) = Ok kb' /\
    PropKB_tell (Expr "&" l) (Some clauses) = Ok kb'.
Proof.
  intros clauses l Hne H.
  destruct (to_cnf_conjunction l Hne H) as [ds [HF [Hc Hto]]].
  exists (Some (clauses ++ flat_map (flatten "&") ds)).
  split; [now apply load_sentences_each |].
  assert (Hnd : is_empty ds = false)
    by now rewrite (Forall2_nonempty _ _ _ _ _ HF).
  destruct (associate_and_cnf ds Hnd Hc) as [c [Ec _]].
  destruct (flatten_associate_and ds c Hc Hnd Ec) as [Cc Hf].
  assert (Ht : PropKB_tell (Expr "&" l) (Some clauses)
               = Ok (Some (clauses ++ flat_map (flatten "&") ds))).
  { unfold PropKB_tell. rewrite Hto, Ec. cbn [bind].
    destruct (conjuncts_cnf c Cc) as [-> _]. cbn [bind]. now rewrite Hf. }
  split; [| exact Ht]. unfold PropKB_SAT_tell. cbn [truthy]. exact Ht.
Qed.

Lemma load_sentences_is_tell_conjunction_witness :
  exists kb',
    load_sentences [Expr "==>" [A; B]; Or (And B C) A; Not C] (Some [P])
    = Ok kb' /\
    PropKB_SAT_tell (Expr "&" [Expr "==>" [A; B]; Or (And B C) A; Not C])
                    (Some [P]) = Ok kb' /\
    PropKB_tell (Expr "&" [Expr "==>" [A; B]; Or (And B C) A; Not C])
                (Some [P]) = Ok kb'.
Proof.
  apply (load_sentences_is_tell_conjunction [P]
           [Expr "==>" [A; B]; Or (And B C) A; Not C]); reflexivity.
Defined.

(** ** The planners' distance *)

Ltac heading_cases :=
  repeat match goal with
  | |- context [(?a =? ?b)%Z] => destruct (Z.eqb_spec a b)
  | |- context [(?a <? ?b)%Z] => destruct (Z.ltb_spec a b)
  | |- context [(?a <=? ?b)%Z] => destruct (Z.leb_spec a b)
  | |- context [(?a >? ?b)%Z] => rewrite (Z.gtb_ltb a b)
  | |- context [(?a >=? ?b)%Z] => rewrite (Z.geb_leb a b)
  end; cbn [andb negb fst snd].

Lemma manhattan_distance_with_heading_range : forall cx cy h tx ty,
  (Z.abs (cx - tx) + Z.abs (cy - ty)
   <= manhattan_distance_with_heading (cx, cy, h) (tx, ty)
   <= Z.abs (cx - tx) + Z.abs (cy - ty) + 2)%Z.
Proof.
  intros cx cy h tx ty. unfold manhattan_distance_with_heading.
  heading_cases; lia.
Qed.

(** X16. The distance lies between the Manhattan distance and the
    Manhattan distance plus two, it is zero exactly when the agent stands
    on the target, whatever its heading, and a heading other than 0 to 3
    adds nothing. *)
Theorem manhattan_distance_with_heading_bounds : forall cx cy h tx ty,
  (Z.abs (cx - tx) + Z.abs (cy - ty)
   <= manhattan_distance_with_heading (cx, cy, h) (tx, ty)
   <= Z.abs (cx - tx) + Z.abs (cy - ty) + 2)%Z
  /\ (manhattan_distance_with_heading (cx, cy, h) (tx, ty) = 0%Z
      <-> cx = tx /\ cy = ty)
  /\ ((h < 0 \/ 3 < h)%Z ->
      manhattan_distance_with_heading (cx, cy, h) (tx, ty)
      = (Z.abs (cx - tx) + Z.abs (cy - ty))%Z).
Proof.
  intros cx cy h tx ty. split; [apply manhattan_distance_with_heading_range|].
  split.
  - unfold manhattan_distance_with_heading. heading_cases; lia.
  - intros Hh. unfold manhattan_distance_with_heading. heading_cases; lia.
Qed.

Lemma manhattan_distance_with_heading_bounds_witness :
  manhattan_distance_with_heading (0, 0, 7)%Z (2, 3)%Z
  = (Z.abs (0 - 2) + Z.abs (0 - 3))%Z.
Proof.
  apply (manhattan_distance_with_heading_bounds 0 0 7 2 3). right. lia.
Defined.

Lemma iter_square_ahead : forall n cx cy h,
  Nat.iter n square_ahead (cx, cy, h)
  = if (h =? 0)%Z then (cx, (cy + Z.of_nat n)%Z, h)
    else if (h =? 1)%Z then ((cx - Z.of_nat n)%Z, cy, h)
    else if (h =? 2)%Z then (cx, (cy - Z.of_nat n)%Z, h)
    else if (h =? 3)%Z then ((cx + Z.of_nat n)%Z, cy, h)
    else (cx, cy, h).
Proof.
  induction n as [|n IH]; intros cx cy h.
  - unfold Nat.iter; cbn [nat_rect].
    heading_cases; f_equal; try f_equal; lia.
  - rewrite Nat.iter_succ, IH. unfold square_ahead.
    heading_cases; try lia; f_equal; try f_equal; lia.
Qed.

(** X17. The distance is a consistent estimate for moves of cost one:
    stepping to the square ahead or making a quarter turn lowers it by at
    most one; and a target [n] squares straight ahead is estimated at
    exactly [n]. *)
Theorem manhattan_distance_with_heading_consistent :
  forall current target left,
  (manhattan_distance_with_heading current target
   <= 1 + manhattan_distance_with_heading (square_ahead current) target)%Z
  /\ (manhattan_distance_with_heading current target
      <= 1 + manhattan_distance_with_heading (quarter_turn left current)
                                             target)%Z
  /\ (forall n, (0 <= snd current <= 3)%Z ->
      manhattan_distance_with_heading current
        (fst (Nat.iter n square_ahead current))
      = Z.of_nat n).
Proof.
  intros [[cx cy] h] [tx ty] left. split; [|split].
  - unfold square_ahead, manhattan_distance_with_heading.
    heading_cases; lia.
  - assert (Hc : (h = 0 \/ h = 1 \/ h = 2 \/ h = 3 \/ (h < 0 \/ 3 < h))%Z)
      by lia.
    destruct Hc as [-> | [-> | [-> | [-> | Hout]]]];
      destruct left; unfold quarter_turn;
      match goal with
      | |- context [(?a mod 4)%Z] =>
          let v := eval vm_compute in (a mod 4)%Z in
          change (a mod 4)%Z with v
      end;
      unfold manhattan_distance_with_heading;
      heading_cases; lia.
  - intros n Hh. cbn [snd] in Hh. rewrite iter_square_ahead.
    unfold manhattan_distance_with_heading.
    heading_cases; cbn [fst snd]; heading_cases; lia.
Qed.

Lemma manhattan_distance_with_heading_consistent_witness :
  manhattan_distance_with_heading (0, 0, 0)%Z
    (fst (Nat.iter 3 square_ahead (0, 0, 0)%Z))
  = Z.of_nat 3.
Proof.
  apply (manhattan_distance_with_heading_consistent (0, 0, 0)%Z (0, 0)%Z
           true).
  cbn [snd]. lia.
Defined.

(** ** The agent's queries *)

Lemma run_oracle_bind : forall (R S : Type) solver (c : Oracle R)
    (f : R -> Oracle S),
  run solver (oracle_bind c f)
  = (fst (run solver (f (fst (run solver c)))),
     snd (run solver c) ++ snd (run solver (f (fst (run solver c))))).
Proof.
  intros R S solver c f. induction c as [r | q k IH].
  - cbn [oracle_bind run fst snd app]. destruct (run solver (f r)); reflexivity.
  - cbn [oracle_bind run]. rewrite IH.
    destruct (run solver (k (solver q))) as [r t]. reflexivity.
Qed.

Lemma range1_spec : forall n x, In x (range1 n) <-> (1 <= x <= n)%Z.
Proof.
  intros n x. unfold range1. rewrite in_map_iff. split.
  - intros [k [<- Hk]]. apply in_seq in Hk. lia.
  - intros Hx. exists (Z.to_nat x). split; [lia|]. apply in_seq. lia.
Qed.

Lemma map_injective_NoDup : forall (A B : Type) (f : A -> B) l,
  (forall a b, f a = f b -> a = b) -> NoDup l -> NoDup (map f l).
Proof.
  intros A B f l Hf Hl. induction Hl as [|a l Ha Hl IH].
  - constructor.
  - cbn [map]. constructor; [|assumption].
    intros Hin. apply in_map_iff in Hin. destruct Hin as [b [Hb Hin]].
    apply Hf in Hb. subst. contradiction.
Qed.

Lemma range1_NoDup : forall n, NoDup (range1 n).
Proof.
  intros n. unfold range1. apply map_injective_NoDup.
  - intros a b Hab. lia.
  - apply seq_NoDup.
Qed.

Lemma range1_length : forall n, List.length (range1 n) = Z.to_nat n.
Proof.
  intros n. unfold range1. rewrite length_map, length_seq. reflexivity.
Qed.

Lemma squares_In : forall w h x y,
  In (x, y) (squares w h) <-> (1 <= x <= w)%Z /\ (1 <= y <= h)%Z.
Proof.
  intros w h x y. unfold squares. rewrite in_flat_map. split.
  - intros [x' [Hx Hy]]. apply in_map_iff in Hy.
    destruct Hy as [y' [Heq Hy]]. inversion Heq; subst.
    split; apply range1_spec; assumption.
  - intros [Hx Hy]. exists x. split; [apply range1_spec; assumption|].
    apply in_map_iff. exists y. split; [reflexivity|].
    apply range1_spec; assumption.
Qed.

Lemma flat_map_pairs_NoDup : forall (xs ys : list Z),
  NoDup xs -> NoDup ys ->
  NoDup (flat_map (fun x => map (fun y => (x, y)) ys) xs).
Proof.
  intros xs ys Hxs Hys. induction Hxs as [|x xs Hx Hxs IH].
  - constructor.
  - cbn [flat_map]. apply NoDup_app.
    + apply map_injective_NoDup; [|assumption].
      intros a b Hab. inversion Hab. reflexivity.
    + assumption.
    + intros [a b] Hin1 Hin2. apply in_map_iff in Hin1.
      destruct Hin1 as [y' [Heq _]]. inversion Heq; subst.
      apply in_flat_map in Hin2. destruct Hin2 as [x' [Hx' Hin2]].
      apply in_map_iff in Hin2. destruct Hin2 as [y'' [Heq' _]].
      inversion Heq'; subst. contradiction.
Qed.

Lemma flat_map_length_const : forall (A B : Type) (f : A -> list B) n xs,
  (forall x, List.length (f x) = n) ->
  List.length (flat_map f xs) = List.length xs * n.
Proof.
  intros A B f n xs Hf. induction xs as [|x xs IH].
  - reflexivity.
  - cbn [flat_map]. rewrite length_app, Hf, IH. cbn [List.length]. lia.
Qed.

(** X18. The list [reset] gives [unvisited] holds every square of the
    [width] by [height] grid, counted from 1, exactly once, and nothing
    else; a width or height below 1 gives the empty list. *)
Theorem squares_exact : forall w h,
  NoDup (squares w h)
  /\ (forall x y, In (x, y) (squares w h)
                  <-> (1 <= x <= w)%Z /\ (1 <= y <= h)%Z)
  /\ List.length (squares w h) = Z.to_nat w * Z.to_nat h
  /\ ((w < 1 \/ h < 1)%Z -> squares w h = []).
Proof.
  intros w h. split; [|split; [|split]].
  - unfold squares. apply flat_map_pairs_NoDup; apply range1_NoDup.
  - intros x y. apply squares_In.
  - unfold squares.
    rewrite (flat_map_length_const _ _ _ (Z.to_nat h)).
    + rewrite range1_length. reflexivity.
    + intros x. rewrite length_map. apply range1_length.
  - intros Hwh. destruct (squares w h) as [|[x y] l] eqn:E; [reflexivity|].
    assert (Hin : In (x, y) (squares w h)) by (rewrite E; left; reflexivity).
    apply squares_In in Hin. lia.
Qed.

Lemma squares_exact_witness : squares 0 4 = [].
Proof.
  apply (squares_exact 0 4). left. lia.
Defined.

Lemma run_ask_squares : forall solver clauses query keep locs,
  run solver (ask_squares (Some clauses) query keep locs)
  = (Ok (filter (fun loc =>
                   keep (answer solver clauses (query (fst loc) (snd loc))))
                locs),
     flat_map (fun loc =>
                 [forced clauses (query (fst loc) (snd loc)) true;
                  forced clauses (query (fst loc) (snd loc)) false])
              locs).
Proof.
  intros solver clauses query keep locs.
  induction locs as [|[x y] rest IH].
  - reflexivity.
  - cbn [ask_squares]. rewrite run_oracle_bind, run_PropKB_SAT_ask.
    cbn [fst snd]. rewrite run_oracle_bind, IH. cbn [fst snd run bind].
    cbn [filter flat_map fst snd app]. unfold answer.
    destruct (keep (decision (success (solver (forced clauses (query x y) true)))
                             (success (solver (forced clauses (query x y) false)))));
      rewrite app_nil_r; reflexivity.
Qed.

Lemma filter_incl_pointwise : forall (A : Type) (f g : A -> bool) l,
  (forall a, f a = true -> g a = true) ->
  incl (filter f l) (filter g l).
Proof.
  intros A f g l Hfg a Ha. apply filter_In in Ha. apply filter_In.
  destruct Ha as [Hin Hf]. split; [assumption|]. apply Hfg; assumption.
Qed.

(** X19. On a knowledge base that has its clause list, and with one
    solver, [find_OK_locations] returns the squares whose query is answered
    True and [find_not_unsafe_locations] those whose query is not answered
    False, both in the order of the grid: every square found OK is also
    found not unsafe.  [find_not_unsafe_locations] probes the solver
    exactly twice per square of the grid, in grid order;
    [find_OK_locations] does the same, after the two probes of
    [wumpus_alive_query] when [verbose] is set. *)
Theorem find_OK_locations_within_not_unsafe :
  forall wumpus_alive state_OK self clauses solver,
  kb self = Some clauses ->
  let grid := squares (width self) (height self) in
  let verdict loc :=
    answer solver clauses (state_OK (fst loc) (snd loc) (time self)) in
  let probes :=
    flat_map (fun loc =>
                [forced clauses (state_OK (fst loc) (snd loc) (time self))
                        true;
                 forced clauses (state_OK (fst loc) (snd loc) (time self))
                        false])
             grid in
  let alive :=
    if verbose self
    then [forced clauses (wumpus_alive (time self)) true;
          forced clauses (wumpus_alive (time self)) false]
    else [] in
  exists safe not_unsafe,
    fst (run solver (find_OK_locations wumpus_alive state_OK self)) = Ok safe
    /\ fst (run solver (find_not_unsafe_locations state_OK self))
       = Ok not_unsafe
    /\ safe = filter (fun loc => is_true (verdict loc)) grid
    /\ not_unsafe = filter (fun loc => negb (is_false (verdict loc))) grid
    /\ incl safe not_unsafe
    /\ snd (run solver (find_OK_locations wumpus_alive state_OK self))
       = alive ++ probes
    /\ snd (run solver (find_not_unsafe_locations state_OK self)) = probes
    /\ List.length
         (snd (run solver (find_OK_locations wumpus_alive state_OK self)))
       = (if verbose self then 2 else 0) + 2 * List.length grid
    /\ List.length
         (snd (run solver (find_not_unsafe_locations state_OK self)))
       = 2 * List.length grid.
Proof.
  intros wumpus_alive state_OK self clauses solver Hkb grid verdict probes
         alive.
  assert (Hlen : List.length probes = 2 * List.length grid).
  { unfold probes. rewrite (flat_map_length_const _ _ _ 2);
      [lia | reflexivity]. }
  assert (Hrun : run solver (find_OK_locations wumpus_alive state_OK self)
                 = (Ok (filter (fun loc => is_true (verdict loc)) grid),
                    alive ++ probes)).
  { unfold find_OK_locations, wumpus_alive_query, alive.
    rewrite run_oracle_bind. destruct (verbose self).
    - rewrite Hkb, run_oracle_bind, run_PropKB_SAT_ask.
      cbn [fst snd run bind app]. rewrite run_ask_squares. reflexivity.
    - cbn [fst snd run app]. rewrite Hkb, run_ask_squares. reflexivity. }
  assert (Hrun' : run solver (find_not_unsafe_locations state_OK self)
                  = (Ok (filter (fun loc => negb (is_false (verdict loc)))
                                grid),
                     probes)).
  { unfold find_not_unsafe_locations. rewrite Hkb, run_ask_squares.
    reflexivity. }
  rewrite Hrun, Hrun'. cbn [fst snd].
  eexists. eexists. split; [reflexivity|]. split; [reflexivity|].
  split; [reflexivity|]. split; [reflexivity|].
  split; [|split; [reflexivity|split; [reflexivity|split]]].
  - apply filter_incl_pointwise. intros loc. unfold verdict.
    destruct (answer _ _ _) as [[|]|]; cbn; congruence.
  - rewrite length_app, Hlen. unfold alive.
    destruct (verbose self); reflexivity.
  - exact Hlen.
Qed.

Lemma find_OK_locations_within_not_unsafe_witness :
  let wumpus_alive := fun (t : Z) => Q in
  let state_OK := fun (x y t : Z) => P in
  let self := {| width := 2; height := 1; time := 0; kb := Some [P];
                 unvisited := []; verbose := true |} in
  let solver := fun p => {| success := probe_value p |} in
  exists safe not_unsafe,
    fst (run solver (find_OK_locations wumpus_alive state_OK self)) = Ok safe
    /\ fst (run solver (find_not_unsafe_locations state_OK self))
       = Ok not_unsafe
    /\ incl safe not_unsafe
    /\ List.length
         (snd (run solver (find_OK_locations wumpus_alive state_OK self)))
       = 6.
Proof.
  intros wumpus_alive state_OK self solver.
  destruct (find_OK_locations_within_not_unsafe wumpus_alive state_OK self
              [P] solver eq_refl)
    as [safe [not_unsafe [H1 [H2 [_ [_ [H3 [_ [_ [H4 _]]]]]]]]]].
  exists safe, not_unsafe. split; [exact H1|]. split; [exact H2|].
  split; [exact H3|exact H4].
Defined.

Lemma loc_eqb_eq : forall a b, loc_eqb a b = true <-> a = b.
Proof.
  intros [a1 a2] [b1 b2]. unfold loc_eqb. cbn [fst snd].
  rewrite andb_true_iff, !Z.eqb_eq. split.
  - intros [-> ->]. reflexivity.
  - intros H. inversion H. split; reflexivity.
Qed.

Lemma remove_loc_middle : forall a pre rest,
  ~ In a pre -> remove_loc a (pre ++ a :: rest) = pre ++ rest.
Proof.
  intros a pre rest. induction pre as [|b pre IH]; intros Hnot.
  - cbn [app remove_loc].
    destruct (loc_eqb a a) eqn:E; [reflexivity|].
    assert (H : loc_eqb a a = true) by (apply loc_eqb_eq; reflexivity).
    congruence.
  - cbn [app remove_loc]. destruct (loc_eqb a b) eqn:E.
    + apply loc_eqb_eq in E. subst. exfalso. apply Hnot. left. reflexivity.
    + f_equal. apply IH. intros Hin. apply Hnot. right. assumption.
Qed.

Lemma update_unvisited_loop_past_end : forall solver turns self_kb query i l,
  List.length l <= i ->
  run solver (update_unvisited_loop turns self_kb query i l) = (Ok l, []).
Proof.
  intros solver turns self_kb query i l Hi. destruct turns as [|turns].
  - reflexivity.
  - cbn [update_unvisited_loop].
    assert (E : nth_error l i = None) by (apply nth_error_None; assumption).
    rewrite E. reflexivity.
Qed.

Lemma run_update_unvisited_loop : forall solver clauses query turns pre rest,
  NoDup (pre ++ rest) ->
  List.length rest <= turns ->
  fst (run solver (update_unvisited_loop turns (Some clauses) query
                     (List.length pre) (pre ++ rest)))
  = Ok (pre ++ visited_removed
                 (fun loc => is_true (answer solver clauses
                                        (query (fst loc) (snd loc))))
                 rest).
Proof.
  intros solver clauses query turns.
  induction turns as [|turns IH]; intros pre rest Hnd Hlen.
  - destruct rest; [reflexivity | cbn [List.length] in Hlen; lia].
  - destruct rest as [|[x y] rest'].
    + rewrite update_unvisited_loop_past_end.
      * reflexivity.
      * rewrite app_nil_r. lia.
    + cbn [update_unvisited_loop].
      assert (E : nth_error (pre ++ (x, y) :: rest') (List.length pre)
                  = Some (x, y)).
      { rewrite nth_error_app2 by lia. rewrite Nat.sub_diag. reflexivity. }
      rewrite E, run_oracle_bind, run_PropKB_SAT_ask. cbn [fst snd].
      cbn [visited_removed fst snd]. unfold answer at 1.
      destruct (is_true (decision
                  (success (solver (forced clauses (query x y) true)))
                  (success (solver (forced clauses (query x y) false)))))
        eqn:Ev.
      * rewrite remove_loc_middle
          by (apply NoDup_remove_2 in Hnd; intros Hin; apply Hnd;
              apply in_or_app; left; assumption).
        apply NoDup_remove_1 in Hnd.
        destruct rest' as [|b rest''].
        -- rewrite update_unvisited_loop_past_end.
           ++ reflexivity.
           ++ rewrite app_nil_r. lia.
        -- replace (pre ++ b :: rest'') with ((pre ++ [b]) ++ rest'')
             by (rewrite <- app_assoc; reflexivity).
           replace (S (List.length pre)) with (List.length (pre ++ [b]))
             by (rewrite length_app; cbn [List.length]; lia).
           rewrite IH.
           ++ rewrite <- app_assoc. reflexivity.
           ++ rewrite <- app_assoc. exact Hnd.
           ++ cbn [List.length] in Hlen. lia.
      * replace (pre ++ (x, y) :: rest') with ((pre ++ [(x, y)]) ++ rest')
          by (rewrite <- app_assoc; reflexivity).
        replace (S (List.length pre)) with (List.length (pre ++ [(x, y)]))
          by (rewrite length_app; cbn [List.length]; lia).
        rewrite IH.
        -- rewrite <- app_assoc. reflexivity.
        -- rewrite <- app_assoc. exact Hnd.
        -- cbn [List.length] in Hlen. lia.
Qed.

Lemma visited_removed_facts : forall visited n l,
  List.length l <= n ->
  incl (visited_removed visited l) l
  /\ (forall a, In a l -> ~ In a (visited_removed visited l) ->
                visited a = true).
Proof.
  intros visited n. induction n as [|n IH]; intros l Hlen.
  - destruct l; [|cbn [List.length] in Hlen; lia].
    split; [intros a Ha; exact Ha | intros a []].
  - destruct l as [|a l']; [split; [intros a Ha; exact Ha | intros a []]|].
    cbn [List.length] in Hlen. cbn [visited_removed].
    destruct (visited a) eqn:Ea.
    + destruct l' as [|b l''].
      * split; [intros c []|].
        intros c [<- | []] _. exact Ea.
      * cbn [List.length] in Hlen.
        destruct (IH l'' ltac:(lia)) as [Hincl Hout]. split.
        -- intros c [<- | Hc]; [right; left; reflexivity|].
           right. right. apply Hincl. exact Hc.
        -- intros c [<- | [<- | Hc]] Hnot; [exact Ea | |].
           ++ exfalso. apply Hnot. left. reflexivity.
           ++ apply Hout; [exact Hc|]. intros Hin. apply Hnot. right.
              exact Hin.
    + destruct (IH l' ltac:(lia)) as [Hincl Hout]. split.
      * intros c [<- | Hc]; [left; reflexivity|]. right. apply Hincl.
        exact Hc.
      * intros c [<- | Hc] Hnot.
        -- exfalso. apply Hnot. left. reflexivity.
        -- apply Hout; [exact Hc|]. intros Hin. apply Hnot. right. exact Hin.
Qed.

(** X20. [update_unvisited_locations] removes squares from the list it is
    iterating over.  On a list without repetition the outcome is: a square
    answered visited is removed and the square that followed it is passed
    over, kept without being asked about, even when it would have been
    answered visited too.  So the list returned is part of the old one and
    every square dropped was answered visited, but not every square
    answered visited is dropped.  The length of the list at the start
    bounds the number of turns of the loop. *)
Theorem update_unvisited_locations_skips :
  forall state_loc self clauses solver,
  kb self = Some clauses ->
  NoDup (unvisited self) ->
  let visited loc :=
    is_true (answer solver clauses
               (state_loc (fst loc) (snd loc) (time self))) in
  exists left_unvisited,
    fst (run solver (update_unvisited_locations state_loc self))
    = Ok left_unvisited
    /\ left_unvisited = visited_removed visited (unvisited self)
    /\ (forall extra,
        fst (run solver
               (update_unvisited_loop
                  (List.length (unvisited self) + extra) (kb self)
                  (fun x y => state_loc x y (time self)) 0 (unvisited self)))
        = Ok left_unvisited)
    /\ incl left_unvisited (unvisited self)
    /\ (forall a, In a (unvisited self) -> ~ In a left_unvisited ->
                  visited a = true)
    /\ (forall a b rest, unvisited self = a :: b :: rest ->
                         visited a = true -> In b left_unvisited).
Proof.
  intros state_loc self clauses solver Hkb Hnd visited.
  exists (visited_removed visited (unvisited self)).
  pose proof (run_update_unvisited_loop solver clauses
                (fun x y => state_loc x y (time self))) as Hrun.
  pose proof (visited_removed_facts visited (List.length (unvisited self))
                (unvisited self) (le_n _)) as [Hincl Hout].
  split; [|split; [|split; [|split; [|split]]]].
  - unfold update_unvisited_locations. rewrite Hkb.
    apply (Hrun (List.length (unvisited self)) [] (unvisited self));
      [exact Hnd | lia].
  - reflexivity.
  - intros extra. rewrite Hkb.
    apply (Hrun (List.length (unvisited self) + extra) [] (unvisited self));
      [exact Hnd | lia].
  - exact Hincl.
  - exact Hout.
  - intros a b rest E Ha. rewrite E. cbn [visited_removed]. rewrite Ha.
    left. reflexivity.
Qed.

Lemma update_unvisited_locations_skips_witness :
  let state_loc := fun (x y t : Z) => P in
  let self := {| width := 2; height := 2; time := 0; kb := Some [P];
                 unvisited := [(1, 1); (1, 2); (2, 1)]%Z;
                 verbose := true |} in
  let solver := fun p => {| success := probe_value p |} in
  fst (run solver (update_unvisited_locations state_loc self))
  = Ok [(1, 2)%Z].
Proof.
  intros state_loc self solver.
  destruct (update_unvisited_locations_skips state_loc self [P] solver
              eq_refl)
    as [l [H1 [H2 _]]].
  - repeat constructor; cbn [In]; intros H;
      repeat (destruct H as [H | H]; [discriminate H|]); exact H.
  - rewrite H1, H2. reflexivity.
Defined.

(** ** The distribution on objects *)

Lemma has_op_erase : forall op x, has_op op (erase x) = has_op_obj op x.
Proof. intros op [b | i o args]; reflexivity. Qed.

Lemma sequence_erase :
  forall (f : Expression -> Result (list Expression))
         (g : Object -> Result (list Object)) args,
  Forall (fun x => f (erase x) = (l <- g x ;; Ok (map erase l))) args ->
  sequence (map f (map erase args))
  = (ls <- sequence (map g args) ;; Ok (map (map erase) ls)).
Proof.
  intros f g args H. induction H as [| x args Hx _ IH].
  - reflexivity.
  - cbn [map sequence]. rewrite Hx, IH.
    destruct (g x) as [l | e]; cbn [bind]; [| reflexivity].
    destruct (sequence (map g args)) as [ls | e]; reflexivity.
Qed.

Lemma collect_obj_erase : forall op x,
  collect_arg op (erase x) = (l <- collect_obj op x ;; Ok (map erase l)).
Proof.
  intros op x. induction x as [b | i o args IH] using Object_nested_ind.
  - reflexivity.
  - cbn [erase collect_arg collect_obj]. destruct (o =? op).
    + rewrite (sequence_erase _ _ _ IH).
      destruct (sequence (map (collect_obj op) args)) as [ls | e];
        cbn [bind]; [| reflexivity].
      now rewrite concat_map.
    + reflexivity.
Qed.

Lemma dissociate_obj_erase : forall op args,
  dissociate op (map erase args)
  = (l <- dissociate_obj op args ;; Ok (map erase l)).
Proof.
  intros op args. unfold dissociate, dissociate_obj.
  rewrite (sequence_erase (collect_arg op) (collect_obj op)).
  - destruct (sequence (map (collect_obj op) args)) as [ls | e];
      cbn [bind]; [| reflexivity].
    now rewrite concat_map.
  - apply Forall_forall. intros x _. apply collect_obj_erase.
Qed.

Lemma associate_obj_erase : forall o args n,
  erased (associate_obj o args n) = associate o (map erase args).
Proof.
  intros o args n. unfold associate, associate_obj, build_bind, build_lift.
  rewrite dissociate_obj_erase.
  destruct (dissociate_obj (op_name o) args) as [l | e]; cbn [bind];
    [| reflexivity].
  destruct l as [| x [| y l']]; [destruct o | |]; reflexivity.
Qed.

Lemma build_map_erase :
  forall (f : Object -> Build Object) (g : Expression -> Result Expression) l,
  (forall x n, In x l -> erased (f x n) = g (erase x)) ->
  forall n, erased_list (build_map f l n) = sequence (map g (map erase l)).
Proof.
  intros f g l. induction l as [| x l IH]; intros H n.
  - reflexivity.
  - cbn [build_map map sequence]. unfold build_bind at 1.
    pose proof (H x n (or_introl eq_refl)) as Hx.
    destruct (f x n) as [[y n1] | e]; cbn [erased] in Hx; rewrite <- Hx;
      cbn [bind erased_list]; [| reflexivity].
    unfold build_bind.
    assert (IH' := IH (fun x' n' Hin => H x' n' (or_intror Hin)) n1).
    destruct (build_map f l n1) as [[ys n2] | e]; cbn [erased_list] in IH';
      rewrite <- IH'; reflexivity.
Qed.

Lemma collect_obj_ids : forall (ids : Object -> list nat) x l,
  (forall i args, ids (OExpr i "|" args) = flat_map ids args) ->
  collect_obj "|" x = Ok l -> flat_map ids l = ids x.
Proof.
  intros ids x l Hids. revert l.
  induction x as [b | i o args IH] using Object_nested_ind; intros l H.
  - discriminate.
  - cbn [collect_obj] in H. destruct (o =? "|") eqn:E.
    + op_is E. rewrite Hids.
      destruct (sequence (map (collect_obj "|") args)) as [ls |] eqn:Els;
        [| discriminate].
      cbn [bind] in H. injection H as <-.
      apply sequence_Forall2 in Els. clear Hids.
      induction Els as [| a la args ls Ha _ IHl].
      * reflexivity.
      * inversion IH as [| ? ? Pa Pl]; subst.
        rewrite concat_cons, flat_map_app. cbn [flat_map].
        rewrite (Pa _ Ha), (IHl Pl). reflexivity.
    + injection H as <-. cbn [flat_map]. apply app_nil_r.
Qed.

Lemma dissociate_obj_ids : forall (ids : Object -> list nat) args l,
  (forall i args', ids (OExpr i "|" args') = flat_map ids args') ->
  dissociate_obj "|" args = Ok l -> flat_map ids l = flat_map ids args.
Proof.
  intros ids args l Hids H. unfold dissociate_obj in H.
  destruct (sequence (map (collect_obj "|") args)) as [ls |] eqn:Els;
    [| discriminate].
  cbn [bind] in H. injection H as <-. apply sequence_Forall2 in Els.
  induction Els as [| a la args ls Ha _ IHl].
  - reflexivity.
  - rewrite concat_cons, flat_map_app. cbn [flat_map].
    rewrite (collect_obj_ids ids _ _ Hids Ha), IHl. reflexivity.
Qed.

Lemma conj_ids_or : forall i args,
  conj_ids (OExpr i "|" args) = flat_map conj_ids args.
Proof. reflexivity. Qed.

Lemma other_ids_or : forall i args,
  other_ids (OExpr i "|" args) = flat_map other_ids args.
Proof. reflexivity. Qed.

(** The disjunction [associate] returns holds the conjunctions of its
    arguments, place by place. *)
Lemma associate_obj_ids : forall args n r n',
  associate_obj OR args n = Ok (r, n') ->
  conj_ids r = flat_map conj_ids args /\
  other_ids r = flat_map other_ids args.
Proof.
  intros args n r n' H. unfold associate_obj, build_bind, build_lift in H.
  cbn [op_name] in H.
  destruct (dissociate_obj "|" args) as [l |] eqn:E; [| discriminate].
  pose proof (dissociate_obj_ids conj_ids _ _ conj_ids_or E) as Hc.
  pose proof (dissociate_obj_ids other_ids _ _ other_ids_or E) as Ho.
  rewrite <- Hc, <- Ho.
  destruct l as [| x [| y l']]; injection H as <- <-.
  - split; reflexivity.
  - cbn [flat_map]. now rewrite !app_nil_r.
  - split; reflexivity.
Qed.

Lemma find_split : forall (f : Object -> bool) l c,
  find f l = Some c ->
  f c = true /\
  exists pre post, l = pre ++ c :: post /\
                   forallb (fun y => negb (f y)) pre = true.
Proof.
  intros f l c. induction l as [| a l IH]; intros H; cbn [find] in H;
    [discriminate |].
  destruct (f a) eqn:E.
  - injection H as ->. split; [exact E |]. now exists [], l.
  - destruct (IH H) as [Hc [pre [post [-> Hpre]]]].
    split; [exact Hc |]. exists (a :: pre), post.
    split; [reflexivity |]. cbn [forallb]. now rewrite E.
Qed.

Lemma first_conj_erase : forall l,
  first_conj (map erase l) = option_map erase (first_conj_obj l).
Proof.
  unfold first_conj, first_conj_obj. induction l as [| a l IH].
  - reflexivity.
  - cbn [map find]. rewrite has_op_erase.
    destruct (has_op_obj "&" a); [reflexivity | exact IH].
Qed.

Lemma others_than_first_conj_split : forall pre c post,
  forallb (fun y => negb (has_op "&" y)) pre = true ->
  has_op "&" c = true ->
  others_than_first_conj (pre ++ c :: post) = pre ++ post.
Proof.
  intros pre c post Hpre Hc. induction pre as [| a pre IH].
  - cbn [app others_than_first_conj]. now rewrite Hc.
  - cbn [forallb] in Hpre. apply andb_true_iff in Hpre as [Ha Hpre].
    cbn [app others_than_first_conj].
    destruct (has_op "&" a); [discriminate |]. now rewrite IH.
Qed.

Lemma filter_all : forall (A : Type) (f : A -> bool) l,
  (forall x, In x l -> f x = true) -> filter f l = l.
Proof.
  intros A0 f l H. induction l as [| a l IH]; [reflexivity |].
  cbn [filter]. rewrite (H a (or_introl eq_refl)). f_equal.
  apply IH. intros x Hx. apply H. now right.
Qed.

Lemma in_flat_map_ids : forall (ids : Object -> list nat) x l i,
  In x l -> In i (ids x) -> In i (flat_map ids l).
Proof.
  intros ids x l i Hx Hi. apply in_flat_map. now exists x.
Qed.

(** Where no conjunction object occurs twice, dropping the arguments that
    are the object [conj] drops the one place where it was found. *)
Lemma others_than_apart : forall pre j cargs post,
  Forall (fun y => has_op_obj "|" y = false) (pre ++ post) ->
  NoDup (flat_map conj_ids (pre ++ OExpr j "&" cargs :: post)) ->
  (forall i, In i (flat_map conj_ids (pre ++ OExpr j "&" cargs :: post)) ->
             ~ In i (flat_map other_ids (pre ++ OExpr j "&" cargs :: post))) ->
  others_than (OExpr j "&" cargs) (pre ++ OExpr j "&" cargs :: post)
  = pre ++ post.
Proof.
  intros pre j cargs post Hor Hnd Hdis.
  assert (Hj : In j (flat_map conj_ids (pre ++ OExpr j "&" cargs :: post))).
  { apply (in_flat_map_ids conj_ids (OExpr j "&" cargs)).
    - apply in_or_app. right. now left.
    - now left. }
  assert (Hkeep : forall e, In e (pre ++ post) ->
                            negb (is_object e (OExpr j "&" cargs)) = true).
  { intros [b | j' o' a'] He; [reflexivity |]. cbn [is_object].
    destruct (Nat.eqb_spec j' j) as [-> | Hne]; [| reflexivity].
    exfalso. rewrite Forall_forall in Hor. pose proof (Hor _ He) as Ho.
    cbn [has_op_obj] in Ho.
    destruct (o' =? "&") eqn:Eand.
    - rewrite flat_map_app in Hnd. cbn [flat_map conj_ids] in Hnd.
      cbn [String.eqb Ascii.eqb Bool.eqb app] in Hnd.
      apply NoDup_remove_2 in Hnd. apply Hnd.
      apply in_app_or in He as [He | He].
      + apply in_or_app. left.
        apply (in_flat_map_ids conj_ids _ _ _ He).
        cbn [conj_ids]. rewrite Eand. now left.
      + apply in_or_app. right. apply in_or_app. right.
        apply (in_flat_map_ids conj_ids _ _ _ He).
        cbn [conj_ids]. rewrite Eand. now left.
    - apply (Hdis j Hj).
      apply (in_flat_map_ids other_ids (OExpr j o' a')).
      + apply in_app_or in He as [He | He]; apply in_or_app;
          [left | right; right]; exact He.
      + cbn [other_ids]. rewrite Eand, Ho. now left. }
  unfold others_than. rewrite filter_app. cbn [filter is_object].
  rewrite Nat.eqb_refl. cbn [negb].
  rewrite !filter_all; [reflexivity | |];
    intros e He; apply Hkeep; apply in_or_app; [right | left]; exact He.
Qed.

Lemma count_occ_flat_map_In : forall (ids : Object -> list nat) x l i,
  In x l ->
  count_occ Nat.eq_dec (ids x) i <= count_occ Nat.eq_dec (flat_map ids l) i.
Proof.
  intros ids x l i. induction l as [| a l IH]; intros H; [destruct H |].
  cbn [flat_map]. rewrite count_occ_app. destruct H as [-> | H].
  - lia.
  - specialize (IH H). lia.
Qed.

Lemma apart_below : forall cs os cs' os' : list nat,
  NoDup cs -> (forall i, In i cs -> ~ In i os) ->
  (forall i, count_occ Nat.eq_dec cs' i <= count_occ Nat.eq_dec cs i) ->
  incl os' os ->
  NoDup cs' /\ (forall i, In i cs' -> ~ In i os').
Proof.
  intros cs os cs' os' Hnd Hdis Hc Ho. split.
  - apply (NoDup_count_occ Nat.eq_dec). intros i.
    rewrite (NoDup_count_occ Nat.eq_dec) in Hnd.
    specialize (Hnd i). specialize (Hc i). lia.
  - intros i Hi Hio. apply (Hdis i); [| now apply Ho].
    apply (count_occ_In Nat.eq_dec). apply (count_occ_In Nat.eq_dec) in Hi.
    specialize (Hc i). lia.
Qed.

Lemma apart_and_arg : forall i sargs a,
  conjunctions_apart (OExpr i "&" sargs) -> In a sargs ->
  conjunctions_apart a.
Proof.
  intros i sargs a [Hnd Hdis] Ha.
  apply (apart_below _ _ _ _ Hnd Hdis).
  - intros k. cbn [conj_ids]. rewrite count_occ_app.
    pose proof (count_occ_flat_map_In conj_ids a sargs k Ha). lia.
  - intros k Hk. cbn [other_ids]. apply in_or_app. right.
    now apply (in_flat_map_ids other_ids a).
Qed.

Lemma apart_distributed : forall pre j cargs post rest c m,
  NoDup (flat_map conj_ids (pre ++ OExpr j "&" cargs :: post)) ->
  (forall i, In i (flat_map conj_ids (pre ++ OExpr j "&" cargs :: post)) ->
             ~ In i (flat_map other_ids (pre ++ OExpr j "&" cargs :: post))) ->
  conj_ids rest = flat_map conj_ids (pre ++ post) ->
  other_ids rest = flat_map other_ids (pre ++ post) ->
  In c cargs ->
  conjunctions_apart (OExpr m "|" [c; rest]).
Proof.
  intros pre j cargs post rest c m Hnd Hdis Hcr Hor Hc.
  apply (apart_below _ _ _ _ Hnd Hdis).
  - intros k. rewrite conj_ids_or. cbn [flat_map]. rewrite Hcr.
    rewrite !flat_map_app. cbn [flat_map conj_ids].
    rewrite !count_occ_app.
    pose proof (count_occ_flat_map_In conj_ids c cargs k Hc). cbn [count_occ].
    lia.
  - intros k Hk. rewrite other_ids_or in Hk. cbn [flat_map] in Hk.
    rewrite Hor, app_nil_r in Hk. rewrite flat_map_app in *.
    cbn [flat_map other_ids]. cbn [String.eqb Ascii.eqb Bool.eqb orb app].
    apply in_app_or in Hk as [Hk | Hk].
    + apply in_or_app. right. apply in_or_app. left.
      now apply (in_flat_map_ids other_ids c).
    + apply in_app_or in Hk as [Hk | Hk]; apply in_or_app;
        [left | right; apply in_or_app; right]; exact Hk.
Qed.
